(** * ASM92: a shallow embedding of the two-pass assembler of [asm92.cpp]

    The development follows the source function by function: character
    helpers, the [trim] helper of [strim.h], the two regular expressions of
    [parse], the operand scanners, the instruction code, one iteration of
    the [while (getline ...)] loop of [parse] ([parse_line]), the loop
    itself ([parse_lines]), a call of [parse] and the two calls made by
    [main]; then [load], and [main] with its arguments and files
    ([main_argv]).

    Conventions.
    - [char] is the signed 8-bit type of g++ on x86-64 (the compilation
      command of the source header); [unsigned char] and [uint32_t] wrap
      modulo 2^8 and 2^32.
    - [caddr] and [linenum] are C [int]s; they are kept as unbounded [Z]
      (signed overflow, which would need a source of 2^31 bytes, is
      undefined in C++ and is not modelled).
    - The local [mpc] of [parse] is read by the directive branch before
      anything is stored in it, so its value at entry is a parameter. *)

From Stdlib Require Import ZArith Lia Ascii String.
From stdpp Require Import base option list gmap strings.

Local Open Scope Z_scope.

(** ** Characters and integer conversions *)

Definition uchar_of (c : ascii) : Z := Z.of_N (N_of_ascii c).

(* value of a [char] in an integer expression (signed 8 bits) *)
Definition char_val (c : ascii) : Z :=
  let n := uchar_of c in if n <? 128 then n else n - 256.

(* conversion of an [int] to [unsigned char], [signed char], [uint32_t] *)
Definition to_uchar (z : Z) : Z := z mod 256.
Definition to_schar (z : Z) : Z :=
  let b := z mod 256 in if b <? 128 then b else b - 256.
Definition to_u32 (z : Z) : Z := z mod 2 ^ 32.

(* toupper of <cctype> in the "C" locale *)
Definition toupper (c : ascii) : ascii :=
  let n := uchar_of c in
  if (97 <=? n) && (n <=? 122) then ascii_of_N (Z.to_N (n - 32)) else c.

(* (c >= 48 && c <= 57) || (c >= 65 && c <= 70) *)
Definition is_hex (c : ascii) : bool :=
  let v := char_val c in
  ((48 <=? v) && (v <=? 57)) || ((65 <=? v) && (v <=? 70)).

(* val = c - 48; if (c > 64) val = c - 55;  ... (val & 0x0F) *)
Definition nibble (c : ascii) : Z :=
  let v := char_val c in
  let val := to_uchar (v - 48) in
  let val := if 64 <? v then to_uchar (v - 55) else val in
  Z.land val 15.

(* x <<= 4; x |= (val & 0x0F);  on an unsigned char x *)
Definition shift_in (x : Z) (c : ascii) : Z :=
  Z.lor (to_uchar (Z.shiftl x 4)) (nibble c).

(** ** [trim] *)

Definition is_space (c : ascii) : bool :=
  let n := uchar_of c in ((9 <=? n) && (n <=? 13)) || (n =? 32).

Fixpoint ltrim (s : string) : string :=
  match s with
  | EmptyString => EmptyString
  | String c s' => if is_space c then ltrim s' else s
  end.

Fixpoint rtrim (s : string) : string :=
  match s with
  | EmptyString => EmptyString
  | String c s' =>
      match rtrim s' with
      | EmptyString => if is_space c then EmptyString else String c EmptyString
      | r => String c r
      end
  end.

(** Modelled from the spec: [trim] of [strim.h], which is not among the
    sources. The spec says that leading and trailing whitespace is trimmed;
    whitespace is taken to be the six characters tab, line feed, vertical
    tab, form feed, carriage return and space. *)
Definition trim (s : string) : string := ltrim (rtrim s).

(** ** The regular expressions [^.*:] and [^.*=]

    [std::regex_search] with the ECMAScript pattern [^.*d]: [^] anchors the
    match at the start of the line, [.] matches every character except line
    feed and carriage return, [*] is greedy. The result is [match[0]], the
    longest prefix of the line that ends in [d] and has no line terminator
    before that [d]; [None] when the search fails. *)

Definition is_line_terminator (c : ascii) : bool :=
  let n := uchar_of c in (n =? 10) || (n =? 13).

Fixpoint regex_upto (d : ascii) (s : string) : option string :=
  match s with
  | EmptyString => None
  | String c s' =>
      if is_line_terminator c then
        (if Ascii.eqb c d then Some (String c EmptyString) else None)
      else
        match regex_upto d s' with
        | Some m => Some (String c m)
        | None => if Ascii.eqb c d then Some (String c EmptyString) else None
        end
  end.

(* std::string::substr(pos, count), for pos <= length *)
Definition substr (s : string) (pos count : nat) : string :=
  String.substring pos count s.

Definition strlen (s : string) : nat := String.length s.

(** ** Global tables and program state *)

Definition ALU_CARRY_ADJUST : Z := 2.

(* the built-in instruction map; [load] may add or replace entries before
   [parse] runs, so the functions below take the map as an argument *)
Definition imap : gmap Z Z :=
  list_to_map
    [ (0x484C5400, 0x03);     (* HLT *)
      (0x4D4F5621, 0x04);     (* MOV A, X *)
      (0x41444421, 0x0B);     (* ADD A, X *)
      (0x4A4D5010, 0x50);     (* JMP X *)
      (0x42520010, 0x80) ].   (* BR X *)

Definition directives_init : gmap string Z := {[ "base_addr" := 0 ]}.

Definition jmpcodes : gset string :=
  {[ "JMP"; "JSR"; "BR"; "BRZ"; "BRN" ]}.

(* jmpcodes.find(mnemonic) != jmpcodes.end() *)
Definition is_jmp (m : string) : bool := bool_decide (m ∈ jmpcodes).

(** The variables of [parse] that live across loop iterations, the globals
    it updates, the bytes written to [out] so far and the address/byte
    pairs printed on the console during the second pass. *)
Record State := mkState {
  caddr : Z;
  linenum : Z;
  mpc : Z;
  lblmap : gmap string Z;
  directives : gmap string Z;
  adjustBase : bool;
  out : list Z;
  listing : list (Z * Z)
}.

(* directives["base_addr"]; the key is present from the initialiser on, so
   operator[] never inserts and the read is a lookup *)
Definition base_addr (d : gmap string Z) : Z := default 0 (d !! "base_addr").

Inductive ErrKind :=
  | InvalidHexValue            (* "Invalid hex value" *)
  | InvalidDirective           (* "Invalid assembler directive" *)
  | InvalidDirectiveAssignment (* "Invalid assembler directive assignment" *)
  | InvalidJumpOperand         (* "Operand is neither a valid label or immediate address" *)
  | LeadingComma               (* "Leading comma in instruction" *)
  | InvalidMnemonic            (* "Invalid Mnemonic" *)
  | UnmappedInstruction.       (* "Invalid instruction ... cannot be mapped" *)

(** What an error message prints: the quoted text and the line counter. *)
Record Diag := mkDiag { dkind : ErrKind; dtext : string; dline : Z }.

(** [Err] is the jump to the label [err] of [parse]. *)
Inductive result :=
  | Ok (st : State)
  | Err (d : Diag).

(** ** Scanners of one line *)

(* the "read mnemonic" loop: characters up to the first space, upper-cased;
   its test for '#' sits in the branch where c is a space and never fires *)
Fixpoint read_mnemonic (s : string) : string * string :=
  match s with
  | EmptyString => (EmptyString, EmptyString)
  | String c s' =>
      if Ascii.eqb c " " then (EmptyString, s')
      else let '(m, r) := read_mnemonic s' in (String (toupper c) m, r)
  end.

(* the value loop of a directive; [None] is "Invalid hex value" *)
Fixpoint scan_value (s : string) (v : Z) : option Z :=
  match s with
  | EmptyString => Some v
  | String c0 s' =>
      let c := toupper c0 in
      if Ascii.eqb c " " then scan_value s' v
      else if Ascii.eqb c "#" then Some v
      else if is_hex c then scan_value s' (shift_in v c)
      else None
  end.

(** [numops], [ops[2]] and [optype[2]]. *)
Record Operands := mkOps { numops : nat; ops : list Z; optype : list Z }.

Definition rd (a : list Z) (i : nat) : Z := default 0 (a !! i).

(* the loop of the jump/branch case: returns lbl (untrimmed), ops[0],
   the flag [comment] and the characters not yet read *)
Fixpoint scan_jump (s : string) (op : Z) : string * Z * bool * string :=
  match s with
  | EmptyString => (EmptyString, op, false, EmptyString)
  | String c s' =>
      if Ascii.eqb c "#" then (EmptyString, op, true, s')
      else
        let '(l, op', cm, r) := scan_jump s' (shift_in op (toupper c)) in
        (String c l, op', cm, r)
  end.

(* the "read operands" loop; [None] is "Leading comma" *)
Fixpoint scan_operands (s : string) (o : Operands) : option Operands :=
  match s with
  | EmptyString => Some o
  | String c0 s' =>
      let c := toupper c0 in
      if Ascii.eqb c " " then scan_operands s' o
      else if Ascii.eqb c "#" then Some o
      else if Ascii.eqb c "$" then
        scan_operands s' (mkOps (numops o) (ops o) (<[numops o := 2]> (optype o)))
      else if Ascii.eqb c "," then
        (if Nat.eqb (numops o) 0
         then scan_operands s' (mkOps (S (numops o)) (ops o) (optype o))
         else None)
      else if is_hex c then
        let ops' := <[numops o := shift_in (rd (ops o) (numops o)) c]> (ops o) in
        let optype' :=
          if rd (optype o) (numops o) =? 0
          then <[numops o := 1]> (optype o) else optype o in
        scan_operands s' (mkOps (numops o) ops' optype')
      else scan_operands s' o
  end.

(** ** Instruction code *)

(* the loop over the mnemonic; [None] is "Invalid Mnemonic" *)
Fixpoint icode_mnemonic (m : string) (i : nat) (icode : Z) : option Z :=
  match m with
  | EmptyString => Some icode
  | String c m' =>
      if Nat.ltb 2 i then None
      else
        let buffer := to_u32 (char_val c) in
        let buffer := to_u32 (Z.shiftl buffer (8 * (3 - Z.of_nat i))) in
        icode_mnemonic m' (S i) (Z.lor icode buffer)
  end.

Definition make_icode (m : string) (t0 t1 : Z) : option Z :=
  match icode_mnemonic m 0 0 with
  | None => None
  | Some icode =>
      let buffer := to_u32 t0 in
      let buffer := to_u32 (Z.shiftl buffer 4) in
      let buffer := Z.lor buffer (Z.land t1 15) in
      Some (Z.lor icode buffer)
  end.

(** ** One iteration of the loop of [parse] *)

Definition next_line (st : State) : State :=
  mkState (caddr st) (linenum st + 1) (mpc st) (lblmap st) (directives st)
          (adjustBase st) (out st) (listing st).

(* out.write of one byte (second pass only), then caddr++ *)
Definition emit_byte (write : bool) (st : State) (b : Z) : State :=
  mkState (caddr st + 1) (linenum st) (mpc st) (lblmap st) (directives st)
          (adjustBase st)
          (if write then out st ++ [b] else out st)
          (if write then listing st ++ [(caddr st, b)] else listing st).

Definition set_mpc (st : State) (v : Z) : State :=
  mkState (caddr st) (linenum st) v (lblmap st) (directives st)
          (adjustBase st) (out st) (listing st).

(* relative offset of a branch to the label address [a] *)
Definition branch_offset (a ca : Z) : Z :=
  if a <? ca then to_uchar (to_schar a - (ca + ALU_CARRY_ADJUST))
  else to_uchar (to_schar a - (ca + 1)).

Definition starts_with (c : ascii) (s : string) : bool :=
  match s with
  | EmptyString => false
  | String c' _ => Ascii.eqb c' c
  end.

(* the directive branch, first pass *)
Definition parse_directive (st : State) (line : string) : result :=
  match regex_upto "=" line with
  | Some m =>
      let lbl := substr m 1 (strlen m - 2) in
      let mnemonic := substr line (strlen lbl + 2) (strlen line - strlen lbl) in
      let lbl := trim lbl in
      let mnemonic := trim mnemonic in
      match directives st !! lbl with
      | Some _ =>
          match scan_value mnemonic (mpc st) with
          | Some v =>
              let d := <[lbl := v]> (directives st) in
              if String.eqb lbl "base_addr"
              then Ok (mkState (caddr st + v) (linenum st) v (lblmap st) d
                               true (out st) (listing st))
              else Ok (mkState (caddr st) (linenum st) v (lblmap st) d
                               (adjustBase st) (out st) (listing st))
          | None => Err (mkDiag InvalidHexValue mnemonic (linenum st))
          end
      | None => Err (mkDiag InvalidDirective line (linenum st))
      end
  | None => Err (mkDiag InvalidDirectiveAssignment line (linenum st))
  end.

(* the jump/branch case of the second pass: operands after resolution, the
   flag [comment] and the unread characters, or the error *)
Definition resolve_jump (st : State) (line mnemonic rest : string)
  : Diag + (Operands * bool * string) :=
  let '(lbl, op, comment, rest') := scan_jump rest 0 in
  let lbl := trim lbl in
  let op := to_uchar (op + base_addr (directives st)) in
  match lblmap st !! lbl with
  | Some a =>
      let op := if starts_with "B" mnemonic then branch_offset a (caddr st) else a in
      inr (mkOps 1 [op; 0] [1; 0], comment, rest')
  | None =>
      if Nat.ltb 2 (strlen lbl)
      then inl (mkDiag InvalidJumpOperand line (linenum st))
      else inr (mkOps 1 [op; 0] [1; 0], comment, rest')
  end.

Definition parse_instruction (im : gmap Z Z) (write : bool) (st : State)
    (line : string) : result :=
  let '(mnemonic, rest) := read_mnemonic line in
  let jr :=
    if write && is_jmp mnemonic
    then resolve_jump st line mnemonic rest
    else inr (mkOps 0 [0; 0] [0; 0], false, rest) in
  match jr with
  | inl d => Err d
  | inr (o, comment, rest') =>
      match (if comment : bool then Some o else scan_operands rest' o) with
      | None => Err (mkDiag LeadingComma line (linenum st))
      | Some o =>
          let n :=
            if negb (rd (optype o) 1 =? 0) then 2%nat
            else if negb (rd (optype o) 0 =? 0) then 1%nat
            else numops o in
          match make_icode mnemonic (rd (optype o) 0) (rd (optype o) 1) with
          | None => Err (mkDiag InvalidMnemonic mnemonic (linenum st))
          | Some icode =>
              match im !! icode with
              | None => Err (mkDiag UnmappedInstruction line (linenum st))
              | Some t =>
                  let st := emit_byte write (set_mpc st t) t in
                  let st := foldl (emit_byte write) st (take n (ops o)) in
                  Ok (next_line st)
              end
          end
      end
  end.

Definition parse_line (im : gmap Z Z) (write : bool) (st : State)
    (raw : string) : result :=
  let line := trim raw in
  if String.eqb line "" then Ok (next_line st)
  else if starts_with "#" line then Ok (next_line st)
  else if starts_with "@" line then
    (if write then Ok st else parse_directive st line)
  else
    match regex_upto ":" line with
    | Some m =>
        if write then Ok (next_line st)
        else
          let lbl := substr m 0 (strlen m - 1) in
          Ok (next_line
                (mkState (caddr st) (linenum st) (mpc st)
                         (<[lbl := to_uchar (caddr st)]> (lblmap st))
                         (directives st) (adjustBase st) (out st) (listing st)))
    | None => parse_instruction im write st line
    end.

(** ** The loop, a call of [parse], and the two calls of [main] *)

Fixpoint parse_lines (im : gmap Z Z) (write : bool) (st : State)
    (lines : list string) : result :=
  match lines with
  | [] => Ok st
  | l :: ls =>
      match parse_line im write st l with
      | Ok st' => parse_lines im write st' ls
      | Err d => Err d
      end
  end.

(* the locals of a call of [parse] at loop entry; [mpc0] is the value the
   uninitialised local [mpc] happens to hold *)
Definition enter (write : bool) (mpc0 : Z) (st : State) : State :=
  if adjustBase st && write
  then mkState (0 + base_addr (directives st)) 1 mpc0 (lblmap st)
               (directives st) false (out st) (listing st)
  else mkState 0 1 mpc0 (lblmap st) (directives st) (adjustBase st)
               (out st) (listing st).

Definition parse (im : gmap Z Z) (write : bool) (mpc0 : Z) (st : State)
    (lines : list string) : result :=
  parse_lines im write (enter write mpc0 st) lines.

(* the byte count of the closing message of the second pass *)
Definition reported_bytes (st : State) : Z :=
  caddr st - base_addr (directives st).

Definition start : State :=
  mkState 0 1 0 ∅ directives_init false [] [].

(** What a run leaves behind: the exit status, the output file ([None] once
    [std::remove] has deleted it), the error message, and for a run that
    succeeds the console listing and the reported byte count. *)
Record Outcome := mkOutcome {
  exit_failure : bool;
  out_file : option (list Z);
  stderr : option Diag;
  stdout : list (Z * Z);
  byte_count : option Z
}.

Definition main (im : gmap Z Z) (mpc1 mpc2 : Z) (lines : list string)
  : Outcome :=
  match parse im false mpc1 start lines with
  | Err d => mkOutcome true None (Some d) [] None
  | Ok st1 =>
      match parse im true mpc2 st1 lines with
      | Err d => mkOutcome true None (Some d) [] None
      | Ok st2 =>
          mkOutcome false (Some (out st2)) None (listing st2)
                    (Some (reported_bytes st2))
      end
  end.

(** ** Vocabulary for statements about one source line

    These are projections of what [parse_line] computes on its way: the
    trimmed line, whether it reaches the instruction case, the mnemonic
    read, the text after the mnemonic and the label candidate of the
    jump/branch case. *)

Definition is_instruction_line (raw : string) : bool :=
  let line := trim raw in
  negb (String.eqb line "") && negb (starts_with "#" line)
  && negb (starts_with "@" line)
  && (match regex_upto ":" line with Some _ => false | None => true end).

Definition is_directive_line (raw : string) : bool :=
  let line := trim raw in
  negb (String.eqb line "") && negb (starts_with "#" line)
  && starts_with "@" line.

(* the label name of a label line *)
Definition label_of (raw : string) : option string :=
  let line := trim raw in
  if String.eqb line "" then None
  else if starts_with "#" line then None
  else if starts_with "@" line then None
  else match regex_upto ":" line with
       | Some m => Some (substr m 0 (strlen m - 1))
       | None => None
       end.

Definition mnemonic_of (raw : string) : string :=
  fst (read_mnemonic (trim raw)).

Definition operand_text (raw : string) : string :=
  snd (read_mnemonic (trim raw)).

(* the part of a text before its first '#' *)
Fixpoint before_hash (s : string) : string :=
  match s with
  | EmptyString => EmptyString
  | String c s' => if Ascii.eqb c "#" then EmptyString else String c (before_hash s')
  end.

Definition jump_label (raw : string) : string :=
  trim (before_hash (operand_text raw)).

Fixpoint count_char (d : ascii) (s : string) : nat :=
  match s with
  | EmptyString => O
  | String c s' => ((if Ascii.eqb c d then 1 else 0) + count_char d s')%nat
  end.

Fixpoint all_chars (p : ascii -> bool) (s : string) : bool :=
  match s with
  | EmptyString => true
  | String c s' => p c && all_chars p s'
  end.

(** The usual reading of a hexadecimal numeral, most significant digit
    first, as the spec words it ("the literal hex value"); it is compared
    below with what the scanners of the source accumulate. *)
Definition hex_digit_value (c : ascii) : Z :=
  let n := uchar_of c in
  if (48 <=? n) && (n <=? 57) then n - 48          (* 0-9 *)
  else if (65 <=? n) && (n <=? 70) then n - 55     (* A-F *)
  else if (97 <=? n) && (n <=? 102) then n - 87    (* a-f *)
  else 0.

Fixpoint hex_value_from (s : string) (acc : Z) : Z :=
  match s with
  | EmptyString => acc
  | String c s' => hex_value_from s' (16 * acc + hex_digit_value c)
  end.

Definition hex_value (s : string) : Z := hex_value_from s 0.

Definition is_hex_char (c : ascii) : bool := is_hex (toupper c).

(** ** Further vocabulary of the statements *)

(* ops[0] as the jump case accumulates it from the text *)
Definition jump_literal (s : string) : Z := (scan_jump s 0).1.1.2.

(* the state after an opcode byte [t] and one operand byte [b] *)
Definition emitted2 (st : State) (t b : Z) : State :=
  mkState (caddr st + 2) (linenum st + 1) t (lblmap st) (directives st)
          (adjustBase st) (out st ++ [t; b])
          (listing st ++ [(caddr st, t); (caddr st + 1, b)]).

Definition is_ascii (c : ascii) : bool := uchar_of c <? 128.

(* byte [i] of a 32-bit key, byte 0 the least significant *)
Definition key_byte (k : Z) (i : Z) : Z := Z.land (Z.shiftr k (8 * i)) 255.

(* the code of character [i] of the mnemonic, 0 when it is absent *)
Definition mnemonic_byte (m : string) (i : nat) : Z :=
  match String.get i m with
  | Some c => uchar_of c
  | None => 0
  end.

(* a character the operand loop passes over without any effect *)
Definition is_inert_char (c : ascii) : bool :=
  negb (is_hex (toupper c)) && negb (Ascii.eqb c "$") && negb (Ascii.eqb c ",").

(* im[key of the mnemonic with the given operand types], if any *)
Definition key_target (im : gmap Z Z) (m : string) (t0 t1 : Z) : option Z :=
  match make_icode m t0 t1 with
  | Some k => im !! k
  | None => None
  end.

(* the value text of a directive line, which "Invalid hex value" quotes *)
Definition directive_value (raw : string) : string :=
  let line := trim raw in
  match regex_upto "=" line with
  | Some m =>
      let lbl := substr m 1 (strlen m - 2) in
      trim (substr line (strlen lbl + 2) (strlen line - strlen lbl))
  | None => EmptyString
  end.

(* the number of directive lines among [ls] *)
Fixpoint directive_lines (ls : list string) : nat :=
  match ls with
  | [] => O
  | l :: ls' => ((if is_directive_line l then 1 else 0) + directive_lines ls')%nat
  end.

(* what each message quotes *)
Definition quotes (d : Diag) (raw : string) : Prop :=
  match dkind d with
  | InvalidMnemonic => dtext d = mnemonic_of raw
  | InvalidHexValue => dtext d = directive_value raw
  | _ => dtext d = trim raw
  end.

(** Two states of the first pass that differ by an offset [k]: the program
    address is [k] further and every label address is [k] larger. *)
Definition shifted (k : Z) (s s' : State) : Prop :=
  caddr s' = caddr s + k /\ linenum s' = linenum s
  /\ lblmap s' = (fun a => (a + k) mod 256) <$> lblmap s.

(** Two results of the first pass on the same lines, from states that
    differ by [k]: the same error, or states that again differ by [k], the
    second with the directive store and flag of [s']. *)
Definition simulates (k : Z) (s' : State) (r r' : result) : Prop :=
  match r, r' with
  | Ok t, Ok t' =>
      shifted k t t' /\ directives t' = directives s'
      /\ adjustBase t' = adjustBase s'
  | Err d, Err d' => d = d'
  | _, _ => False
  end.

(** In the second pass the console listing gives, for each byte of the
    output, its program address: the [i]-th byte stands at [b + i], where
    [b] is the program address at which the pass started. *)
Definition addressed (b : Z) (s : State) : Prop :=
  caddr s = b + Z.of_nat (length (out s))
  /\ forall i : nat,
       listing s !! i = (fun x => (b + Z.of_nat i, x)) <$> (out s !! i).

(** ** States of the examples *)

(* second pass, in front of a branch at 0x17, label [la] at 0x02 *)
Definition st_0x17 : State :=
  mkState 0x17 11 0x04 {[ "la" := 0x02 ]} directives_init false
          [3; 3; 4; 4; 3; 4; 4; 3; 4; 4; 3; 4; 4; 3; 4; 4; 3; 4; 4; 3; 4; 4; 3]
          [(0, 3); (1, 3); (2, 4); (3, 4); (4, 3); (5, 4);
           (6, 4); (7, 3); (8, 4); (9, 4); (10, 3); (11, 4);
           (12, 4); (13, 3); (14, 4); (15, 4); (16, 3); (17, 4);
           (18, 4); (19, 3); (20, 4); (21, 4); (22, 3)].

(* second pass after [@base_addr=10] *)
Definition st_base_10 : State :=
  mkState 0x10 1 0x10 ∅ {[ "base_addr" := 0x10 ]} false [] [].

(* first pass after [a1:] and one byte of code *)
Definition st_label_seen : State :=
  mkState 1 3 0x03 {[ "a1" := 0 ]} directives_init false [] [].

(* first pass after [@base_addr=1F] as first line *)
Definition after_1F : State :=
  mkState (0 + 0x1F) 1 0x1F ∅ (<["base_addr" := 0x1F]> directives_init) true [] [].

(** Two results of the second pass on the same lines, from the states [s]
    and [s']: the same error, or states with the same line counter that
    have advanced by the same number of bytes. *)
Definition same_course (s s' : State) (r r' : result) : Prop :=
  match r, r' with
  | Ok t, Ok t' =>
      linenum t' = linenum t /\ caddr t' - caddr s' = caddr t - caddr s
  | Err d, Err d' => d = d'
  | _, _ => False
  end.

(* a program with a [base_addr] directive of its own *)
Definition second_base : list string :=
  ["@base_addr=30"; "la:"; "HLT"; "JMP la"].

(* a program without directive, with a label before and behind its code *)
Definition two_labels : list string :=
  ["la:"; "HLT"; "lb:"; "JMP la"; "BR lb"].

(* a program whose label [a1] stands at address 257: the branch takes the
   bytes 240 and 241, the five [MOV] lines the bytes 242 to 256 *)
Definition label_at_257 : list string :=
  ["@base_addr=F0"; "BR a1"; "MOV $04, 3"; "MOV $04, 3"; "MOV $04, 3";
   "MOV $04, 3"; "MOV $04, 3"; "a1:"; "HLT"].

(** ** [load]: the mapping configuration

    One iteration of the loop of [load] reads a line [instr : map], where
    [instr] is a mnemonic followed by an operand pattern ([A] or [B] for a
    direct address, [X] for an immediate) and [map] is the MPC address in
    hex. The dead store to [numops] after the operand loop is left out. *)

Inductive LoadErr :=
  | LoadLeadingComma      (* "Leading comma in instruction" *)
  | LoadInvalidMnemonic   (* "Invalid Mnemonic" *)
  | LoadInvalidMPC        (* "Invalid MPC address" *)
  | LoadInvalidFormat.    (* "Invalid format" *)

(* the "read operands" loop of [load] on numops and optype[2]; the third
   component collects the characters reported as "Invalid operand type",
   after each of which the code closes [conf] and goes on; [None] is the
   exit on a second comma *)
Fixpoint load_operands (s : string) (n : nat) (ty : list Z) (bad : list ascii)
  : option (nat * list Z * list ascii) :=
  match s with
  | EmptyString => Some (n, ty, bad)
  | String c0 s' =>
      let c := toupper c0 in
      if Ascii.eqb c " " then load_operands s' n ty bad
      else if Ascii.eqb c "," then
        (if Nat.eqb n 0 then load_operands s' (S n) ty bad else None)
      else if Ascii.eqb c "A" || Ascii.eqb c "B" then
        load_operands s' n (<[n := 2]> ty) bad
      else if Ascii.eqb c "X" then
        load_operands s' n (<[n := 1]> ty) bad
      else load_operands s' n ty (bad ++ [c])
  end.

(* the "read MPC address" loop; [None] is the exit on a character that is
   not a hex digit *)
Fixpoint load_mpc (s : string) (v : Z) : option Z :=
  match s with
  | EmptyString => Some v
  | String c0 s' =>
      let c := toupper c0 in
      if is_hex c then load_mpc s' (shift_in v c) else None
  end.

Inductive LineOfConf :=
  | ConfSkip                                        (* blank or comment *)
  | ConfEntry (icode mpc : Z) (bad : list ascii)    (* imap[icode] = mpc *)
  | ConfExit (e : LoadErr).                         (* exit(EXIT_FAILURE) *)

Definition load_line (raw : string) : LineOfConf :=
  let line := trim raw in
  if String.eqb line "" then ConfSkip
  else if starts_with "#" line then ConfSkip
  else
    match regex_upto ":" line with
    | Some m =>
        let instr := substr m 0 (strlen m - 1) in
        let map := substr line (strlen instr + 1) (strlen line - strlen instr) in
        let instr := trim instr in
        let map := trim map in
        let '(mnemonic, rest) := read_mnemonic instr in
        match load_operands rest 0 [0; 0] [] with
        | None => ConfExit LoadLeadingComma
        | Some (_, ty, bad) =>
            match make_icode mnemonic (rd ty 0) (rd ty 1) with
            | None => ConfExit LoadInvalidMnemonic
            | Some icode =>
                match load_mpc map 0 with
                | None => ConfExit LoadInvalidMPC
                | Some mpc => ConfEntry icode mpc bad
                end
            end
        end
    | None => ConfExit LoadInvalidFormat
    end.

(** The map when [load] returns, with the "Invalid operand type" messages
    (character and line number), or the error and line number of its
    exit. *)
Inductive LoadResult :=
  | Loaded (im : gmap Z Z) (msgs : list (ascii * Z))
  | LoadExit (e : LoadErr) (line : Z).

(* the loop of [load]; once [conf] has been closed the next getline fails
   and the loop ends *)
Fixpoint load_lines (im : gmap Z Z) (linenum : Z) (msgs : list (ascii * Z))
    (lines : list string) : LoadResult :=
  match lines with
  | [] => Loaded im msgs
  | raw :: ls =>
      let linenum := linenum + 1 in
      match load_line raw with
      | ConfSkip => load_lines im linenum msgs ls
      | ConfExit e => LoadExit e linenum
      | ConfEntry icode mpc bad =>
          let im' := <[icode := mpc]> im in
          let msgs' := msgs ++ ((fun c => (c, linenum)) <$> bad) in
          match bad with
          | [] => load_lines im' linenum msgs' ls
          | _ :: _ => Loaded im' msgs'
          end
      end
  end.

Definition load (im : gmap Z Z) (conf : list string) : LoadResult :=
  load_lines im 0 [] conf.

(** ** [main] with its arguments and files

    What the run finds outside: whether the input file opens and the lines
    [getline] then returns (the same in both passes), whether the output
    file can be created, and the lines of [mapping.conf] if it opens. *)
Record Env := mkEnv {
  open_in : string -> option (list string);
  create_out : string -> bool;
  open_conf : option (list string)
}.

(** What the process leaves: its status ([return -1], [return 0] or
    [exit(EXIT_FAILURE)], which is 1), whether the help text was printed,
    and the output file it has created and not removed, by name and
    content. *)
Record Exec := mkExec {
  status : Z;
  help_shown : bool;
  left_file : option (string * list Z)
}.

Definition EXIT_FAILURE : Z := 1.

(* from "fetch args" on: [infilename] and [outfilename] are known *)
Definition run_files (env : Env) (mpc1 mpc2 : Z) (infilename outfilename : string)
  : Exec :=
  match open_in env infilename with
  | None => mkExec (-1) false None
  | Some lines =>
      if create_out env outfilename then
        let assemble (im : gmap Z Z) :=
          let r := main im mpc1 mpc2 lines in
          mkExec (if exit_failure r then EXIT_FAILURE else 0) false
                 ((fun bytes => (outfilename, bytes)) <$> out_file r) in
        match open_conf env with
        | None => assemble imap
        | Some conf =>
            match load imap conf with
            | Loaded im _ => assemble im
            | LoadExit _ _ => mkExec EXIT_FAILURE false (Some (outfilename, []))
            end
        end
      else mkExec (-1) false None
  end.

(* [argv] with the program name first; argc is its length *)
Definition main_argv (env : Env) (mpc1 mpc2 : Z) (argv : list string) : Exec :=
  match argv with
  | [] | [_] => mkExec (-1) false None
  | [_; a1] =>
      if String.eqb a1 "help" then mkExec 0 true None
      else run_files env mpc1 mpc2 a1 "ram.b"
  | [_; a1; a2] => run_files env mpc1 mpc2 a1 a2
  | _ => mkExec (-1) false None
  end.

(** ** Vocabulary for the further properties *)

(* the two parts of a line of [mapping.conf] *)
Definition conf_instr (raw : string) : string :=
  match regex_upto ":" (trim raw) with
  | Some m => trim (substr m 0 (strlen m - 1))
  | None => EmptyString
  end.

Definition conf_value (raw : string) : string :=
  let line := trim raw in
  match regex_upto ":" line with
  | Some m =>
      let instr := substr m 0 (strlen m - 1) in
      trim (substr line (strlen instr + 1) (strlen line - strlen instr))
  | None => EmptyString
  end.

(* the name of a directive line *)
Definition directive_name (raw : string) : string :=
  match regex_upto "=" (trim raw) with
  | Some m => trim (substr m 1 (strlen m - 2))
  | None => EmptyString
  end.

Fixpoint upper (s : string) : string :=
  match s with
  | EmptyString => EmptyString
  | String c s' => String (toupper c) (upper s')
  end.

(* what an accumulation over the hex digits [s] leaves in an unsigned char
   that held [v] *)
Definition accumulated (s : string) (v : Z) : Z :=
  match s with
  | EmptyString => v
  | _ => hex_value_from s v mod 256
  end.

(* whether the pattern [^.*=] matches the trimmed line *)
Definition has_assignment (raw : string) : bool :=
  match regex_upto "=" (trim raw) with
  | Some _ => true
  | None => false
  end.

(** An operand as it is written: an immediate value [h], or a direct
    address [$h], with [h] a hex numeral. *)
Inductive Operand :=
  | Imm (h : string)
  | Dir (h : string).

Definition operand_hex (o : Operand) : string :=
  match o with Imm h | Dir h => h end.

Definition operand_ok (o : Operand) : bool :=
  all_chars is_hex_char (operand_hex o) && negb (String.eqb (operand_hex o) "").

(* the tag of the operand in the instruction code *)
Definition operand_type (o : Operand) : Z :=
  match o with Imm _ => 1 | Dir _ => 2 end.

Definition type_at (os : list Operand) (i : nat) : Z :=
  match os !! i with
  | Some o => operand_type o
  | None => 0
  end.

(* the byte an operand stands for: the last two hex digits *)
Definition operand_byte (o : Operand) : Z := hex_value (operand_hex o) mod 256.

(* operands in a source line, and in a line of mapping.conf *)
Definition operand_src (o : Operand) : string :=
  match o with
  | Imm h => h
  | Dir h => String "$" h
  end.

Definition operands_src (os : list Operand) : string :=
  match os with
  | [] => EmptyString
  | [a] => operand_src a
  | a :: b :: _ => operand_src a +:+ ", " +:+ operand_src b
  end.

Definition operand_pattern (o : Operand) : string :=
  match o with Imm _ => "X" | Dir _ => "A" end.

Definition operands_pattern (os : list Operand) : string :=
  match os with
  | [] => EmptyString
  | [a] => operand_pattern a
  | a :: b :: _ => operand_pattern a +:+ ", " +:+ operand_pattern b
  end.

Definition set_type (t : Z) : Z := if t =? 0 then 1 else t.

(* whether a line of mapping.conf reaches the part that adds an entry *)
Definition is_conf_entry_line (raw : string) : bool :=
  let line := trim raw in
  negb (String.eqb line "") && negb (starts_with "#" line)
  && (match regex_upto ":" line with Some _ => true | None => false end).

Definition conf_mnemonic (raw : string) : string :=
  fst (read_mnemonic (conf_instr raw)).

Definition conf_pattern (raw : string) : string :=
  snd (read_mnemonic (conf_instr raw)).

(* the characters of a pattern, upper-cased, that are reported as
   "Invalid operand type" *)
Fixpoint pattern_rejects (s : string) : list ascii :=
  match s with
  | EmptyString => []
  | String c0 s' =>
      let c := toupper c0 in
      if Ascii.eqb c " " || Ascii.eqb c "," || Ascii.eqb c "A"
         || Ascii.eqb c "B" || Ascii.eqb c "X"
      then pattern_rejects s' else c :: pattern_rejects s'
  end.

Definition env_example : Env :=
  mkEnv (fun name => if String.eqb name "code.txt" then Some ["HLT"; "HLT"] else None)
        (fun _ => true)
        (Some ["HLT : 7"]).

Definition no_line_terminator (s : string) : bool :=
  all_chars (fun c => negb (is_line_terminator c)) s.

Definition two_bases : list string :=
  ["HLT"; "@base_addr=10"; "la:"; "JMP la"; "@base_addr=20"; "HLT"].

Definition state_of (r : result) : State :=
  match r with Ok s => s | Err _ => start end.

(* no entry of the map gives a jump/branch mnemonic anything but exactly
   one operand *)
Definition jump_keys_ok (im : gmap Z Z) : bool :=
  forallb
    (fun m =>
       forallb
         (fun t : Z * Z =>
            match key_target im m t.1 t.2 with
            | Some _ => negb (t.1 =? 0) && (t.2 =? 0)
            | None => true
            end)
         [(0, 0); (0, 1); (0, 2); (1, 0); (1, 1); (1, 2); (2, 0); (2, 1); (2, 2)])
    ["JMP"; "JSR"; "BR"; "BRZ"; "BRN"].

Definition is_type (t : Z) : Prop := t = 0 \/ t = 1 \/ t = 2.

(* the operand loop keeps two-element arrays and tags among 0, 1, 2 *)
Definition operands_shape (o : Operands) : Prop :=
  (numops o <= 1)%nat
  /\ exists a b t0 t1,
       ops o = [a; b] /\ optype o = [t0; t1] /\ is_type t0 /\ is_type t1.

Definition loop_program_head : list string :=
  ["HLT"; "MOV $04, 3"; "BR 02"; "JMP 00"].

(* why a line can fail in the second pass *)
Definition jump_fault (im : gmap Z Z) (labels : gmap string Z) (raw : string)
    (d : Diag) : Prop :=
  is_instruction_line raw = true
  /\ is_jmp (mnemonic_of raw) = true
  /\ dtext d = trim raw
  /\ ((dkind d = InvalidJumpOperand
       /\ labels !! jump_label raw = None
       /\ (2 < strlen (jump_label raw))%nat)
      \/ (dkind d = UnmappedInstruction
          /\ key_target im (mnemonic_of raw) 1 0 = None)).

Definition far_program : list string := ["lab1:"; "HLT"; "JMP lab1"; "BR lab2"].

(** * Properties *)

(** ** Characters *)

Ltac ascii_cases c :=
  destruct c as [[] [] [] [] [] [] [] []]; vm_compute; try reflexivity;
  try discriminate; try tauto.

Lemma toupper_eqb_space c : Ascii.eqb (toupper c) " " = Ascii.eqb c " ".
Proof. ascii_cases c. Qed.

Lemma toupper_eqb_hash c : Ascii.eqb (toupper c) "#" = Ascii.eqb c "#".
Proof. ascii_cases c. Qed.

Lemma toupper_eqb_dollar c : Ascii.eqb (toupper c) "$" = Ascii.eqb c "$".
Proof. ascii_cases c. Qed.

Lemma toupper_eqb_comma c : Ascii.eqb (toupper c) "," = Ascii.eqb c ",".
Proof. ascii_cases c. Qed.

Lemma hex_char_nibble c :
  is_hex_char c = true -> nibble (toupper c) = hex_digit_value c.
Proof. ascii_cases c. Qed.

Lemma hex_char_plain c :
  is_hex_char c = true ->
  is_space c = false /\ Ascii.eqb c "#" = false /\ Ascii.eqb c ":" = false.
Proof. ascii_cases c; intros; repeat split; discriminate. Qed.

Lemma hex_digit_value_range c : 0 <= hex_digit_value c < 16.
Proof.
  destruct c as [[] [] [] [] [] [] [] []]; vm_compute;
    (split; [intro; discriminate | reflexivity]).
Qed.

Lemma nibble_range c : 0 <= nibble c < 16.
Proof.
  unfold nibble. change 15 with (Z.ones 4).
  rewrite Z.land_ones by lia. apply Z.mod_pos_bound. lia.
Qed.

(** ** Bit operations as arithmetic *)

Lemma land_high_low a b n :
  0 <= n -> 0 <= b < 2 ^ n -> Z.land (a * 2 ^ n) b = 0.
Proof.
  intros Hn Hb. apply Z.bits_inj'. intros i Hi.
  rewrite Z.land_spec, Z.bits_0.
  destruct (Z.lt_ge_cases i n) as [Hlt | Hge].
  - rewrite Z.mul_pow2_bits_low by lia. reflexivity.
  - rewrite <- (Z.mod_small b (2 ^ n)) by lia.
    rewrite Z.mod_pow2_bits_high by lia. apply andb_false_r.
Qed.

Lemma lor_high_low a b n :
  0 <= n -> 0 <= b < 2 ^ n -> Z.lor (a * 2 ^ n) b = a * 2 ^ n + b.
Proof.
  intros Hn Hb. pose proof (Z.add_lor_land (a * 2 ^ n) b) as H.
  rewrite land_high_low in H by assumption. lia.
Qed.

Lemma shift_in_eq x c : shift_in x c = 16 * (x mod 16) + nibble c.
Proof.
  unfold shift_in, to_uchar. rewrite Z.shiftl_mul_pow2 by lia.
  assert (x * 2 ^ 4 mod 256 = (x mod 16) * 2 ^ 4) as ->.
  { change 256 with (16 * 2 ^ 4). rewrite Z.mul_mod_distr_r by lia. reflexivity. }
  rewrite lor_high_low; [lia | lia |]. apply nibble_range.
Qed.

Lemma shift_in_range x c : 0 <= shift_in x c < 256.
Proof.
  rewrite shift_in_eq. pose proof (nibble_range c).
  pose proof (Z.mod_pos_bound x 16). lia.
Qed.

(** ** Strings *)

(* a text without whitespace is left alone by [trim] *)
Lemma trim_no_space s :
  all_chars (fun c => negb (is_space c)) s = true -> trim s = s.
Proof.
  unfold trim. intros H.
  assert (rtrim s = s) as ->.
  { induction s as [| c s IH]; [reflexivity |]. simpl in H.
    apply andb_prop in H as [Hc Hs]. simpl. rewrite (IH Hs).
    destruct s; [| reflexivity].
    apply negb_true_iff in Hc. rewrite Hc. reflexivity. }
  destruct s as [| c s]; [reflexivity |]. simpl in *.
  apply andb_prop in H as [Hc _]. apply negb_true_iff in Hc.
  rewrite Hc. reflexivity.
Qed.

Lemma scan_jump_label s op : (scan_jump s op).1.1.1 = before_hash s.
Proof.
  revert op. induction s as [| c s IH]; intros op; [reflexivity |]. simpl.
  destruct (Ascii.eqb c "#"); [reflexivity |].
  specialize (IH (shift_in op (toupper c))).
  destruct (scan_jump s (shift_in op (toupper c))) as [[[l o] cm] r].
  simpl in *. congruence.
Qed.

(* when the loop of the jump case ends, either [comment] is set or the
   line is used up: the operand loop after it has nothing to read *)
Lemma scan_jump_done s op :
  (scan_jump s op).1.2 = true \/ (scan_jump s op).2 = EmptyString.
Proof.
  revert op. induction s as [| c s IH]; intros op; [right; reflexivity |].
  simpl. destruct (Ascii.eqb c "#"); [left; reflexivity |].
  specialize (IH (shift_in op (toupper c))).
  destruct (scan_jump s (shift_in op (toupper c))) as [[[l o] cm] r].
  exact IH.
Qed.

Lemma mnemonic_3_icode m t0 t1 :
  (3 < strlen m)%nat -> make_icode m t0 t1 = None.
Proof.
  unfold make_icode.
  destruct m as [| a [| b [| c [| d m]]]]; simpl; try lia. reflexivity.
Qed.

Lemma mnemonic_short_icode m t0 t1 :
  (strlen m <= 3)%nat -> is_Some (make_icode m t0 t1).
Proof.
  unfold make_icode.
  destruct m as [| a [| b [| c [| d m]]]]; simpl; try lia; eauto.
Qed.

(** ** One line *)

Lemma emit_two st t b :
  next_line (emit_byte true (emit_byte true (set_mpc st t) t) b)
  = emitted2 st t b.
Proof.
  unfold next_line, emit_byte, set_mpc, emitted2. simpl.
  rewrite <- !app_assoc. simpl.
  replace (caddr st + 1 + 1) with (caddr st + 2) by lia. reflexivity.
Qed.

Section OneLine.
Variable im : gmap Z Z.

Lemma parse_line_instruction write st raw :
  is_instruction_line raw = true ->
  parse_line im write st raw = parse_instruction im write st (trim raw).
Proof.
  unfold is_instruction_line, parse_line. cbv zeta.
  destruct (String.eqb (trim raw) ""); [discriminate |].
  destruct (starts_with "#" (trim raw)); [discriminate |].
  destruct (starts_with "@" (trim raw)); [discriminate |].
  destruct (regex_upto ":" (trim raw)); [discriminate | reflexivity].
Qed.

(* the jump/branch case of the second pass, in one equation *)
Lemma parse_instruction_jump st line m rest k t :
  read_mnemonic line = (m, rest) ->
  is_jmp m = true ->
  make_icode m 1 0 = Some k ->
  im !! k = Some t ->
  parse_instruction im true st line =
    match lblmap st !! trim (before_hash rest) with
    | Some a =>
        Ok (emitted2 st t
              (if starts_with "B" m then branch_offset a (caddr st) else a))
    | None =>
        if Nat.ltb 2 (strlen (trim (before_hash rest)))
        then Err (mkDiag InvalidJumpOperand line (linenum st))
        else Ok (emitted2 st t
                   (to_uchar (jump_literal rest + base_addr (directives st))))
    end.
Proof.
  intros Hm Hj Hk Ht. unfold parse_instruction. rewrite Hm, Hj.
  simpl andb. cbv iota.
  unfold resolve_jump, jump_literal.
  pose proof (scan_jump_label rest 0) as Hl.
  pose proof (scan_jump_done rest 0) as Hd.
  destruct (scan_jump rest 0) as [[[l op] cm] r]. simpl in Hl, Hd. subst l.
  assert (forall o, (if cm then Some o else scan_operands r o) = Some o) as Hs.
  { intros o. destruct Hd as [-> | ->]; [reflexivity |].
    destruct cm; reflexivity. }
  destruct (lblmap st !! trim (before_hash rest)) as [a |].
  - rewrite Hs. simpl. change (rd [1; 0] 0) with 1. change (rd [1; 0] 1) with 0.
    rewrite Hk, Ht. rewrite emit_two. reflexivity.
  - destruct (Nat.ltb 2 (strlen (trim (before_hash rest)))); [reflexivity |].
    rewrite Hs. simpl. change (rd [1; 0] 0) with 1. change (rd [1; 0] 1) with 0.
    rewrite Hk, Ht. rewrite emit_two. reflexivity.
Qed.

(* the error of the jump/branch case does not wait for the lookup *)
Lemma parse_instruction_jump_err st line m rest :
  read_mnemonic line = (m, rest) ->
  is_jmp m = true ->
  lblmap st !! trim (before_hash rest) = None ->
  (2 < strlen (trim (before_hash rest)))%nat ->
  parse_instruction im true st line =
    Err (mkDiag InvalidJumpOperand line (linenum st)).
Proof.
  intros Hm Hj Hl Hlen. unfold parse_instruction. rewrite Hm, Hj.
  simpl andb. cbv iota. unfold resolve_jump.
  pose proof (scan_jump_label rest 0) as Hb.
  destruct (scan_jump rest 0) as [[[l op] cm] r]. simpl in Hb. subst l.
  rewrite Hl. apply Nat.ltb_lt in Hlen. rewrite Hlen. reflexivity.
Qed.

(* every other instruction line, and every instruction line of the first
   pass, goes through the operand loop alone *)
Lemma parse_instruction_plain write st line m rest :
  read_mnemonic line = (m, rest) ->
  write && is_jmp m = false ->
  parse_instruction im write st line =
    match scan_operands rest (mkOps 0 [0; 0] [0; 0]) with
    | None => Err (mkDiag LeadingComma line (linenum st))
    | Some o =>
        let n :=
          if negb (rd (optype o) 1 =? 0) then 2%nat
          else if negb (rd (optype o) 0 =? 0) then 1%nat
          else numops o in
        match make_icode m (rd (optype o) 0) (rd (optype o) 1) with
        | None => Err (mkDiag InvalidMnemonic m (linenum st))
        | Some icode =>
            match im !! icode with
            | None => Err (mkDiag UnmappedInstruction line (linenum st))
            | Some t =>
                Ok (next_line
                      (foldl (emit_byte write)
                             (emit_byte write (set_mpc st t) t)
                             (take n (ops o))))
            end
        end
    end.
Proof.
  intros Hm Hw. unfold parse_instruction. rewrite Hm, Hw. reflexivity.
Qed.

End OneLine.

(** * The specification, statement by statement *)

(** ** Branch offsets *)

Lemma label_of_line raw name :
  label_of raw = Some name ->
  exists m,
    String.eqb (trim raw) "" = false /\ starts_with "#" (trim raw) = false
    /\ starts_with "@" (trim raw) = false
    /\ regex_upto ":" (trim raw) = Some m
    /\ name = substr m 0 (strlen m - 1).
Proof.
  unfold label_of. cbv zeta.
  destruct (String.eqb (trim raw) ""); [discriminate |].
  destruct (starts_with "#" (trim raw)); [discriminate |].
  destruct (starts_with "@" (trim raw)); [discriminate |].
  destruct (regex_upto ":" (trim raw)) as [m |]; [| discriminate].
  intros [= <-]. eauto 10.
Qed.

(* a label line of the first pass stores the current address, as an
   unsigned char, under its name *)
Lemma label_line_records im st raw name :
  label_of raw = Some name ->
  parse_line im false st raw =
    Ok (next_line
          (mkState (caddr st) (linenum st) (mpc st)
                   (<[name := caddr st mod 256]> (lblmap st))
                   (directives st) (adjustBase st) (out st) (listing st))).
Proof.
  intros H. destruct (label_of_line raw name H) as (m & H1 & H2 & H3 & H4 & ->).
  unfold parse_line. cbv zeta. rewrite H1, H2, H3, H4. reflexivity.
Qed.

Lemma parse_line_jump_label im st raw a k t :
  is_instruction_line raw = true ->
  is_jmp (mnemonic_of raw) = true ->
  lblmap st !! jump_label raw = Some a ->
  make_icode (mnemonic_of raw) 1 0 = Some k ->
  im !! k = Some t ->
  parse_line im true st raw =
    Ok (emitted2 st t
          (if starts_with "B" (mnemonic_of raw)
           then branch_offset a (caddr st) else a)).
Proof.
  intros Hi Hj Hl Hk Ht. rewrite parse_line_instruction by assumption.
  unfold mnemonic_of, jump_label, operand_text in *.
  destruct (read_mnemonic (trim raw)) as [m rest] eqn:Hm. simpl in *.
  rewrite (parse_instruction_jump im st _ m rest k t) by assumption.
  rewrite Hl. reflexivity.
Qed.

(** C1. With base address 0, a label recorded at address 0x02 and a
    [BR <label>] line whose opcode byte goes to address 0x17, so that its
    operand byte sits at address 0x18, the second pass writes the operand
    byte 0xE9, which is 0x02 - (0x18 + 1) in two's complement. *)
Theorem br_back_to_02_from_18 im st raw t :
  is_instruction_line raw = true ->
  mnemonic_of raw = "BR" ->
  lblmap st !! jump_label raw = Some 0x02 ->
  base_addr (directives st) = 0 ->
  caddr st = 0x17 ->
  im !! 0x42520010 = Some t ->
  exists st',
    parse_line im true st raw = Ok st'
    /\ out st' = out st ++ [t; 0xE9]
    /\ listing st' = listing st ++ [(0x17, t); (0x18, 0xE9)]
    /\ 0xE9 = (0x02 - (0x18 + 1)) mod 256.
Proof.
  intros Hi Hm Hl _ Hc Ht.
  rewrite (parse_line_jump_label im st raw 2 0x42520010 t); try assumption.
  - rewrite Hm, Hc. eexists. split; [reflexivity |].
    unfold emitted2. simpl. rewrite Hc. repeat split.
  - rewrite Hm. reflexivity.
  - rewrite Hm. reflexivity.
Qed.

Lemma br_back_to_02_from_18_witness :
  exists st',
    parse_line imap true st_0x17 "BR la" = Ok st'
    /\ out st' = out st_0x17 ++ [0x80; 0xE9]
    /\ listing st' = listing st_0x17 ++ [(0x17, 0x80); (0x18, 0xE9)]
    /\ 0xE9 = (0x02 - (0x18 + 1)) mod 256.
Proof.
  apply (br_back_to_02_from_18 imap st_0x17 "BR la" 0x80);
    vm_compute; reflexivity.
Defined.

(** C2, as the code has it. The address recorded for a label is the low
    byte of the program address at its label line, the label table holding
    unsigned chars. For a relative branch (a jump mnemonic that starts with
    [B]) whose operand is a known label with recorded address [a], the
    second pass writes, after the opcode byte, the byte
    [signed a - (caddr + 2)] when [a < caddr] and
    [signed a - (caddr + 1)] otherwise, reduced modulo 256, where [caddr]
    is the program address at which the line starts, not reduced, and
    [signed] is the reading of the low byte as a signed char. *)
Theorem relative_branch_offset im st raw a k t :
  is_instruction_line raw = true ->
  is_jmp (mnemonic_of raw) = true ->
  starts_with "B" (mnemonic_of raw) = true ->
  lblmap st !! jump_label raw = Some a ->
  make_icode (mnemonic_of raw) 1 0 = Some k ->
  im !! k = Some t ->
  parse_line im true st raw =
    Ok (emitted2 st t
          (if a <? caddr st
           then (to_schar a - (caddr st + 2)) mod 256
           else (to_schar a - (caddr st + 1)) mod 256))
  /\ forall s0 lraw name,
       label_of lraw = Some name ->
       exists s0',
         parse_line im false s0 lraw = Ok s0'
         /\ lblmap s0' !! name = Some (caddr s0 mod 256).
Proof.
  intros Hi Hj Hb Hl Hk Ht. split.
  - rewrite (parse_line_jump_label im st raw a k t) by assumption.
    rewrite Hb. reflexivity.
  - intros s0 lraw name Hn. rewrite (label_line_records im s0 lraw name Hn).
    eexists. split; [reflexivity |]. simpl. apply lookup_insert_eq.
Qed.

Lemma relative_branch_offset_witness :
  parse_line imap true (mkState 5 3 0 {[ "la" := 2 ]} directives_init false [] [])
             "br la # again" =
    Ok (emitted2 (mkState 5 3 0 {[ "la" := 2 ]} directives_init false [] [])
                 0x80 0xFB)
  /\ exists s0',
       parse_line imap false (mkState 258 4 0 ∅ directives_init false [] [])
                  "la:" = Ok s0'
       /\ lblmap s0' !! "la" = Some (258 mod 256).
Proof.
  destruct (relative_branch_offset imap
              (mkState 5 3 0 {[ "la" := 2 ]} directives_init false [] [])
              "br la # again" 2 0x42520010 0x80) as [Hb Hr];
    try (vm_compute; reflexivity).
  split; [exact Hb |].
  apply (Hr (mkState 258 4 0 ∅ directives_init false [] []) "la:" "la").
  reflexivity.
Defined.

(** C2 as stated fails when a label stands at an address beyond 255. In
    [label_at_257] the branch is assembled at address 240 and the label
    [a1] stands at address 257, where the [HLT] behind it is written. The
    label's address is not less than the current address, so the claim
    gives the operand byte [signed 1 - (240 + 1)], which is 0x10; the code
    compares the recorded byte 1 with 240 and writes
    [signed 1 - (240 + 2)], which is 0x0F. *)
Lemma branch_label_beyond_255_counterexample :
  let r := main imap 0 0 label_at_257 in
  exit_failure r = false
  /\ caddr (state_of (parse imap false 0 start (take 7 label_at_257))) = 257
  /\ lblmap (state_of (parse imap false 0 start label_at_257)) !! "a1" = Some 1
  /\ stdout r !! 17%nat = Some (257, 0x03)
  /\ stdout r !! 0%nat = Some (240, 0x80)
  /\ stdout r !! 1%nat = Some (241, 0x0F)
  /\ (257 <? 240) = false
  /\ (to_schar 257 - (240 + 1)) mod 256 = 0x10
  /\ stdout r !! 1%nat <> Some (241, (to_schar 257 - (240 + 1)) mod 256).
Proof. vm_compute. repeat split. intros H. discriminate H. Qed.

(** A program with the shape of C1: two one-byte instructions, the label,
    seven three-byte instructions, and the branch, whose opcode byte is
    written at 0x17 and whose operand byte, at 0x18, is 0xE9. *)
Example br_program :
  let r := main imap 0 0
             ["HLT"; "HLT"; "la:"; "MOV $04, 3"; "MOV $04, 3"; "MOV $04, 3";
              "MOV $04, 3"; "MOV $04, 3"; "MOV $04, 3"; "MOV $04, 3"; "BR la"] in
  exit_failure r = false
  /\ stdout r !! 23%nat = Some (0x17, 0x80)
  /\ stdout r !! 24%nat = Some (0x18, 0xE9)
  /\ byte_count r = Some 25.
Proof. vm_compute. repeat split. Qed.

(** [st_0x17] is the state in which the second pass of that program
    reaches the branch. *)
Example st_0x17_reached :
  exists s1,
    parse imap false 0 start
      ["HLT"; "HLT"; "la:"; "MOV $04, 3"; "MOV $04, 3"; "MOV $04, 3";
       "MOV $04, 3"; "MOV $04, 3"; "MOV $04, 3"; "MOV $04, 3"; "BR la"] = Ok s1
    /\ parse imap true 0 s1
         ["HLT"; "HLT"; "la:"; "MOV $04, 3"; "MOV $04, 3"; "MOV $04, 3";
          "MOV $04, 3"; "MOV $04, 3"; "MOV $04, 3"; "MOV $04, 3"] = Ok st_0x17.
Proof. eexists. split; reflexivity. Qed.

(** ** Jump operands that are not labels *)

Lemma all_chars_impl (p q : ascii -> bool) s :
  (forall c, p c = true -> q c = true) ->
  all_chars p s = true -> all_chars q s = true.
Proof.
  intros Hpq. induction s as [| c s IH]; [reflexivity |]. simpl.
  intros H. apply andb_prop in H as [Hc Hs].
  rewrite (Hpq c Hc), (IH Hs). reflexivity.
Qed.

Lemma before_hash_id s :
  all_chars (fun c => negb (Ascii.eqb c "#")) s = true -> before_hash s = s.
Proof.
  induction s as [| c s IH]; [reflexivity |]. simpl. intros H.
  apply andb_prop in H as [Hc Hs]. apply negb_true_iff in Hc.
  rewrite Hc, (IH Hs). reflexivity.
Qed.

Lemma hex_text_label s :
  all_chars is_hex_char s = true -> trim (before_hash s) = s.
Proof.
  intros H. rewrite before_hash_id.
  - apply trim_no_space. revert H. apply all_chars_impl. intros c Hc.
    destruct (hex_char_plain c Hc) as (-> & _). reflexivity.
  - revert H. apply all_chars_impl. intros c Hc.
    destruct (hex_char_plain c Hc) as (_ & -> & _). reflexivity.
Qed.

(* on at most two hex digits the accumulation of the jump case is the
   usual reading of the numeral *)
Lemma hex_text_literal s :
  all_chars is_hex_char s = true -> (strlen s <= 2)%nat ->
  jump_literal s = hex_value s.
Proof.
  unfold jump_literal, hex_value.
  destruct s as [| c1 [| c2 [| c3 s]]]; simpl; intros H Hlen; try lia.
  - apply andb_prop in H as [H1 _].
    destruct (hex_char_plain c1 H1) as (_ & -> & _). simpl.
    rewrite shift_in_eq, (hex_char_nibble c1 H1). reflexivity.
  - apply andb_prop in H as [H1 H]. apply andb_prop in H as [H2 _].
    destruct (hex_char_plain c1 H1) as (_ & -> & _).
    destruct (hex_char_plain c2 H2) as (_ & -> & _). simpl.
    rewrite !shift_in_eq, (hex_char_nibble c1 H1), (hex_char_nibble c2 H2).
    pose proof (hex_digit_value_range c1). pose proof (hex_digit_value_range c2).
    change (0 mod 16) with 0.
    replace ((16 * 0 + hex_digit_value c1) mod 16) with (hex_digit_value c1).
    + lia.
    + rewrite Z.mod_small; lia.
Qed.

(* at most two hex digits make a byte *)
Lemma hex_value_byte s :
  (strlen s <= 2)%nat -> 0 <= hex_value s < 256.
Proof.
  unfold hex_value.
  destruct s as [| c1 [| c2 [| c3 s]]]; simpl; intros Hlen; try lia.
  - pose proof (hex_digit_value_range c1). lia.
  - pose proof (hex_digit_value_range c1).
    pose proof (hex_digit_value_range c2). lia.
Qed.

(** C3, as the code has it. For a jump/branch line of the second pass whose
    trimmed operand text is not a known label: when that text is longer
    than two characters the line is a hard error; when the operand is at
    most two hex digits, the operand byte written for an absolute jump
    ([JMP], [JSR]) is the hex value of the text plus the value of the
    [base_addr] directive, modulo 256, and under base address 0 the
    operand byte written for any jump or branch is the hex value of the
    text itself. *)
Theorem jump_literal_operand im st raw :
  is_instruction_line raw = true ->
  is_jmp (mnemonic_of raw) = true ->
  lblmap st !! jump_label raw = None ->
  ((2 < strlen (jump_label raw))%nat ->
     parse_line im true st raw
     = Err (mkDiag InvalidJumpOperand (trim raw) (linenum st)))
  /\ (forall k t,
        all_chars is_hex_char (operand_text raw) = true ->
        (strlen (operand_text raw) <= 2)%nat ->
        make_icode (mnemonic_of raw) 1 0 = Some k ->
        im !! k = Some t ->
        (starts_with "B" (mnemonic_of raw) = false ->
           parse_line im true st raw
           = Ok (emitted2 st t
                   ((hex_value (operand_text raw) + base_addr (directives st))
                    mod 256)))
        /\ (base_addr (directives st) = 0 ->
              parse_line im true st raw
              = Ok (emitted2 st t (hex_value (operand_text raw))))).
Proof.
  intros Hi Hj Hl. rewrite parse_line_instruction by assumption.
  unfold mnemonic_of, jump_label, operand_text in *.
  destruct (read_mnemonic (trim raw)) as [m rest] eqn:Hm. simpl in *.
  split.
  - intros Hlen. apply (parse_instruction_jump_err im st _ m rest); assumption.
  - intros k t Hhex Hlen Hk Ht.
    rewrite (parse_instruction_jump im st _ m rest k t) by assumption.
    rewrite Hl. rewrite (hex_text_label rest Hhex).
    assert (Nat.ltb 2 (strlen rest) = false) as -> by (apply Nat.ltb_ge; lia).
    rewrite (hex_text_literal rest Hhex Hlen). split.
    + intros _. reflexivity.
    + intros ->. unfold to_uchar. rewrite Z.add_0_r.
      rewrite Z.mod_small by (apply hex_value_byte; exact Hlen). reflexivity.
Qed.

Lemma jump_literal_operand_witness :
  parse_line imap true st_base_10 "JMP loop1"
  = Err (mkDiag InvalidJumpOperand "JMP loop1" 1)
  /\ parse_line imap true st_base_10 "JMP 05"
     = Ok (emitted2 st_base_10 0x50 0x15)
  /\ parse_line imap true st_label_seen "BR FC"
     = Ok (emitted2 st_label_seen 0x80 0xFC).
Proof.
  split; [| split].
  - refine (proj1 (jump_literal_operand imap st_base_10 "JMP loop1" _ _ _) _);
      vm_compute; first [reflexivity | lia].
  - refine (proj1 (proj2 (jump_literal_operand imap st_base_10 "JMP 05" _ _ _)
                         0x4A4D5010 0x50 _ _ _ _) _);
      vm_compute; first [reflexivity | lia].
  - refine (proj2 (proj2 (jump_literal_operand imap st_label_seen "BR FC" _ _ _)
                         0x42520010 0x80 _ _ _ _) _);
      vm_compute; first [reflexivity | lia].
Defined.

(** C3 as stated fails: after [@base_addr=10] the line [JMP 05], whose
    operand is no label and is two hex digits long, is assembled to the
    operand byte 0x15, not to the literal 0x05. *)
Lemma jump_literal_unchanged_counterexample :
  let lines := ["@base_addr=10"; "JMP 05"] in
  let r := main imap 0 0 lines in
  exit_failure r = false
  /\ out_file r = Some [0x50; 0x15]
  /\ hex_value "05" = 0x05
  /\ out_file r <> Some [0x50; hex_value "05"].
Proof. vm_compute. repeat split. intros H. discriminate H. Qed.

(** The same addition is made to the literal operand of a relative branch,
    which the header of the source describes as an offset from PC
    (['BR FC' will branch to an address equal to PC - 4]): after
    [@base_addr=10] the line [BR FC] is assembled to the operand byte
    0x0C. *)
Example branch_literal_with_base :
  main imap 0 0 ["@base_addr=10"; "BR FC"]
  = mkOutcome false (Some [0x80; 0x0C]) None [(0x10, 0x80); (0x11, 0x0C)]
              (Some 2).
Proof. vm_compute. reflexivity. Qed.

(** ** An instruction with two operands *)

(** C9. With a map entry [t] for the key of [ADD] with a direct-address
    first operand and an immediate second operand, the second pass turns
    the line [ADD $04, 5] into exactly three bytes: [t], 0x04, 0x05. *)
Theorem add_direct_immediate im st t :
  im !! 0x41444421 = Some t ->
  parse_line im true st "ADD $04, 5" =
    Ok (mkState (caddr st + 3) (linenum st + 1) t (lblmap st)
                (directives st) (adjustBase st)
                (out st ++ [t; 0x04; 0x05])
                (listing st ++
                   [(caddr st, t); (caddr st + 1, 0x04); (caddr st + 2, 0x05)])).
Proof.
  intros Ht. rewrite parse_line_instruction by reflexivity.
  change (trim "ADD $04, 5") with "ADD $04, 5".
  rewrite (parse_instruction_plain im true st _ "ADD" "$04, 5")
    by reflexivity.
  change (scan_operands "$04, 5" (mkOps 0 [0; 0] [0; 0]))
    with (Some (mkOps 1 [0x04; 0x05] [2; 1])).
  cbv beta iota zeta.
  change (make_icode "ADD" (rd (optype (mkOps 1 [4; 5] [2; 1])) 0)
            (rd (optype (mkOps 1 [4; 5] [2; 1])) 1))
    with (Some 0x41444421).
  cbv beta iota. rewrite Ht.
  unfold next_line, emit_byte, set_mpc. simpl.
  rewrite <- !app_assoc. simpl.
  replace (caddr st + 1 + 1) with (caddr st + 2) by lia.
  replace (caddr st + 2 + 1) with (caddr st + 3) by lia.
  reflexivity.
Qed.

Lemma add_direct_immediate_witness :
  parse_line imap true start "ADD $04, 5" =
    Ok (mkState 3 2 0x0B ∅ directives_init false [0x0B; 0x04; 0x05]
                [(0, 0x0B); (1, 0x04); (2, 0x05)]).
Proof. apply (add_direct_immediate imap start 0x0B). reflexivity. Defined.

(** ** The lookup key *)

Lemma ascii_char_val c : is_ascii c = true -> char_val c = uchar_of c.
Proof. unfold is_ascii, char_val. cbv zeta. intros ->. reflexivity. Qed.

Lemma uchar_of_range c : 0 <= uchar_of c < 256.
Proof.
  destruct c as [[] [] [] [] [] [] [] []]; vm_compute;
    (split; [intro; discriminate | reflexivity]).
Qed.

Lemma is_jmp_length m : is_jmp m = true -> (strlen m <= 3)%nat.
Proof.
  unfold is_jmp, jmpcodes. intros H. apply bool_decide_eq_true_1 in H.
  set_unfold in H.
  destruct H as [[[[-> | ->] | ->] | ->] | ->]; simpl; lia.
Qed.

Lemma type_byte t1 t2 :
  0 <= t1 <= 2 -> 0 <= t2 <= 2 ->
  Z.lor (to_u32 (Z.shiftl (to_u32 t1) 4)) (Z.land t2 15) = t1 * 16 + t2
  /\ Z.lor (Z.shiftl t1 4) t2 = t1 * 16 + t2.
Proof.
  intros H1 H2.
  assert (t1 = 0 \/ t1 = 1 \/ t1 = 2) as [-> | [-> | ->]] by lia;
    assert (t2 = 0 \/ t2 = 1 \/ t2 = 2) as [-> | [-> | ->]] by lia;
    split; reflexivity.
Qed.

Lemma shifted_char v i :
  0 <= v < 128 -> 0 <= i <= 24 ->
  to_u32 (Z.shiftl (to_u32 v) i) = v * 2 ^ i.
Proof.
  intros Hv Hi. unfold to_u32. rewrite (Z.mod_small v) by lia.
  rewrite Z.shiftl_mul_pow2 by lia. apply Z.mod_small.
  assert (2 ^ i <= 2 ^ 24) by (apply Z.pow_le_mono_r; lia).
  assert (0 < 2 ^ i) by (apply Z.pow_pos_nonneg; lia).
  change (2 ^ 32) with (256 * 2 ^ 24). nia.
Qed.

Lemma key_sum_bytes a b c t :
  0 <= a < 128 -> 0 <= b < 128 -> 0 <= c < 128 -> 0 <= t < 256 ->
  let k := a * 2 ^ 24 + b * 2 ^ 16 + c * 2 ^ 8 + t in
  0 <= k < 2 ^ 32
  /\ key_byte k 3 = a /\ key_byte k 2 = b /\ key_byte k 1 = c /\ key_byte k 0 = t.
Proof.
  intros Ha Hb Hc Ht k. unfold k, key_byte. change 255 with (Z.ones 8).
  rewrite !Z.land_ones, !Z.shiftr_div_pow2 by lia.
  change (2 ^ 32) with 4294967296. change (2 ^ 24) with 16777216.
  change (2 ^ 16) with 65536. change (2 ^ 8) with 256.
  change (2 ^ (8 * 3)) with 16777216. change (2 ^ (8 * 2)) with 65536.
  change (2 ^ (8 * 1)) with 256. change (2 ^ (8 * 0)) with 1.
  repeat split; try lia; Z.div_mod_to_equations; lia.
Qed.

(* the key of a mnemonic of one to three ASCII characters, as a sum *)
Lemma make_icode_sum m t1 t2 :
  (1 <= strlen m <= 3)%nat -> all_chars is_ascii m = true ->
  0 <= t1 <= 2 -> 0 <= t2 <= 2 ->
  make_icode m t1 t2 =
    Some (mnemonic_byte m 0 * 2 ^ 24 + mnemonic_byte m 1 * 2 ^ 16
          + mnemonic_byte m 2 * 2 ^ 8 + (t1 * 16 + t2)).
Proof.
  intros Hlen Hasc H1 H2. unfold make_icode.
  destruct (type_byte t1 t2 H1 H2) as [-> _].
  assert (0 <= t1 * 16 + t2 < 256) as Ht by lia.
  destruct m as [| a [| b [| c [| d m]]]]; simpl in Hlen; try lia;
    simpl in Hasc; unfold mnemonic_byte; simpl String.get; simpl icode_mnemonic.
  - apply andb_prop in Hasc as [Ha _].
    assert (0 <= uchar_of a < 128) by (unfold is_ascii in Ha; pose proof (uchar_of_range a); lia).
    rewrite (ascii_char_val a Ha). rewrite shifted_char by lia.
    rewrite Z.lor_0_l. change (8 * (3 - 0)) with 24.
    rewrite (lor_high_low _ _ 24) by lia. f_equal; lia.
  - apply andb_prop in Hasc as [Ha Hasc]. apply andb_prop in Hasc as [Hb _].
    assert (0 <= uchar_of a < 128) by (unfold is_ascii in Ha; pose proof (uchar_of_range a); lia).
    assert (0 <= uchar_of b < 128) by (unfold is_ascii in Hb; pose proof (uchar_of_range b); lia).
    rewrite (ascii_char_val a Ha), (ascii_char_val b Hb).
    rewrite !shifted_char by lia.
    rewrite Z.lor_0_l. change (8 * (3 - 0)) with 24. change (8 * (3 - 1)) with 16.
    rewrite <- !Z.lor_assoc.
    rewrite (lor_high_low _ _ 16) by lia. rewrite (lor_high_low _ _ 24) by lia.
    f_equal; lia.
  - apply andb_prop in Hasc as [Ha Hasc]. apply andb_prop in Hasc as [Hb Hasc].
    apply andb_prop in Hasc as [Hc _].
    assert (0 <= uchar_of a < 128) by (unfold is_ascii in Ha; pose proof (uchar_of_range a); lia).
    assert (0 <= uchar_of b < 128) by (unfold is_ascii in Hb; pose proof (uchar_of_range b); lia).
    assert (0 <= uchar_of c < 128) by (unfold is_ascii in Hc; pose proof (uchar_of_range c); lia).
    rewrite (ascii_char_val a Ha), (ascii_char_val b Hb), (ascii_char_val c Hc).
    rewrite !shifted_char by lia.
    rewrite Z.lor_0_l. change (8 * (3 - 0)) with 24. change (8 * (3 - 1)) with 16.
    change (8 * (3 - 2)) with 8.
    rewrite <- !Z.lor_assoc.
    rewrite (lor_high_low _ _ 8) by lia. rewrite (lor_high_low _ _ 16) by lia.
    rewrite (lor_high_low _ _ 24) by lia. f_equal; lia.
Qed.

(** ** Runs *)

Lemma parse_lines_app im write st pre post :
  parse_lines im write st (pre ++ post) =
    match parse_lines im write st pre with
    | Ok st' => parse_lines im write st' post
    | Err d => Err d
    end.
Proof.
  revert st. induction pre as [| l pre IH]; intros st; [reflexivity |].
  simpl. destruct (parse_line im write st l); [apply IH | reflexivity].
Qed.

(* a line that is an error in every state makes the pass fail *)
Lemma parse_lines_bad_line im write l lines :
  l ∈ lines ->
  (forall st, exists d, parse_line im write st l = Err d) ->
  forall st, exists d, parse_lines im write st lines = Err d.
Proof.
  intros Hin Hbad. induction lines as [| l' lines IH]; intros st.
  - inversion Hin.
  - simpl. apply elem_of_cons in Hin as [<- | Hin].
    + destruct (Hbad st) as [d ->]. eauto.
    + destruct (parse_line im write st l'); [apply (IH Hin) | eauto].
Qed.

Lemma main_pass1_err im mpc1 mpc2 lines d :
  parse im false mpc1 start lines = Err d ->
  main im mpc1 mpc2 lines = mkOutcome true None (Some d) [] None.
Proof. unfold main. intros ->. reflexivity. Qed.

Lemma main_pass2_err im mpc1 mpc2 lines st1 d :
  parse im false mpc1 start lines = Ok st1 ->
  parse im true mpc2 st1 lines = Err d ->
  main im mpc1 mpc2 lines = mkOutcome true None (Some d) [] None.
Proof. unfold main. intros -> ->. reflexivity. Qed.

Lemma main_bad_line im mpc1 mpc2 l lines :
  l ∈ lines ->
  (forall st, exists d, parse_line im false st l = Err d) ->
  exists d, main im mpc1 mpc2 lines = mkOutcome true None (Some d) [] None.
Proof.
  intros Hin Hbad.
  destruct (parse_lines_bad_line im false l lines Hin Hbad
              (enter false mpc1 start)) as [d Hd].
  exists d. apply main_pass1_err. exact Hd.
Qed.

Lemma mnemonic_byte_range m i :
  all_chars is_ascii m = true -> 0 <= mnemonic_byte m i < 128.
Proof.
  unfold mnemonic_byte. revert i.
  induction m as [| c m IH]; intros i H; simpl; [lia |].
  simpl in H. apply andb_prop in H as [Hc Hm].
  destruct i as [| i].
  - unfold is_ascii in Hc. pose proof (uchar_of_range c). lia.
  - apply IH. exact Hm.
Qed.

Lemma long_mnemonic_err im write st raw :
  is_instruction_line raw = true ->
  (3 < strlen (mnemonic_of raw))%nat ->
  exists d, parse_line im write st raw = Err d.
Proof.
  intros Hi Hlen. rewrite parse_line_instruction by assumption.
  unfold mnemonic_of in Hlen.
  destruct (read_mnemonic (trim raw)) as [m rest] eqn:Hm. simpl in Hlen.
  rewrite (parse_instruction_plain im write st _ m rest Hm).
  - destruct (scan_operands rest _) as [o |]; [| eauto].
    cbv zeta. rewrite mnemonic_3_icode by assumption. eauto.
  - destruct (is_jmp m) eqn:Hj; [| apply andb_false_r].
    apply is_jmp_length in Hj. lia.
Qed.

(** C4. For a mnemonic of one to three (ASCII) characters and operand-type
    tags among 0, 1, 2, the key is a 32-bit value whose byte 3 is the first
    character, byte 2 the second (0 if absent), byte 1 the third (0 if
    absent) and byte 0 is (type1 << 4) | type2. An instruction line whose
    mnemonic has more than three characters is an error in either pass,
    and a program that contains one is not assembled: the run fails and
    leaves no output file. *)
Theorem lookup_key_packing :
  (forall m t1 t2,
     (1 <= strlen m <= 3)%nat -> all_chars is_ascii m = true ->
     0 <= t1 <= 2 -> 0 <= t2 <= 2 ->
     exists k,
       make_icode m t1 t2 = Some k
       /\ 0 <= k < 2 ^ 32
       /\ key_byte k 3 = mnemonic_byte m 0
       /\ key_byte k 2 = mnemonic_byte m 1
       /\ key_byte k 1 = mnemonic_byte m 2
       /\ key_byte k 0 = Z.lor (Z.shiftl t1 4) t2)
  /\ (forall im mpc1 mpc2 lines raw,
        raw ∈ lines ->
        is_instruction_line raw = true ->
        (3 < strlen (mnemonic_of raw))%nat ->
        (forall write st, exists d, parse_line im write st raw = Err d)
        /\ exists d,
             main im mpc1 mpc2 lines = mkOutcome true None (Some d) [] None).
Proof.
  split.
  - intros m t1 t2 Hlen Hasc H1 H2. eexists. split.
    + apply make_icode_sum; assumption.
    + destruct (type_byte t1 t2 H1 H2) as [_ ->].
      pose proof (mnemonic_byte_range m) as Hb.
      apply (key_sum_bytes _ _ _ _ (Hb 0%nat Hasc) (Hb 1%nat Hasc)
               (Hb 2%nat Hasc)). lia.
  - intros im mpc1 mpc2 lines raw Hin Hi Hlen. split.
    + intros write st. apply long_mnemonic_err; assumption.
    + apply (main_bad_line im mpc1 mpc2 raw lines Hin).
      intros st. apply long_mnemonic_err; assumption.
Qed.

Lemma lookup_key_packing_witness :
  (exists k,
     make_icode "ADD" 2 1 = Some k
     /\ 0 <= k < 2 ^ 32
     /\ key_byte k 3 = 0x41 /\ key_byte k 2 = 0x44 /\ key_byte k 1 = 0x44
     /\ key_byte k 0 = 0x21)
  /\ exists d,
       main imap 0 0 ["HLT"; "HALT"; "HLT"]
       = mkOutcome true None (Some d) [] None.
Proof.
  split.
  - refine (proj1 lookup_key_packing "ADD" 2 1 _ _ _ _);
      vm_compute; first [reflexivity | lia | (split; intro; discriminate)].
  - refine (proj2 (proj2 lookup_key_packing imap 0 0 ["HLT"; "HALT"; "HLT"]
                         "HALT" _ _ _)).
    + apply list_elem_of_further, list_elem_of_here.
    + reflexivity.
    + vm_compute. lia.
Defined.

(** ** What a line leaves untouched *)

Lemma foldl_emit_frame write bs st :
  let st' := foldl (emit_byte write) st bs in
  linenum st' = linenum st /\ mpc st' = mpc st /\ lblmap st' = lblmap st
  /\ directives st' = directives st /\ adjustBase st' = adjustBase st
  /\ caddr st' = caddr st + Z.of_nat (length bs)
  /\ (write = false -> out st' = out st /\ listing st' = listing st).
Proof.
  revert st. induction bs as [| b bs IH]; intros st; simpl.
  - repeat split; lia.
  - destruct (IH (emit_byte write st b)) as (H1 & H2 & H3 & H4 & H5 & H6 & H7).
    simpl in *. split; [congruence |]. split; [congruence |].
    split; [congruence |]. split; [congruence |]. split; [congruence |].
    split; [lia |]. intros ->. destruct H7 as [H7 H8]; [reflexivity |].
    simpl in *. split; congruence.
Qed.

Lemma parse_instruction_frame im write st line st' :
  parse_instruction im write st line = Ok st' ->
  linenum st' = linenum st + 1 /\ lblmap st' = lblmap st
  /\ directives st' = directives st /\ adjustBase st' = adjustBase st
  /\ (write = false -> out st' = out st /\ listing st' = listing st).
Proof.
  unfold parse_instruction.
  destruct (read_mnemonic line) as [m rest].
  destruct (if write && is_jmp m then resolve_jump st line m rest
            else inr (mkOps 0 [0; 0] [0; 0], false, rest))
    as [d | [[o cm] r]]; [discriminate |].
  destruct (if cm then Some o else scan_operands r o) as [o' |]; [| discriminate].
  cbv zeta.
  destruct (make_icode m _ _) as [k |]; [| discriminate].
  destruct (im !! k) as [t |]; [| discriminate].
  intros [= <-].
  match goal with
  | |- context [foldl (emit_byte write) ?s ?bs] =>
      destruct (foldl_emit_frame write bs s) as (H1 & H2 & H3 & H4 & H5 & H6 & H7)
  end.
  simpl in *. split; [lia |]. split; [congruence |]. split; [congruence |].
  split; [congruence |]. intros ->. destruct H7 as [H7 H8]; [reflexivity |].
  simpl in *. split; congruence.
Qed.

Lemma parse_line_write_frame im st raw st' :
  parse_line im true st raw = Ok st' ->
  lblmap st' = lblmap st /\ directives st' = directives st
  /\ adjustBase st' = adjustBase st.
Proof.
  unfold parse_line. cbv zeta.
  destruct (String.eqb (trim raw) ""); [intros [= <-]; auto |].
  destruct (starts_with "#" (trim raw)); [intros [= <-]; auto |].
  destruct (starts_with "@" (trim raw)); [intros [= <-]; auto |].
  destruct (regex_upto ":" (trim raw)); [intros [= <-]; auto |].
  intros H. apply parse_instruction_frame in H. tauto.
Qed.

Lemma parse_lines_write_frame im lines st st' :
  parse_lines im true st lines = Ok st' ->
  lblmap st' = lblmap st /\ directives st' = directives st
  /\ adjustBase st' = adjustBase st.
Proof.
  revert st. induction lines as [| l lines IH]; intros st; simpl.
  - intros [= <-]. auto.
  - destruct (parse_line im true st l) as [st1 |] eqn:H1; [| discriminate].
    intros H. apply IH in H. apply parse_line_write_frame in H1.
    destruct H as (-> & -> & ->). exact H1.
Qed.

Lemma enter_lblmap write mpc0 st : lblmap (enter write mpc0 st) = lblmap st.
Proof. unfold enter. destruct (adjustBase st && write); reflexivity. Qed.

(** ** The label table *)

(** C8. No line of the second pass changes the label table, so the table
    that the second pass ends with is the one the first pass built. In the
    first pass a label line stores the current address (as an unsigned
    char) under its name without any error, whether or not the name is
    already in the table: a later definition replaces an earlier one and
    leaves the other names alone. *)
Theorem label_table_lifetime :
  (forall im st raw st',
     parse_line im true st raw = Ok st' -> lblmap st' = lblmap st)
  /\ (forall im mpc2 st lines st',
        parse im true mpc2 st lines = Ok st' -> lblmap st' = lblmap st)
  /\ (forall im st raw name,
        label_of raw = Some name ->
        exists st',
          parse_line im false st raw = Ok st'
          /\ lblmap st' = <[name := caddr st mod 256]> (lblmap st)
          /\ lblmap st' !! name = Some (caddr st mod 256)
          /\ forall other, other <> name ->
                           lblmap st' !! other = lblmap st !! other).
Proof.
  split; [| split].
  - intros im st raw st' H. apply parse_line_write_frame in H. tauto.
  - intros im mpc2 st lines st' H. unfold parse in H.
    apply parse_lines_write_frame in H. destruct H as (-> & _).
    apply enter_lblmap.
  - intros im st raw name H.
    destruct (label_of_line raw name H) as (m & H1 & H2 & H3 & H4 & ->).
    unfold parse_line. cbv zeta. rewrite H1, H2, H3, H4.
    eexists. split; [reflexivity |]. simpl. unfold to_uchar.
    split; [reflexivity |]. split.
    + apply lookup_insert_eq.
    + intros other Hne. apply lookup_insert_ne. congruence.
Qed.

Lemma label_table_lifetime_witness :
  (exists st',
     parse_line imap false st_label_seen "a1:" = Ok st'
     /\ lblmap st' = <[ "a1" := 1 mod 256 ]> (lblmap st_label_seen)
     /\ lblmap st' !! "a1" = Some (1 mod 256)
     /\ forall other, other <> "a1" ->
                      lblmap st' !! other = lblmap st_label_seen !! other)
  /\ lblmap (emitted2 st_label_seen 0x50 0x00) = lblmap st_label_seen.
Proof.
  split.
  - apply (proj2 (proj2 label_table_lifetime) imap st_label_seen "a1:" "a1").
    reflexivity.
  - apply (proj1 label_table_lifetime imap st_label_seen "JMP a1").
    reflexivity.
Defined.

(** A program that defines [a1] twice is assembled without error; the
    jump goes to the second definition. *)
Example duplicate_label_program :
  main imap 0 0 ["a1:"; "HLT"; "a1:"; "JMP a1"]
  = mkOutcome false (Some [0x03; 0x50; 0x01]) None
              [(0, 0x03); (1, 0x50); (2, 0x01)] (Some 3).
Proof. reflexivity. Qed.

(** ** Commas *)

(* the operand loop fails exactly when, before any '#', it meets a comma
   with [numops] already 1 *)
Lemma scan_operands_commas s o :
  (numops o <= 1)%nat ->
  scan_operands s o = None
  <-> (2 <= numops o + count_char "," (before_hash s))%nat.
Proof.
  revert o. induction s as [| c s IH]; intros o Ho; simpl.
  - split; [discriminate | lia].
  - rewrite toupper_eqb_space, toupper_eqb_hash, toupper_eqb_dollar,
      toupper_eqb_comma.
    destruct (Ascii.eqb c " ") eqn:Hsp.
    { apply Ascii.eqb_eq in Hsp. subst c. simpl. apply IH. exact Ho. }
    destruct (Ascii.eqb c "#") eqn:Hh.
    { simpl. split; [discriminate | lia]. }
    destruct (Ascii.eqb c "$") eqn:Hd.
    { apply Ascii.eqb_eq in Hd. subst c. simpl. apply (IH (mkOps _ _ _)). exact Ho. }
    destruct (Ascii.eqb c ",") eqn:Hc.
    { simpl. rewrite Hc. destruct (numops o) as [| n] eqn:Hn; simpl.
      - rewrite (IH (mkOps 1 _ _)) by (simpl; lia). simpl. lia.
      - split; [lia | reflexivity]. }
    simpl. rewrite Hc. simpl. destruct (is_hex (toupper c)).
    + apply (IH (mkOps _ _ _)). exact Ho.
    + apply IH. exact Ho.
Qed.

(** C5, as the code has it. On an instruction line read by the operand
    loop (every instruction line of the first pass, and every line of the
    second pass that is not a jump or branch), the "leading comma" error is
    raised exactly when the operand text has a second comma before any
    [#]. A single comma is accepted wherever it stands, also before any
    operand has been started. *)
Theorem second_comma_error im write st raw :
  is_instruction_line raw = true ->
  write && is_jmp (mnemonic_of raw) = false ->
  parse_line im write st raw
    = Err (mkDiag LeadingComma (trim raw) (linenum st))
  <-> (2 <= count_char "," (before_hash (operand_text raw)))%nat.
Proof.
  intros Hi Hw. rewrite parse_line_instruction by assumption.
  unfold mnemonic_of, operand_text in *.
  destruct (read_mnemonic (trim raw)) as [m rest] eqn:Hm. simpl in *.
  rewrite (parse_instruction_plain im write st _ m rest Hm Hw).
  pose proof (scan_operands_commas rest (mkOps 0 [0; 0] [0; 0])) as Hs.
  simpl in Hs. rewrite <- Hs by lia.
  destruct (scan_operands rest _) as [o |].
  - cbv zeta. split; [| discriminate].
    destruct (make_icode m _ _) as [k |]; [| discriminate].
    destruct (im !! k); discriminate.
  - split; reflexivity.
Qed.

Lemma second_comma_error_witness :
  parse_line imap false start "MOV $04,,3"
  = Err (mkDiag LeadingComma "MOV $04,,3" 1).
Proof.
  refine (proj2 (second_comma_error imap false start "MOV $04,,3" _ _) _);
    vm_compute; first [reflexivity | lia].
Defined.

(** C5 as stated fails: in [HLT ,] the comma comes before any operand has
    been started, and the program is assembled without error (to the
    opcode and one operand byte 0). *)
Lemma comma_before_operand_counterexample :
  count_char "," (operand_text "HLT ,") = 1%nat
  /\ main imap 0 0 ["HLT ,"]
     = mkOutcome false (Some [0x03; 0x00]) None [(0, 0x03); (1, 0x00)] (Some 2).
Proof. split; reflexivity. Qed.

(** ** Labels without a hex digit *)

Lemma scan_operands_inert s o :
  all_chars is_inert_char (before_hash s) = true ->
  scan_operands s o = Some o.
Proof.
  induction s as [| c s IH]; simpl; [reflexivity |].
  rewrite toupper_eqb_space, toupper_eqb_hash, toupper_eqb_dollar,
    toupper_eqb_comma.
  destruct (Ascii.eqb c "#") eqn:Hh.
  { intros _. destruct (Ascii.eqb c " ") eqn:Hsp; [| reflexivity].
    apply Ascii.eqb_eq in Hh. subst c. discriminate Hsp. }
  simpl. unfold is_inert_char at 1. intros H.
  apply andb_prop in H as [H Hs]. apply andb_prop in H as [H Hc].
  apply andb_prop in H as [Hx Hd].
  apply negb_true_iff in Hx, Hd, Hc. rewrite Hx, Hd, Hc.
  destruct (Ascii.eqb c " "); apply IH; exact Hs.
Qed.

Lemma unresolved_label_line im st raw :
  is_instruction_line raw = true ->
  is_jmp (mnemonic_of raw) = true ->
  all_chars is_inert_char (before_hash (operand_text raw)) = true ->
  key_target im (mnemonic_of raw) 0 0 = None ->
  parse_line im false st raw
  = Err (mkDiag UnmappedInstruction (trim raw) (linenum st)).
Proof.
  intros Hi Hj Hp Hk. rewrite parse_line_instruction by assumption.
  unfold mnemonic_of, operand_text, key_target in *.
  destruct (read_mnemonic (trim raw)) as [m rest] eqn:Hm. simpl in *.
  rewrite (parse_instruction_plain im false st _ m rest Hm eq_refl).
  rewrite (scan_operands_inert rest _ Hp). cbv zeta. simpl optype.
  change (rd [0; 0] 0) with 0. change (rd [0; 0] 1) with 0.
  destruct (mnemonic_short_icode m 0 0 (is_jmp_length m Hj)) as [k Hk'].
  rewrite Hk' in *. rewrite Hk. reflexivity.
Qed.

(** C10. Let a jump or branch line (JMP, JSR, BR, BRZ, BRN) have an operand
    text before any [#] with no hex digit (0-9, A-F after upper-casing) and
    no [$] or comma, and let the map have no entry for the mnemonic without
    operands. Then the first pass, which has no label resolution, reads
    the line as an instruction without operands and stops at it with the
    "cannot be mapped" error, whatever the label table holds and whatever
    the other lines define: the run fails in the first pass and no output
    file is left. *)
Theorem label_without_hex_digit im mpc1 mpc2 pre raw post :
  is_instruction_line raw = true ->
  is_jmp (mnemonic_of raw) = true ->
  all_chars is_inert_char (before_hash (operand_text raw)) = true ->
  key_target im (mnemonic_of raw) 0 0 = None ->
  (forall st,
     parse_line im false st raw
     = Err (mkDiag UnmappedInstruction (trim raw) (linenum st)))
  /\ (exists d,
        parse im false mpc1 start (pre ++ raw :: post) = Err d
        /\ main im mpc1 mpc2 (pre ++ raw :: post)
           = mkOutcome true None (Some d) [] None)
  /\ (forall st',
        parse im false mpc1 start pre = Ok st' ->
        main im mpc1 mpc2 (pre ++ raw :: post)
        = mkOutcome true None
            (Some (mkDiag UnmappedInstruction (trim raw) (linenum st'))) [] None).
Proof.
  intros Hi Hj Hp Hk.
  pose proof (fun st => unresolved_label_line im st raw Hi Hj Hp Hk) as Hline.
  split; [exact Hline |]. split.
  - destruct (parse_lines_bad_line im false raw (pre ++ raw :: post))
      with (st := enter false mpc1 start) as [d Hd].
    + apply elem_of_app. right. apply list_elem_of_here.
    + intros st. eexists. apply Hline.
    + exists d. split; [exact Hd |]. apply main_pass1_err. exact Hd.
  - intros st' Hpre. apply main_pass1_err. unfold parse in *.
    rewrite parse_lines_app, Hpre. simpl. rewrite Hline. reflexivity.
Qed.

Lemma label_without_hex_digit_witness :
  (forall st,
     parse_line imap false st "JMP loop"
     = Err (mkDiag UnmappedInstruction (trim "JMP loop") (linenum st)))
  /\ (exists d,
        parse imap false 0 start (["loop:"; "HLT"] ++ "JMP loop" :: ["HLT"]) = Err d
        /\ main imap 0 0 (["loop:"; "HLT"] ++ "JMP loop" :: ["HLT"])
           = mkOutcome true None (Some d) [] None)
  /\ (forall st',
        parse imap false 0 start ["loop:"; "HLT"] = Ok st' ->
        main imap 0 0 (["loop:"; "HLT"] ++ "JMP loop" :: ["HLT"])
        = mkOutcome true None
            (Some (mkDiag UnmappedInstruction (trim "JMP loop") (linenum st')))
            [] None).
Proof.
  apply (label_without_hex_digit imap 0 0 ["loop:"; "HLT"] "JMP loop" ["HLT"]);
    reflexivity.
Defined.

(** The same program with the label renamed to [loop1], which has a hex
    digit, is assembled. *)
Example label_with_hex_digit_program :
  main imap 0 0 ["loop1:"; "HLT"; "JMP loop1"; "HLT"]
  = mkOutcome false (Some [0x03; 0x50; 0x00; 0x03]) None
              [(0, 0x03); (1, 0x50); (2, 0x00); (3, 0x03)] (Some 4).
Proof. reflexivity. Qed.

(** ** Errors *)

Lemma resolve_jump_err st line m rest d :
  resolve_jump st line m rest = inl d ->
  d = mkDiag InvalidJumpOperand line (linenum st).
Proof.
  unfold resolve_jump. destruct (scan_jump rest 0) as [[[l op] cm] r].
  destruct (lblmap st !! trim l); [discriminate |].
  destruct (Nat.ltb 2 (strlen (trim l))); [| discriminate].
  intros [= <-]. reflexivity.
Qed.

Lemma parse_line_err_diag im write st raw d :
  parse_line im write st raw = Err d ->
  dline d = linenum st /\ quotes d raw.
Proof.
  unfold parse_line, quotes. cbv zeta.
  destruct (String.eqb (trim raw) ""); [discriminate |].
  destruct (starts_with "#" (trim raw)); [discriminate |].
  destruct (starts_with "@" (trim raw)).
  { destruct write; [discriminate |].
    unfold parse_directive, directive_value. cbv zeta.
    destruct (regex_upto "=" (trim raw)) as [m |].
    - destruct (directives st !! _).
      + destruct (scan_value _ (mpc st)).
        * destruct (String.eqb _ "base_addr"); discriminate.
        * intros [= <-]. split; reflexivity.
      + intros [= <-]. split; reflexivity.
    - intros [= <-]. split; reflexivity. }
  destruct (regex_upto ":" (trim raw)).
  { destruct write; discriminate. }
  unfold parse_instruction, mnemonic_of.
  destruct (read_mnemonic (trim raw)) as [m rest]. simpl fst.
  destruct (if write && is_jmp m then resolve_jump st (trim raw) m rest
            else inr (mkOps 0 [0; 0] [0; 0], false, rest))
    as [d' | [[o cm] r]] eqn:Hj.
  { destruct (write && is_jmp m); [| discriminate].
    apply resolve_jump_err in Hj. subst d'. intros [= <-]. split; reflexivity. }
  destruct (if cm then Some o else scan_operands r o) as [o' |].
  - cbv zeta. destruct (make_icode m _ _) as [k |].
    + destruct (im !! k); [discriminate |]. intros [= <-]. split; reflexivity.
    + intros [= <-]. split; reflexivity.
  - intros [= <-]. split; reflexivity.
Qed.

Lemma parse_line_linenum im write st raw st' :
  parse_line im write st raw = Ok st' ->
  linenum st' = linenum st + (if is_directive_line raw then 0 else 1).
Proof.
  unfold parse_line, is_directive_line. cbv zeta.
  destruct (String.eqb (trim raw) ""); [intros [= <-]; reflexivity |].
  destruct (starts_with "#" (trim raw)); [intros [= <-]; reflexivity |].
  destruct (starts_with "@" (trim raw)); simpl.
  { destruct write; [intros [= <-]; lia |].
    unfold parse_directive. cbv zeta.
    destruct (regex_upto "=" (trim raw)) as [m |]; [| discriminate].
    destruct (directives st !! _); [| discriminate].
    destruct (scan_value _ (mpc st)); [| discriminate].
    destruct (String.eqb _ "base_addr"); intros [= <-]; simpl; lia. }
  destruct (regex_upto ":" (trim raw)).
  { destruct write; intros [= <-]; reflexivity. }
  intros H. apply parse_instruction_frame in H. tauto.
Qed.

Lemma parse_lines_linenum im write pre st st' :
  parse_lines im write st pre = Ok st' ->
  linenum st' =
    linenum st + Z.of_nat (length pre) - Z.of_nat (directive_lines pre).
Proof.
  revert st. induction pre as [| l pre IH]; intros st; simpl.
  - intros [= <-]. lia.
  - destruct (parse_line im write st l) as [st1 |] eqn:H1; [| discriminate].
    intros H. apply IH in H. apply parse_line_linenum in H1.
    destruct (is_directive_line l); lia.
Qed.

Lemma enter_linenum write mpc0 st : linenum (enter write mpc0 st) = 1.
Proof. unfold enter. destruct (adjustBase st && write); reflexivity. Qed.

(** C6, as the code has it. When a line is an error in either pass
    (whatever the error, an instruction without map entry included),
    nothing after that line is read, the run ends with the failure status
    and the output file is deleted. The message carries the line counter,
    which is the number of the line in the file when no directive line
    comes before it, and quotes the trimmed line, except that "Invalid
    Mnemonic" quotes the upper-cased mnemonic and "Invalid hex value" the
    value text of the directive. *)
Theorem hard_error_aborts im write mpc0 g pre raw st' d :
  parse im write mpc0 g pre = Ok st' ->
  parse_line im write st' raw = Err d ->
  (forall post, parse im write mpc0 g (pre ++ raw :: post) = Err d)
  /\ (forall post mpc2,
        write = false -> g = start ->
        main im mpc0 mpc2 (pre ++ raw :: post)
        = mkOutcome true None (Some d) [] None)
  /\ (forall post mpc1,
        write = true ->
        parse im false mpc1 start (pre ++ raw :: post) = Ok g ->
        main im mpc1 mpc0 (pre ++ raw :: post)
        = mkOutcome true None (Some d) [] None)
  /\ (directive_lines pre = O -> dline d = 1 + Z.of_nat (length pre))
  /\ quotes d raw.
Proof.
  intros Hpre Hraw.
  assert (forall post, parse im write mpc0 g (pre ++ raw :: post) = Err d) as Hstop.
  { intros post. unfold parse in *. rewrite parse_lines_app, Hpre. simpl.
    rewrite Hraw. reflexivity. }
  split; [exact Hstop |]. split; [| split; [| split]].
  - intros post mpc2 -> ->. apply main_pass1_err. apply Hstop.
  - intros post mpc1 -> H1. apply (main_pass2_err im mpc1 mpc0 _ g); [exact H1 |].
    apply Hstop.
  - intros Hdir. destruct (parse_line_err_diag im write st' raw d Hraw) as [-> _].
    unfold parse in Hpre. apply parse_lines_linenum in Hpre.
    rewrite enter_linenum in Hpre. lia.
  - apply (parse_line_err_diag im write st' raw d Hraw).
Qed.

Lemma hard_error_aborts_witness :
  let d := mkDiag UnmappedInstruction "XYZ 1" 3 in
  (forall post, parse imap false 0 start (["la:"; "HLT"] ++ " XYZ 1" :: post) = Err d)
  /\ (forall post mpc2,
        false = false -> start = start ->
        main imap 0 mpc2 (["la:"; "HLT"] ++ " XYZ 1" :: post)
        = mkOutcome true None (Some d) [] None)
  /\ (forall post mpc1,
        false = true ->
        parse imap false mpc1 start (["la:"; "HLT"] ++ " XYZ 1" :: post) = Ok start ->
        main imap mpc1 0 (["la:"; "HLT"] ++ " XYZ 1" :: post)
        = mkOutcome true None (Some d) [] None)
  /\ (directive_lines ["la:"; "HLT"] = O -> dline d = 1 + Z.of_nat (length ["la:"; "HLT"]))
  /\ quotes d " XYZ 1".
Proof.
  apply (hard_error_aborts imap false 0 start ["la:"; "HLT"] " XYZ 1"
           (mkState 1 3 0x03 {[ "la" := 0 ]} directives_init false [] []));
    reflexivity.
Defined.

(** C6 as stated fails: the second line of this program has a mnemonic of
    four characters; the run fails and leaves no file, but the message
    gives line 1, not 2, and quotes [ABCD], not the line. *)
Lemma error_message_counterexample :
  let r := main imap 0 0 ["@base_addr=1F"; "abcd 1"] in
  exit_failure r = true
  /\ out_file r = None
  /\ stderr r = Some (mkDiag InvalidMnemonic "ABCD" 1)
  /\ dline <$> stderr r <> Some 2
  /\ dtext <$> stderr r <> Some "abcd 1".
Proof. vm_compute. repeat split; intros H; discriminate H. Qed.

(** ** The base address *)

(* the first pass writes nothing, and only directive lines touch the
   directive store and [adjustBase] *)
Lemma parse_line_pass1_frame im st raw st' :
  parse_line im false st raw = Ok st' ->
  out st' = out st /\ listing st' = listing st
  /\ (is_directive_line raw = false ->
      directives st' = directives st /\ adjustBase st' = adjustBase st).
Proof.
  unfold parse_line, is_directive_line. cbv zeta.
  destruct (String.eqb (trim raw) ""); [intros [= <-]; auto |].
  destruct (starts_with "#" (trim raw)); [intros [= <-]; auto |].
  destruct (starts_with "@" (trim raw)); simpl.
  { unfold parse_directive. cbv zeta.
    destruct (regex_upto "=" (trim raw)) as [m |]; [| discriminate].
    destruct (directives st !! _); [| discriminate].
    destruct (scan_value _ (mpc st)); [| discriminate].
    destruct (String.eqb _ "base_addr"); intros [= <-]; simpl;
      (split; [reflexivity | split; [reflexivity | intros H; discriminate H]]). }
  destruct (regex_upto ":" (trim raw)); [intros [= <-]; auto |].
  intros H. apply parse_instruction_frame in H.
  destruct H as (_ & _ & Hd & Ha & Ho). destruct (Ho eq_refl). auto.
Qed.

Lemma parse_lines_pass1_frame im lines st st' :
  parse_lines im false st lines = Ok st' ->
  out st' = out st /\ listing st' = listing st
  /\ (directive_lines lines = O ->
      directives st' = directives st /\ adjustBase st' = adjustBase st).
Proof.
  revert st. induction lines as [| l lines IH]; intros st; simpl.
  - intros [= <-]. auto.
  - destruct (parse_line im false st l) as [st1 |] eqn:H1; [| discriminate].
    intros H. apply IH in H. apply parse_line_pass1_frame in H1.
    destruct H as (-> & -> & Hd). destruct H1 as (-> & -> & Hd1).
    split; [reflexivity |]. split; [reflexivity |]. intros Hn.
    destruct (is_directive_line l); [discriminate |].
    destruct (Hd Hn) as [-> ->]. apply Hd1. reflexivity.
Qed.

Lemma pass1_line_shift im k raw s s' :
  is_directive_line raw = false ->
  shifted k s s' ->
  simulates k s' (parse_line im false s raw) (parse_line im false s' raw).
Proof.
  intros Hdir (Hc & Hl & Hm). revert Hdir.
  unfold parse_line, is_directive_line, simulates, shifted. cbv zeta.
  destruct (String.eqb (trim raw) "");
    [simpl; intros _; repeat split; try assumption; lia |].
  destruct (starts_with "#" (trim raw));
    [simpl; intros _; repeat split; try assumption; lia |].
  destruct (starts_with "@" (trim raw)); [simpl; intros H; discriminate H |].
  intros _.
  destruct (regex_upto ":" (trim raw)) as [m |].
  { simpl. rewrite Hc, Hl, Hm, fmap_insert. unfold to_uchar.
    rewrite Z.add_mod_idemp_l by lia. repeat split. }
  destruct (read_mnemonic (trim raw)) as [mn rest] eqn:Hmn.
  rewrite !(parse_instruction_plain im false _ _ mn rest Hmn eq_refl).
  destruct (scan_operands rest _) as [o |]; [| congruence].
  cbv zeta. destruct (make_icode mn _ _) as [key |]; [| congruence].
  destruct (im !! key) as [t |]; [| congruence].
  match goal with
  | |- context [foldl (emit_byte false) (emit_byte false (set_mpc s t) t) ?bs] =>
      destruct (foldl_emit_frame false bs (emit_byte false (set_mpc s t) t))
        as (H1 & _ & H3 & _ & _ & H6 & _);
      destruct (foldl_emit_frame false bs (emit_byte false (set_mpc s' t) t))
        as (H1' & _ & H3' & H4' & H5' & H6' & _)
  end.
  simpl in *. rewrite H1, H1', H3, H3', H4', H5', H6, H6'.
  repeat split; try assumption; lia.
Qed.

Lemma pass1_lines_shift im k lines :
  directive_lines lines = O ->
  forall s s',
    shifted k s s' ->
    simulates k s' (parse_lines im false s lines) (parse_lines im false s' lines).
Proof.
  induction lines as [| l lines IH]; intros Hn s s' Hs; simpl.
  - auto.
  - simpl in Hn. destruct (is_directive_line l) eqn:Hl; [discriminate |].
    pose proof (pass1_line_shift im k l s s' Hl Hs) as H.
    unfold simulates in H.
    destruct (parse_line im false s l) as [t | d],
             (parse_line im false s' l) as [t' | d']; try contradiction.
    + destruct H as (Ht & Hd & Ha). pose proof (IH Hn t t' Ht) as H2.
      unfold simulates in *.
      destruct (parse_lines im false t lines), (parse_lines im false t' lines);
        try assumption.
      rewrite Hd, Ha in H2. exact H2.
    + exact H.
Qed.

(* the line of C7, from any state that has the directive *)
Lemma base_addr_1F_line im st :
  is_Some (directives st !! "base_addr") ->
  parse_line im false st "@base_addr=1F" =
    Ok (mkState (caddr st + 0x1F) (linenum st) 0x1F (lblmap st)
                (<["base_addr" := 0x1F]> (directives st)) true
                (out st) (listing st)).
Proof.
  intros [v Hv].
  assert (parse_line im false st "@base_addr=1F" =
          parse_directive st "@base_addr=1F") as -> by reflexivity.
  unfold parse_directive.
  change (regex_upto "=" "@base_addr=1F") with (Some "@base_addr=").
  cbv beta iota zeta.
  change (trim (substr "@base_addr=" 1 (strlen "@base_addr=" - 2)))
    with "base_addr".
  rewrite Hv.
  change (trim (substr "@base_addr=1F" _ _)) with "1F".
  change (scan_value "1F" (mpc st))
    with (Some (shift_in (shift_in (mpc st) "1") "F")).
  cbv beta iota.
  assert (shift_in (shift_in (mpc st) "1") "F" = 0x1F) as ->.
  { rewrite !shift_in_eq. change (nibble "1") with 1. change (nibble "F") with 15.
    pose proof (Z.mod_pos_bound (mpc st) 16).
    replace ((16 * (mpc st mod 16) + 1) mod 16) with 1; [reflexivity |].
    rewrite Z.add_comm, Z.mul_comm, Z.mod_add by lia. reflexivity. }
  reflexivity.
Qed.

Lemma emit_byte_addressed b s x :
  addressed b s -> addressed b (emit_byte true s x).
Proof.
  intros [Hc Hl]. unfold addressed, emit_byte. simpl. split.
  - rewrite length_app. simpl. lia.
  - intros i.
    assert (length (listing s) = length (out s)) as Hlen.
    { destruct (Nat.le_gt_cases (length (listing s)) (length (out s))) as [Hle | Hgt].
      - destruct (Nat.eq_dec (length (listing s)) (length (out s))) as [He | Hne];
          [exact He |].
        pose proof (Hl (length (listing s))) as H.
        rewrite (lookup_ge_None_2 (listing s)) in H by lia.
        destruct (lookup_lt_is_Some_2 (out s) (length (listing s))) as [y Hy];
          [lia |].
        rewrite Hy in H. discriminate H.
      - pose proof (Hl (length (out s))) as H.
        rewrite (lookup_ge_None_2 (out s)) in H by lia.
        destruct (lookup_lt_is_Some_2 (listing s) (length (out s))) as [y Hy];
          [lia |].
        rewrite Hy in H. discriminate H. }
    destruct (Nat.lt_ge_cases i (length (out s))) as [Hlt | Hge].
    + rewrite !lookup_app_l by lia. apply Hl.
    + rewrite !lookup_app_r by lia. rewrite Hlen.
      destruct (i - length (out s))%nat as [| n] eqn:Hi; simpl.
      * f_equal. f_equal. lia.
      * reflexivity.
Qed.

Lemma foldl_emit_addressed b bs s :
  addressed b s -> addressed b (foldl (emit_byte true) s bs).
Proof.
  revert s. induction bs as [| x bs IH]; intros s Hs; simpl; [exact Hs |].
  apply IH. apply emit_byte_addressed. exact Hs.
Qed.

Lemma parse_line_addressed im b st raw st' :
  parse_line im true st raw = Ok st' -> addressed b st -> addressed b st'.
Proof.
  unfold parse_line. cbv zeta.
  destruct (String.eqb (trim raw) ""); [intros [= <-]; auto |].
  destruct (starts_with "#" (trim raw)); [intros [= <-]; auto |].
  destruct (starts_with "@" (trim raw)); [intros [= <-]; auto |].
  destruct (regex_upto ":" (trim raw)); [intros [= <-]; auto |].
  unfold parse_instruction.
  destruct (read_mnemonic (trim raw)) as [m rest].
  destruct (if true && is_jmp m then resolve_jump st (trim raw) m rest
            else inr (mkOps 0 [0; 0] [0; 0], false, rest))
    as [d | [[o cm] r]]; [discriminate |].
  destruct (if cm then Some o else scan_operands r o) as [o' |]; [| discriminate].
  cbv zeta.
  destruct (make_icode m _ _) as [k |]; [| discriminate].
  destruct (im !! k) as [t |]; [| discriminate].
  intros [= <-] Hs.
  match goal with
  | |- addressed b (next_line ?s) =>
      assert (addressed b s) as Ha
  end.
  { apply foldl_emit_addressed. apply emit_byte_addressed. exact Hs. }
  exact Ha.
Qed.

Lemma parse_lines_addressed im b lines st st' :
  parse_lines im true st lines = Ok st' -> addressed b st -> addressed b st'.
Proof.
  revert st. induction lines as [| l lines IH]; intros st; simpl.
  - intros [= <-]. auto.
  - destruct (parse_line im true st l) as [st1 |] eqn:H1; [| discriminate].
    intros H Hs. apply (IH st1 H). apply (parse_line_addressed im b st l); assumption.
Qed.

(* a second pass as a whole: where it starts, and what it then reports *)
Lemma pass2_addressed im mpc2 s1 lines s2 b :
  out s1 = [] -> listing s1 = [] ->
  caddr (enter true mpc2 s1) = b ->
  parse im true mpc2 s1 lines = Ok s2 ->
  addressed b s2 /\ directives s2 = directives s1.
Proof.
  intros Ho Hl Hb H. unfold parse in H. split.
  - apply (parse_lines_addressed im b lines _ _ H).
    unfold addressed. split.
    + rewrite Hb. unfold enter. destruct (adjustBase s1 && true); simpl;
        rewrite Ho; simpl; lia.
    + intros i. unfold enter. destruct (adjustBase s1 && true); simpl;
        rewrite Ho, Hl; reflexivity.
  - apply parse_lines_write_frame in H. destruct H as (_ & -> & _).
    unfold enter. destruct (adjustBase s1 && true); reflexivity.
Qed.

Lemma pass1_with_1F im mpc1 rest :
  parse im false mpc1 start ("@base_addr=1F" :: rest)
  = parse_lines im false after_1F rest.
Proof.
  unfold parse. simpl parse_lines.
  rewrite base_addr_1F_line; [reflexivity |].
  eexists. reflexivity.
Qed.

(* the jump/branch case of the second pass without conditions on the map *)
Lemma parse_instruction_jump_gen im st line m rest :
  read_mnemonic line = (m, rest) ->
  is_jmp m = true ->
  parse_instruction im true st line =
    let finish b :=
      match make_icode m 1 0 with
      | None => Err (mkDiag InvalidMnemonic m (linenum st))
      | Some k =>
          match im !! k with
          | None => Err (mkDiag UnmappedInstruction line (linenum st))
          | Some t => Ok (emitted2 st t b)
          end
      end in
    match lblmap st !! trim (before_hash rest) with
    | Some a =>
        finish (if starts_with "B" m then branch_offset a (caddr st) else a)
    | None =>
        if Nat.ltb 2 (strlen (trim (before_hash rest)))
        then Err (mkDiag InvalidJumpOperand line (linenum st))
        else finish (to_uchar (jump_literal rest + base_addr (directives st)))
    end.
Proof.
  intros Hm Hj. unfold parse_instruction. rewrite Hm, Hj. simpl andb. cbv iota.
  unfold resolve_jump, jump_literal.
  pose proof (scan_jump_label rest 0) as Hl.
  pose proof (scan_jump_done rest 0) as Hd.
  destruct (scan_jump rest 0) as [[[l op] cm] r]. simpl in Hl, Hd. subst l.
  assert (forall o, (if cm then Some o else scan_operands r o) = Some o) as Hs.
  { intros o. destruct Hd as [-> | ->]; [reflexivity |]. destruct cm; reflexivity. }
  cbv zeta.
  destruct (lblmap st !! trim (before_hash rest)) as [a |].
  - rewrite Hs. cbn [optype numops ops].
    change (rd [1; 0] 0) with 1. change (rd [1; 0] 1) with 0.
    destruct (make_icode m 1 0) as [k |]; [| reflexivity].
    destruct (im !! k) as [t |]; [| reflexivity].
    simpl. rewrite emit_two. reflexivity.
  - destruct (Nat.ltb 2 (strlen (trim (before_hash rest)))); [reflexivity |].
    rewrite Hs. cbn [optype numops ops].
    change (rd [1; 0] 0) with 1. change (rd [1; 0] 1) with 0.
    destruct (make_icode m 1 0) as [k |]; [| reflexivity].
    destruct (im !! k) as [t |]; [| reflexivity].
    simpl. rewrite emit_two. reflexivity.
Qed.

(* the second pass takes the same course from two states that have the
   same line counter and know the same label names *)
Lemma pass2_line_base im raw s s' :
  linenum s' = linenum s ->
  (forall x, lblmap s' !! x = None <-> lblmap s !! x = None) ->
  same_course s s' (parse_line im true s raw) (parse_line im true s' raw).
Proof.
  intros Hl Hdom. unfold same_course, parse_line. cbv zeta.
  destruct (String.eqb (trim raw) ""); [simpl; lia |].
  destruct (starts_with "#" (trim raw)); [simpl; lia |].
  destruct (starts_with "@" (trim raw)); [simpl; lia |].
  destruct (regex_upto ":" (trim raw)); [simpl; lia |].
  destruct (read_mnemonic (trim raw)) as [m rest] eqn:Hm.
  destruct (is_jmp m) eqn:Hj.
  - rewrite !(parse_instruction_jump_gen im _ _ m rest Hm Hj). cbv zeta.
    assert (forall b b',
              match
                match make_icode m 1 0 with
                | None => Err (mkDiag InvalidMnemonic m (linenum s))
                | Some k =>
                    match im !! k with
                    | None =>
                        Err (mkDiag UnmappedInstruction (trim raw) (linenum s))
                    | Some t => Ok (emitted2 s t b)
                    end
                end,
                match make_icode m 1 0 with
                | None => Err (mkDiag InvalidMnemonic m (linenum s'))
                | Some k =>
                    match im !! k with
                    | None =>
                        Err (mkDiag UnmappedInstruction (trim raw) (linenum s'))
                    | Some t => Ok (emitted2 s' t b')
                    end
                end
              with
              | Ok t, Ok t' =>
                  linenum t' = linenum t
                  /\ caddr t' - caddr s' = caddr t - caddr s
              | Err d, Err d' => d = d'
              | _, _ => False
              end) as Hfin.
    { intros b b'. destruct (make_icode m 1 0) as [k |].
      - destruct (im !! k) as [t |]; [simpl; lia | rewrite Hl; reflexivity].
      - rewrite Hl. reflexivity. }
    destruct (lblmap s !! trim (before_hash rest)) as [a |] eqn:Ea,
             (lblmap s' !! trim (before_hash rest)) as [a' |] eqn:Ea'.
    + apply Hfin.
    + apply Hdom in Ea'. congruence.
    + apply Hdom in Ea. congruence.
    + destruct (Nat.ltb 2 (strlen (trim (before_hash rest))));
        [rewrite Hl; reflexivity | apply Hfin].
  - rewrite !(parse_instruction_plain im true _ _ m rest Hm) by exact Hj.
    destruct (scan_operands rest _) as [o |]; [| rewrite Hl; reflexivity].
    cbv zeta.
    destruct (make_icode m _ _) as [key |]; [| rewrite Hl; reflexivity].
    destruct (im !! key) as [t |]; [| rewrite Hl; reflexivity].
    match goal with
    | |- context [foldl (emit_byte true) (emit_byte true (set_mpc s t) t) ?bs] =>
        destruct (foldl_emit_frame true bs (emit_byte true (set_mpc s t) t))
          as (H1 & _ & _ & _ & _ & H6 & _);
        destruct (foldl_emit_frame true bs (emit_byte true (set_mpc s' t) t))
          as (H1' & _ & _ & _ & _ & H6' & _)
    end.
    simpl in *. rewrite H1, H1', H6, H6'. lia.
Qed.

Lemma pass2_lines_base im lines :
  forall s s',
    linenum s' = linenum s ->
    (forall x, lblmap s' !! x = None <-> lblmap s !! x = None) ->
    same_course s s' (parse_lines im true s lines) (parse_lines im true s' lines).
Proof.
  induction lines as [| l lines IH]; intros s s' Hl Hdom; simpl.
  - lia.
  - pose proof (pass2_line_base im l s s' Hl Hdom) as H.
    unfold same_course in H.
    destruct (parse_line im true s l) as [t | d] eqn:E,
             (parse_line im true s' l) as [t' | d'] eqn:E';
      try contradiction; [| exact H].
    destruct H as [Hl1 Hc1].
    apply parse_line_write_frame in E. destruct E as (Em & _).
    apply parse_line_write_frame in E'. destruct E' as (Em' & _).
    assert (forall x, lblmap t' !! x = None <-> lblmap t !! x = None) as Hdom1.
    { intros x. rewrite Em, Em'. apply Hdom. }
    pose proof (IH t t' Hl1 Hdom1) as H2. unfold same_course in *.
    destruct (parse_lines im true t lines), (parse_lines im true t' lines);
      try assumption.
    destruct H2 as [-> H2]. lia.
Qed.

(* the directive line is passed over by the second pass *)
Lemma base_addr_1F_pass2 im st :
  parse_line im true st "@base_addr=1F" = Ok st.
Proof. reflexivity. Qed.

(** C7, as the code has it. Let a program that is assembled have no
    directive line, and put the line [@base_addr=1F] in front of it. The
    program is assembled again. Every label address the first pass records
    is larger by 0x1F, modulo 256 as the table holds unsigned chars, and
    so is the final program address. The second pass starts at program
    address 0x1F, the value found by the first pass, where without the
    line it starts at 0: it writes as many bytes, the address of each is
    larger by 0x1F, and the [i]-th byte stands at address 0x1F + i. The
    byte count reported at the end is the final program address minus
    0x1F, which is the number of bytes written. *)
Theorem base_addr_1F_shift im mpc1 mpc2 rest s1 s2 :
  directive_lines rest = O ->
  parse im false mpc1 start rest = Ok s1 ->
  parse im true mpc2 s1 rest = Ok s2 ->
  exists s1' s2',
    parse im false mpc1 start ("@base_addr=1F" :: rest) = Ok s1'
    /\ parse im true mpc2 s1' ("@base_addr=1F" :: rest) = Ok s2'
    /\ lblmap s1' = (fun a => (a + 0x1F) mod 256) <$> lblmap s1
    /\ caddr s1' = caddr s1 + 0x1F
    /\ base_addr (directives s1') = 0x1F
    /\ caddr (enter true mpc2 s1) = 0
    /\ caddr (enter true mpc2 s1') = 0x1F
    /\ length (out s2') = length (out s2)
    /\ (forall i : nat,
          fst <$> (listing s2' !! i)
          = (fun p => p.1 + 0x1F) <$> (listing s2 !! i))
    /\ (forall i : nat,
          listing s2' !! i
          = (fun x => (0x1F + Z.of_nat i, x)) <$> (out s2' !! i))
    /\ caddr s2' = caddr s2 + 0x1F
    /\ reported_bytes s2' = caddr s2' - 0x1F
    /\ reported_bytes s2' = Z.of_nat (length (out s2'))
    /\ main im mpc1 mpc2 ("@base_addr=1F" :: rest)
       = mkOutcome false (Some (out s2')) None (listing s2')
                   (Some (caddr s2' - 0x1F)).
Proof.
  intros Hn H1 H2.
  (* the first pass *)
  assert (shifted 0x1F (enter false mpc1 start) after_1F) as Hs.
  { unfold shifted. simpl. rewrite fmap_empty. repeat split. }
  pose proof (pass1_lines_shift im 0x1F rest Hn _ _ Hs) as Hsim.
  pose proof (pass1_with_1F im mpc1 rest) as H1'.
  unfold parse in H1. rewrite H1 in Hsim. unfold simulates in Hsim.
  destruct (parse_lines im false after_1F rest) as [s1' |] eqn:E1;
    [| contradiction].
  destruct Hsim as ((Hc & _ & Hm) & Hd & Ha). simpl in Hd, Ha.
  pose proof (parse_lines_pass1_frame im rest _ _ H1) as (Ho & Hli & Hfr).
  destruct (Hfr Hn) as [_ Ha1]. simpl in Ho, Hli, Ha1.
  pose proof (parse_lines_pass1_frame im rest _ _ E1) as (Ho' & Hli' & _).
  simpl in Ho', Hli'.
  assert (base_addr (directives s1') = 0x1F) as Hb by (rewrite Hd; reflexivity).
  assert (caddr (enter true mpc2 s1) = 0) as Hc0.
  { unfold enter. rewrite Ha1. reflexivity. }
  assert (caddr (enter true mpc2 s1') = 0x1F) as Hc1.
  { unfold enter. rewrite Ha, Hb. reflexivity. }
  (* the second pass *)
  assert (linenum (enter true mpc2 s1') = linenum (enter true mpc2 s1)) as Hl.
  { rewrite !enter_linenum. reflexivity. }
  assert (forall x, lblmap (enter true mpc2 s1') !! x = None
                    <-> lblmap (enter true mpc2 s1) !! x = None) as Hdom.
  { intros x. rewrite !enter_lblmap, Hm, lookup_fmap, fmap_None. reflexivity. }
  pose proof (pass2_lines_base im rest _ _ Hl Hdom) as Hsim2.
  unfold parse in H2. rewrite H2 in Hsim2. unfold same_course in Hsim2.
  destruct (parse_lines im true (enter true mpc2 s1') rest) as [s2' |] eqn:E3;
    [| contradiction].
  destruct Hsim2 as [_ Hadv]. rewrite Hc0, Hc1 in Hadv.
  assert (parse im true mpc2 s1' ("@base_addr=1F" :: rest)
          = parse_lines im true (enter true mpc2 s1') rest) as E2.
  { unfold parse. cbn [parse_lines]. rewrite base_addr_1F_pass2. reflexivity. }
  rewrite <- E2 in E3.
  destruct (pass2_addressed im mpc2 s1 rest s2 0 Ho Hli Hc0 H2) as [[Hca Hi] _].
  destruct (pass2_addressed im mpc2 s1' _ s2' 0x1F Ho' Hli' Hc1 E3)
    as [[Hca' Hi'] Hd2].
  assert (reported_bytes s2' = caddr s2' - 0x1F) as Hr.
  { unfold reported_bytes. rewrite Hd2, Hb. reflexivity. }
  assert (length (out s2') = length (out s2)) as Hlen by lia.
  exists s1', s2'.
  split; [exact H1' |]. split; [exact E3 |].
  split; [exact Hm |]. split; [exact Hc |]. split; [exact Hb |].
  split; [exact Hc0 |]. split; [exact Hc1 |]. split; [exact Hlen |].
  split.
  { intros i. rewrite Hi, Hi'.
    destruct (Nat.lt_ge_cases i (length (out s2))) as [Hlt | Hge].
    - destruct (lookup_lt_is_Some_2 (out s2) i Hlt) as [x ->].
      destruct (lookup_lt_is_Some_2 (out s2') i) as [x' ->]; [lia |].
      simpl. f_equal. lia.
    - rewrite (lookup_ge_None_2 (out s2)) by lia.
      rewrite (lookup_ge_None_2 (out s2')) by lia. reflexivity. }
  split; [exact Hi' |]. split; [lia |]. split; [exact Hr |].
  split; [rewrite Hr; lia |].
  unfold main. rewrite H1', E3, Hr. reflexivity.
Qed.

Lemma base_addr_1F_shift_witness :
  let s1 := state_of (parse imap false 0 start two_labels) in
  let s2 := state_of (parse imap true 0 s1 two_labels) in
  (directive_lines two_labels = O
   /\ parse imap false 0 start two_labels = Ok s1
   /\ parse imap true 0 s1 two_labels = Ok s2
   /\ lblmap s1 !! "la" = Some 0 /\ lblmap s1 !! "lb" = Some 1
   /\ listing s2 = [(0, 0x03); (1, 0x50); (2, 0x00); (3, 0x80); (4, 0xFC)])
  /\ exists s1' s2',
       parse imap false 0 start ("@base_addr=1F" :: two_labels) = Ok s1'
       /\ parse imap true 0 s1' ("@base_addr=1F" :: two_labels) = Ok s2'
       /\ lblmap s1' = (fun a => (a + 0x1F) mod 256) <$> lblmap s1
       /\ caddr s1' = caddr s1 + 0x1F
       /\ base_addr (directives s1') = 0x1F
       /\ caddr (enter true 0 s1) = 0
       /\ caddr (enter true 0 s1') = 0x1F
       /\ length (out s2') = length (out s2)
       /\ (forall i : nat,
             fst <$> (listing s2' !! i)
             = (fun p => p.1 + 0x1F) <$> (listing s2 !! i))
       /\ (forall i : nat,
             listing s2' !! i
             = (fun x => (0x1F + Z.of_nat i, x)) <$> (out s2' !! i))
       /\ caddr s2' = caddr s2 + 0x1F
       /\ reported_bytes s2' = caddr s2' - 0x1F
       /\ reported_bytes s2' = Z.of_nat (length (out s2'))
       /\ main imap 0 0 ("@base_addr=1F" :: two_labels)
          = mkOutcome false (Some (out s2')) None (listing s2')
                      (Some (caddr s2' - 0x1F)).
Proof.
  split.
  - vm_compute. repeat split.
  - apply (base_addr_1F_shift imap 0 0 two_labels); vm_compute; reflexivity.
Defined.

(** C7 as stated fails for a program with a [base_addr] directive of its
    own: in front of [second_base] the line [@base_addr=1F] does add 0x1F
    to the recorded address of [la] (0x4F for 0x30), but the second pass
    starts at 0x30, the value of the last directive, so each byte is
    written at the address it has without the line, not 0x1F higher, and
    the first byte stands at 0x30, not at 0x1F. *)
Lemma second_base_addr_counterexample :
  let r := main imap 0 0 second_base in
  let r' := main imap 0 0 ("@base_addr=1F" :: second_base) in
  exit_failure r = false /\ exit_failure r' = false
  /\ lblmap (state_of (parse imap false 0 start second_base)) !! "la"
     = Some 0x30
  /\ lblmap (state_of (parse imap false 0 start ("@base_addr=1F" :: second_base)))
       !! "la" = Some 0x4F
  /\ stdout r = [(0x30, 0x03); (0x31, 0x50); (0x32, 0x30)]
  /\ stdout r' = [(0x30, 0x03); (0x31, 0x50); (0x32, 0x4F)]
  /\ fst <$> (stdout r' !! 0%nat) <> (fun p => p.1 + 0x1F) <$> (stdout r !! 0%nat)
  /\ fst <$> (stdout r' !! 0%nat) <> Some 0x1F.
Proof.
  vm_compute. repeat split; intros H; discriminate H.
Qed.

(** The run of such a program, with and without the directive. *)
Example base_addr_1F_program :
  main imap 0 0 ["@base_addr=1F"; "la:"; "HLT"; "lb:"; "JMP la"; "BR lb"]
  = mkOutcome false (Some [0x03; 0x50; 0x1F; 0x80; 0xFC]) None
      [(0x1F, 0x03); (0x20, 0x50); (0x21, 0x1F); (0x22, 0x80); (0x23, 0xFC)]
      (Some 5)
  /\ main imap 0 0 ["la:"; "HLT"; "lb:"; "JMP la"; "BR lb"]
     = mkOutcome false (Some [0x03; 0x50; 0x00; 0x80; 0xFC]) None
         [(0, 0x03); (1, 0x50); (2, 0x00); (3, 0x80); (4, 0xFC)]
         (Some 5).
Proof. split; reflexivity. Qed.

(** * Further properties of the code *)

(** ** Hex digits beyond two *)

Lemma shift_in_mod x c : shift_in x c = (16 * x + nibble c) mod 256.
Proof.
  rewrite shift_in_eq. pose proof (nibble_range c).
  Z.div_mod_to_equations. lia.
Qed.

Lemma hex_value_from_mod s a :
  hex_value_from s a mod 256 = hex_value_from s (a mod 256) mod 256.
Proof.
  revert a. induction s as [| c s IH]; intros a; simpl.
  - rewrite Z.mod_mod by lia. reflexivity.
  - rewrite (IH (16 * a + hex_digit_value c)).
    rewrite (IH (16 * (a mod 256) + hex_digit_value c)).
    f_equal. f_equal.
    rewrite (Z.add_mod (16 * a)), (Z.add_mod (16 * (a mod 256))) by lia.
    rewrite (Z.mul_mod 16 a), (Z.mul_mod 16 (a mod 256)) by lia.
    rewrite Z.mod_mod by lia. reflexivity.
Qed.

Lemma hex_value_from_pow s a :
  hex_value_from s a = a * 16 ^ Z.of_nat (strlen s) + hex_value s.
Proof.
  unfold hex_value. revert a. induction s as [| c s IH]; intros a.
  - simpl. lia.
  - cbn [hex_value_from strlen String.length].
    rewrite (IH (16 * a + hex_digit_value c)), (IH (16 * 0 + hex_digit_value c)).
    rewrite Nat2Z.inj_succ, Z.pow_succ_r by lia. unfold strlen. ring.
Qed.

Lemma accumulated_step c s v :
  is_hex_char c = true ->
  accumulated s (shift_in v (toupper c)) = accumulated (String c s) v.
Proof.
  intros Hc. unfold accumulated. cbn [hex_value_from].
  rewrite shift_in_mod, (hex_char_nibble c Hc).
  destruct s as [| c' s']; [reflexivity |].
  rewrite <- hex_value_from_mod. reflexivity.
Qed.

Lemma accumulated_cases s v :
  (strlen s = 0%nat -> accumulated s v = v)
  /\ (strlen s = 1%nat -> accumulated s v = (16 * v + hex_value s) mod 256)
  /\ ((2 <= strlen s)%nat -> accumulated s v = hex_value s mod 256).
Proof.
  unfold accumulated. split; [| split].
  - destruct s; [reflexivity | discriminate].
  - destruct s as [| c [| c' s']]; try discriminate. intros _.
    unfold hex_value. simpl. first [reflexivity | f_equal; lia].
  - intros H. destruct s as [| c [| c' s']]; [simpl in H; lia | simpl in H; lia |].
    clear H. set (t := String c (String c' s')).
    rewrite (hex_value_from_pow t v).
    assert (exists k, 16 ^ Z.of_nat (strlen t) = 256 * k) as [k Hk].
    { exists (16 ^ Z.of_nat (strlen s')). unfold t.
      cbn [strlen String.length]. rewrite !Nat2Z.inj_succ.
      rewrite !Z.pow_succ_r by lia. unfold strlen. lia. }
    rewrite Hk. replace (v * (256 * k) + hex_value t)
      with (hex_value t + (v * k) * 256) by lia.
    apply Z.mod_add. lia.
Qed.

Lemma hex_char_not_blank c :
  is_hex_char c = true -> Ascii.eqb c " " = false.
Proof. ascii_cases c. Qed.

Lemma load_mpc_hex s v :
  all_chars is_hex_char s = true -> load_mpc s v = Some (accumulated s v).
Proof.
  revert v. induction s as [| c s IH]; intros v H; [reflexivity |].
  simpl in H. apply andb_prop in H as [Hc Hs].
  cbn [load_mpc]. unfold is_hex_char in Hc. rewrite Hc.
  rewrite (IH _ Hs). f_equal. apply accumulated_step. exact Hc.
Qed.

Lemma load_mpc_not_hex s v :
  all_chars is_hex_char s = false -> load_mpc s v = None.
Proof.
  revert v. induction s as [| c s IH]; intros v H; [discriminate |].
  simpl in H. cbn [load_mpc]. unfold is_hex_char in H.
  destruct (is_hex (toupper c)); [| reflexivity]. apply IH. exact H.
Qed.

Lemma scan_value_hex s v :
  all_chars is_hex_char s = true -> scan_value s v = Some (accumulated s v).
Proof.
  revert v. induction s as [| c s IH]; intros v H; [reflexivity |].
  simpl in H. apply andb_prop in H as [Hc Hs].
  cbn [scan_value]. rewrite toupper_eqb_space, toupper_eqb_hash.
  rewrite (hex_char_not_blank c Hc).
  destruct (hex_char_plain c Hc) as (_ & -> & _).
  unfold is_hex_char in Hc. rewrite Hc.
  rewrite (IH _ Hs). f_equal. apply accumulated_step. exact Hc.
Qed.

(** ** Directive lines *)

Lemma directive_line_parts raw :
  is_directive_line raw = true ->
  String.eqb (trim raw) "" = false /\ starts_with "#" (trim raw) = false
  /\ starts_with "@" (trim raw) = true.
Proof.
  unfold is_directive_line. cbv zeta.
  destruct (String.eqb (trim raw) ""); [discriminate |].
  destruct (starts_with "#" (trim raw)); [discriminate |].
  destruct (starts_with "@" (trim raw)); [auto | discriminate].
Qed.

Lemma parse_line_directive im st raw :
  is_directive_line raw = true ->
  parse_line im false st raw = parse_directive st (trim raw).
Proof.
  intros H. destruct (directive_line_parts raw H) as (H1 & H2 & H3).
  unfold parse_line. cbv zeta. rewrite H1, H2, H3. reflexivity.
Qed.

(** X1. A [base_addr] directive whose value text is made of hex digits
    succeeds and sets the base address, the local [mpc] and the offset
    added to the program address to the same byte [x], computed by
    shifting the digits into what [mpc] held before: with two or more
    digits [x] is given by the last two; with one digit the high nibble of
    [x] is the low nibble of the previous [mpc] (the opcode target of the
    last instruction line, or whatever the uninitialised variable held);
    with no digit at all [x] is the previous [mpc]. *)
Theorem base_addr_directive im st raw :
  is_directive_line raw = true ->
  directive_name raw = "base_addr" ->
  is_Some (directives st !! "base_addr") ->
  all_chars is_hex_char (directive_value raw) = true ->
  let v := directive_value raw in
  let x := accumulated v (mpc st) in
  parse_line im false st raw =
    Ok (mkState (caddr st + x) (linenum st) x (lblmap st)
                (<["base_addr" := x]> (directives st)) true
                (out st) (listing st))
  /\ (strlen v = 0%nat -> x = mpc st)
  /\ (strlen v = 1%nat -> x = (16 * mpc st + hex_value v) mod 256)
  /\ ((2 <= strlen v)%nat -> x = hex_value v mod 256).
Proof.
  intros Hd Hn [b Hb] Hhex v x. split; [| apply accumulated_cases].
  rewrite parse_line_directive by assumption.
  unfold parse_directive, directive_name, directive_value in *.
  cbv zeta in *.
  destruct (regex_upto "=" (trim raw)) as [m |]; [| discriminate].
  rewrite Hn, Hb. subst v x.
  rewrite (scan_value_hex _ _ Hhex). reflexivity.
Qed.

Lemma base_addr_directive_witness :
  let st := mkState 1 2 0x03 ∅ directives_init false [] [] in
  parse_line imap false st " @base_addr = 5" =
    Ok (mkState (1 + 0x35) 2 0x35 ∅ (<["base_addr" := 0x35]> directives_init)
                true [] [])
  /\ (strlen "5" = 0%nat -> 0x35 = 0x03)
  /\ (strlen "5" = 1%nat -> 0x35 = (16 * 0x03 + hex_value "5") mod 256)
  /\ ((2 <= strlen "5")%nat -> 0x35 = hex_value "5" mod 256).
Proof.
  apply (base_addr_directive imap
           (mkState 1 2 0x03 ∅ directives_init false [] []) " @base_addr = 5");
    first [reflexivity | (eexists; reflexivity)].
Defined.

(** After an instruction line, a one-digit base address is not the digit. *)
Example one_digit_base_addr :
  main imap 0 0 ["HLT"; "@base_addr=5"; "HLT"]
  = mkOutcome false (Some [0x03; 0x03]) None [(0x35, 0x03); (0x36, 0x03)]
              (Some 2).
Proof. reflexivity. Qed.

(* the directive store never gets another key *)
Lemma parse_line_directive_keys im write st raw st' :
  parse_line im write st raw = Ok st' ->
  forall k, is_Some (directives st' !! k) <-> is_Some (directives st !! k).
Proof.
  intros H k.
  destruct (is_directive_line raw) eqn:Hd.
  - destruct write.
    + apply parse_line_write_frame in H. destruct H as (_ & -> & _). reflexivity.
    + rewrite parse_line_directive in H by assumption.
      unfold parse_directive in H. cbv zeta in H.
      destruct (regex_upto "=" (trim raw)) as [m |]; [| discriminate].
      set (lbl := trim (substr m 1 (strlen m - 2))) in *.
      destruct (directives st !! lbl) as [old |] eqn:Hl; [| discriminate].
      destruct (scan_value _ (mpc st)) as [v |]; [| discriminate].
      assert (directives st' = <[lbl := v]> (directives st)) as ->.
      { destruct (String.eqb lbl "base_addr"); injection H as <-; reflexivity. }
      destruct (decide (lbl = k)) as [<- | Hne].
      * rewrite lookup_insert_eq, Hl. split; eauto.
      * rewrite lookup_insert_ne by assumption. reflexivity.
  - destruct write.
    + apply parse_line_write_frame in H. destruct H as (_ & -> & _). reflexivity.
    + apply parse_line_pass1_frame in H. destruct H as (_ & _ & H).
      destruct (H Hd) as [-> _]. reflexivity.
Qed.

Lemma parse_lines_directive_keys im write lines st st' :
  parse_lines im write st lines = Ok st' ->
  forall k, is_Some (directives st' !! k) <-> is_Some (directives st !! k).
Proof.
  revert st. induction lines as [| l lines IH]; intros st; simpl.
  - intros [= <-]. reflexivity.
  - destruct (parse_line im write st l) as [st1 |] eqn:H1; [| discriminate].
    intros H k. rewrite (IH st1 H k).
    apply (parse_line_directive_keys im write st l st1 H1).
Qed.

Lemma pass1_only_base_addr im mpc1 pre u k :
  parse im false mpc1 start pre = Ok u ->
  is_Some (directives u !! k) <-> k = "base_addr".
Proof.
  intros H. unfold parse in H.
  rewrite (parse_lines_directive_keys im false pre _ u H k).
  change (directives (enter false mpc1 start)) with directives_init.
  unfold directives_init. split.
  - intros [v Hv]. apply lookup_singleton_Some in Hv. destruct Hv as [-> _].
    reflexivity.
  - intros ->. rewrite lookup_singleton_eq. eauto.
Qed.

(* the value loop fails exactly on a character, before any '#', that is
   neither a hex digit nor a space *)
Lemma scan_value_none s v :
  scan_value s v = None
  <-> all_chars (fun c => is_hex_char c || Ascii.eqb c " ") (before_hash s) = false.
Proof.
  revert v. induction s as [| c s IH]; intros v; simpl.
  - split; intros H; discriminate H.
  - rewrite toupper_eqb_space, toupper_eqb_hash.
    destruct (Ascii.eqb c "#") eqn:Hh.
    { apply Ascii.eqb_eq in Hh. subst c. simpl. split; intros H; discriminate H. }
    simpl. unfold is_hex_char at 1.
    destruct (Ascii.eqb c " ") eqn:Hs.
    { rewrite orb_true_r. simpl. apply IH. }
    rewrite orb_false_r. destruct (is_hex (toupper c)); simpl.
    + apply IH.
    + split; reflexivity.
Qed.

Lemma pass1_line_fails im mpc1 mpc2 pre raw post u d :
  parse im false mpc1 start pre = Ok u ->
  parse_line im false u raw = Err d ->
  main im mpc1 mpc2 (pre ++ raw :: post) = mkOutcome true None (Some d) [] None.
Proof.
  intros Hpre Hraw. apply main_pass1_err. unfold parse in *.
  rewrite parse_lines_app, Hpre. simpl. rewrite Hraw. reflexivity.
Qed.

(** X2. A directive line of the first pass, reached without error from the
    start of the program, is an error that ends the run and removes the
    output file in each of these cases: the line has no [=] ("Invalid
    assembler directive assignment"); its name is not [base_addr]
    ("Invalid assembler directive", whatever directives came before: the
    store never gets a second name); its name is [base_addr] and the value
    has, before any [#], a character that is neither a hex digit nor a
    space ("Invalid hex value", which quotes the value). *)
Theorem directive_errors im mpc1 mpc2 pre raw post u :
  is_directive_line raw = true ->
  parse im false mpc1 start pre = Ok u ->
  let fails d :=
    parse_line im false u raw = Err d
    /\ main im mpc1 mpc2 (pre ++ raw :: post)
       = mkOutcome true None (Some d) [] None in
  (has_assignment raw = false ->
   fails (mkDiag InvalidDirectiveAssignment (trim raw) (linenum u)))
  /\ (has_assignment raw = true -> directive_name raw <> "base_addr" ->
      fails (mkDiag InvalidDirective (trim raw) (linenum u)))
  /\ (directive_name raw = "base_addr" ->
      all_chars (fun c => is_hex_char c || Ascii.eqb c " ")
                (before_hash (directive_value raw)) = false ->
      fails (mkDiag InvalidHexValue (directive_value raw) (linenum u))).
Proof.
  intros Hd Hpre fails.
  assert (forall d, parse_line im false u raw = Err d -> fails d) as Hf.
  { intros d H. split; [exact H |].
    apply (pass1_line_fails im mpc1 mpc2 pre raw post u d Hpre H). }
  pose proof (fun k => pass1_only_base_addr im mpc1 pre u k Hpre) as Hkeys.
  split; [| split].
  - intros Ha. apply Hf. rewrite parse_line_directive by assumption.
    unfold has_assignment in Ha. unfold parse_directive.
    destruct (regex_upto "=" (trim raw)); [discriminate | reflexivity].
  - intros Ha Hn. apply Hf. rewrite parse_line_directive by assumption.
    unfold has_assignment in Ha. unfold parse_directive, directive_name in *.
    destruct (regex_upto "=" (trim raw)) as [m |]; [| discriminate].
    cbv zeta.
    destruct (directives u !! trim (substr m 1 (strlen m - 2))) eqn:Hl;
      [| reflexivity].
    exfalso. apply Hn. apply Hkeys. eauto.
  - intros Hn Hv. apply Hf. rewrite parse_line_directive by assumption.
    unfold parse_directive, directive_name, directive_value in *.
    cbv zeta in *.
    destruct (regex_upto "=" (trim raw)) as [m |]; [| discriminate].
    rewrite Hn.
    destruct (proj2 (Hkeys "base_addr") eq_refl) as [b ->].
    apply scan_value_none with (v := mpc u) in Hv. rewrite Hv. reflexivity.
Qed.

Lemma directive_errors_witness :
  let u := mkState 1 2 0x03 ∅ directives_init false [] [] in
  let fails raw d :=
    parse_line imap false u raw = Err d
    /\ main imap 0 0 (["HLT"] ++ raw :: ["HLT"])
       = mkOutcome true None (Some d) [] None in
  fails "@base_addr 1F" (mkDiag InvalidDirectiveAssignment "@base_addr 1F" 2)
  /\ fails "@origin=1F" (mkDiag InvalidDirective "@origin=1F" 2)
  /\ fails "@base_addr=0x1F" (mkDiag InvalidHexValue "0x1F" 2).
Proof.
  split; [| split].
  - refine (proj1 (directive_errors imap 0 0 ["HLT"] "@base_addr 1F" ["HLT"]
                     (mkState 1 2 0x03 ∅ directives_init false [] []) _ _) _);
      reflexivity.
  - refine (proj1 (proj2 (directive_errors imap 0 0 ["HLT"] "@origin=1F" ["HLT"]
                     (mkState 1 2 0x03 ∅ directives_init false [] []) _ _)) _ _);
      first [reflexivity | (intros H; discriminate H)].
  - refine (proj2 (proj2 (directive_errors imap 0 0 ["HLT"] "@base_addr=0x1F" ["HLT"]
                     (mkState 1 2 0x03 ∅ directives_init false [] []) _ _)) _ _);
      reflexivity.
Defined.

(** ** Operands of ordinary instructions *)

Lemma hex_char_operand c :
  is_hex_char c = true ->
  Ascii.eqb c " " = false /\ Ascii.eqb c "#" = false
  /\ Ascii.eqb c "$" = false /\ Ascii.eqb c "," = false.
Proof. ascii_cases c; intros; repeat split; discriminate. Qed.

Lemma append_cons c s r : String c s +:+ r = String c (s +:+ r).
Proof. reflexivity. Qed.

Lemma append_nil r : EmptyString +:+ r = r.
Proof. reflexivity. Qed.

Lemma set_type_twice t : set_type (set_type t) = set_type t.
Proof. unfold set_type. destruct (t =? 0) eqn:H; [reflexivity | rewrite H; reflexivity]. Qed.

(* the operand loop over a hex numeral, for operand 1 and for operand 2 *)
Lemma scan_operands_hex_0 h c rest a0 a1 t0 t1 :
  all_chars is_hex_char (String c h) = true ->
  scan_operands (String c h +:+ rest) (mkOps 0 [a0; a1] [t0; t1])
  = scan_operands rest
      (mkOps 0 [accumulated (String c h) a0; a1] [set_type t0; t1]).
Proof.
  revert c a0 t0. induction h as [| c2 h IH]; intros c a0 t0 H;
    simpl in H; apply andb_prop in H as [Hc Hh];
    destruct (hex_char_operand c Hc) as (H1 & H2 & H3 & H4);
    rewrite append_cons; cbn [scan_operands];
    rewrite toupper_eqb_space, toupper_eqb_hash, toupper_eqb_dollar,
      toupper_eqb_comma, H1, H2, H3, H4;
    pose proof Hc as Hc'; unfold is_hex_char in Hc'; rewrite Hc';
    cbn [numops ops optype];
    change (rd [a0; a1] 0) with a0; change (rd [t0; t1] 0) with t0;
    change (<[0%nat := shift_in a0 (toupper c)]> [a0; a1])
      with [shift_in a0 (toupper c); a1];
    change (<[0%nat := 1]> [t0; t1]) with [1; t1];
    assert ((if t0 =? 0 then [1; t1] else [t0; t1]) = [set_type t0; t1]) as ->
      by (unfold set_type; destruct (t0 =? 0); reflexivity);
    rewrite <- (accumulated_step c _ a0 Hc).
  - rewrite append_nil. reflexivity.
  - rewrite (IH c2 _ _ Hh), set_type_twice. reflexivity.
Qed.

Lemma scan_operands_hex_1 h c rest a0 a1 t0 t1 :
  all_chars is_hex_char (String c h) = true ->
  scan_operands (String c h +:+ rest) (mkOps 1 [a0; a1] [t0; t1])
  = scan_operands rest
      (mkOps 1 [a0; accumulated (String c h) a1] [t0; set_type t1]).
Proof.
  revert c a1 t1. induction h as [| c2 h IH]; intros c a1 t1 H;
    simpl in H; apply andb_prop in H as [Hc Hh];
    destruct (hex_char_operand c Hc) as (H1 & H2 & H3 & H4);
    rewrite append_cons; cbn [scan_operands];
    rewrite toupper_eqb_space, toupper_eqb_hash, toupper_eqb_dollar,
      toupper_eqb_comma, H1, H2, H3, H4;
    pose proof Hc as Hc'; unfold is_hex_char in Hc'; rewrite Hc';
    cbn [numops ops optype];
    change (rd [a0; a1] 1) with a1; change (rd [t0; t1] 1) with t1;
    change (<[1%nat := shift_in a1 (toupper c)]> [a0; a1])
      with [a0; shift_in a1 (toupper c)];
    change (<[1%nat := 1]> [t0; t1]) with [t0; 1];
    assert ((if t1 =? 0 then [t0; 1] else [t0; t1]) = [t0; set_type t1]) as ->
      by (unfold set_type; destruct (t1 =? 0); reflexivity);
    rewrite <- (accumulated_step c _ a1 Hc).
  - rewrite append_nil. reflexivity.
  - rewrite (IH c2 _ _ Hh), set_type_twice. reflexivity.
Qed.

Lemma append_nil_r s : s +:+ EmptyString = s.
Proof. induction s as [| c s IH]; [reflexivity |]. rewrite append_cons, IH. reflexivity. Qed.

Lemma operand_ok_hex o :
  operand_ok o = true ->
  exists c h, operand_hex o = String c h
              /\ all_chars is_hex_char (String c h) = true
              /\ accumulated (String c h) 0 = operand_byte o.
Proof.
  unfold operand_ok, operand_byte. intros H. apply andb_prop in H as [Hh Hn].
  destruct (operand_hex o) as [| c h]; [discriminate |].
  exists c, h. repeat split. exact Hh.
Qed.

(* the operand loop over one written operand, at position 0 and 1 *)
Lemma scan_operand_0 o rest :
  operand_ok o = true ->
  scan_operands (operand_src o +:+ rest) (mkOps 0 [0; 0] [0; 0])
  = scan_operands rest (mkOps 0 [operand_byte o; 0] [operand_type o; 0]).
Proof.
  intros H. destruct (operand_ok_hex o H) as (c & h & He & Hh & <-).
  destruct o as [x | x]; simpl in He; subst x; simpl operand_src.
  - rewrite (scan_operands_hex_0 h c rest 0 0 0 0 Hh). reflexivity.
  - rewrite append_cons. cbn [scan_operands].
    change (toupper "$") with "$"%char. cbn [Ascii.eqb Bool.eqb numops optype ops].
    change (<[0%nat := 2]> [0; 0]) with [2; 0].
    rewrite (scan_operands_hex_0 h c rest 0 0 2 0 Hh). reflexivity.
Qed.

Lemma scan_operand_1 o rest a0 t0 :
  operand_ok o = true ->
  scan_operands (operand_src o +:+ rest) (mkOps 1 [a0; 0] [t0; 0])
  = scan_operands rest (mkOps 1 [a0; operand_byte o] [t0; operand_type o]).
Proof.
  intros H. destruct (operand_ok_hex o H) as (c & h & He & Hh & <-).
  destruct o as [x | x]; simpl in He; subst x; simpl operand_src.
  - rewrite (scan_operands_hex_1 h c rest a0 0 t0 0 Hh). reflexivity.
  - rewrite append_cons. cbn [scan_operands].
    change (toupper "$") with "$"%char. cbn [Ascii.eqb Bool.eqb numops optype ops].
    change (<[1%nat := 2]> [t0; 0]) with [t0; 2].
    rewrite (scan_operands_hex_1 h c rest a0 0 t0 2 Hh). reflexivity.
Qed.

Lemma scan_operands_src os :
  forallb operand_ok os = true -> (length os <= 2)%nat ->
  scan_operands (operands_src os) (mkOps 0 [0; 0] [0; 0])
  = Some (mkOps (length os - 1)
                [default 0 (operand_byte <$> os !! 0%nat);
                 default 0 (operand_byte <$> os !! 1%nat)]
                [type_at os 0; type_at os 1]).
Proof.
  intros Hok Hlen.
  destruct os as [| a [| b [| c os]]]; simpl in Hlen; try lia.
  - reflexivity.
  - simpl in Hok. apply andb_prop in Hok as [Ha _].
    simpl operands_src. rewrite <- (append_nil_r (operand_src a)).
    rewrite (scan_operand_0 a "" Ha). reflexivity.
  - simpl in Hok. apply andb_prop in Hok as [Ha Hb].
    apply andb_prop in Hb as [Hb _].
    simpl operands_src. rewrite (scan_operand_0 a _ Ha).
    rewrite 2!append_cons, append_nil. cbn [scan_operands].
    change (toupper ",") with ","%char. change (toupper " ") with " "%char.
    cbn [Ascii.eqb Bool.eqb numops optype ops Nat.eqb].
    rewrite <- (append_nil_r (operand_src b)).
    rewrite (scan_operand_1 b "" _ _ Hb). reflexivity.
Qed.

Lemma operand_type_nonzero o : (operand_type o =? 0) = false.
Proof. destruct o; reflexivity. Qed.

Lemma parse_line_operands im st raw os t :
  is_instruction_line raw = true ->
  is_jmp (mnemonic_of raw) = false ->
  operand_text raw = operands_src os ->
  forallb operand_ok os = true ->
  (length os <= 2)%nat ->
  key_target im (mnemonic_of raw) (type_at os 0) (type_at os 1) = Some t ->
  exists st',
    parse_line im true st raw = Ok st'
    /\ out st' = out st ++ t :: (operand_byte <$> os)
    /\ caddr st' = caddr st + 1 + Z.of_nat (length os)
    /\ linenum st' = linenum st + 1
    /\ lblmap st' = lblmap st.
Proof.
  intros Hi Hj Ht Hok Hlen Hk. rewrite parse_line_instruction by assumption.
  unfold mnemonic_of, operand_text, key_target in *.
  destruct (read_mnemonic (trim raw)) as [m rest] eqn:Hm. simpl in *. subst rest.
  rewrite (parse_instruction_plain im true st _ m _ Hm)
    by (rewrite Hj; reflexivity).
  rewrite (scan_operands_src os Hok Hlen). cbv zeta. cbn [optype numops ops].
  change (rd [type_at os 0; type_at os 1] 0) with (type_at os 0).
  change (rd [type_at os 0; type_at os 1] 1) with (type_at os 1).
  destruct (make_icode m (type_at os 0) (type_at os 1)) as [k |]; [| discriminate].
  rewrite Hk. eexists. split; [reflexivity |].
  destruct os as [| a [| b [| c os]]]; simpl in Hlen; try lia;
    unfold type_at; simpl; rewrite ?operand_type_nonzero; simpl;
    rewrite <- ?app_assoc; simpl; repeat split; lia.
Qed.


(** X3. An ordinary (not jump or branch) instruction line of the second
    pass whose operand text is zero, one or two operands, each a hex
    numeral with or without [$], the two separated by a comma and a space,
    is assembled to the map entry for its mnemonic and operand types,
    followed by one byte per operand: the value of the numeral modulo 256,
    that is, its last two digits. The program address advances by one per
    byte. *)
Theorem operands_assembled im st raw os t :
  is_instruction_line raw = true ->
  is_jmp (mnemonic_of raw) = false ->
  operand_text raw = operands_src os ->
  forallb operand_ok os = true ->
  (length os <= 2)%nat ->
  key_target im (mnemonic_of raw) (type_at os 0) (type_at os 1) = Some t ->
  exists st',
    parse_line im true st raw = Ok st'
    /\ out st' = out st ++ t :: (operand_byte <$> os)
    /\ caddr st' = caddr st + 1 + Z.of_nat (length os)
    /\ linenum st' = linenum st + 1
    /\ lblmap st' = lblmap st.
Proof. apply parse_line_operands. Qed.

Lemma operands_assembled_witness :
  exists st',
    parse_line imap true start "mov $1FF04, 3" = Ok st'
    /\ out st' = out start ++ 0x04 :: (operand_byte <$> [Dir "1FF04"; Imm "3"])
    /\ caddr st' = caddr start + 1 + Z.of_nat (length [Dir "1FF04"; Imm "3"])
    /\ linenum st' = linenum start + 1
    /\ lblmap st' = lblmap start.
Proof.
  apply (operands_assembled imap start "mov $1FF04, 3"
           [Dir "1FF04"; Imm "3"] 0x04); try reflexivity.
Defined.

(** ** The mapping configuration *)

Lemma load_line_entry raw :
  is_conf_entry_line raw = true ->
  load_line raw =
    match load_operands (conf_pattern raw) 0 [0; 0] [] with
    | None => ConfExit LoadLeadingComma
    | Some (_, ty, bad) =>
        match make_icode (conf_mnemonic raw) (rd ty 0) (rd ty 1) with
        | None => ConfExit LoadInvalidMnemonic
        | Some icode =>
            match load_mpc (conf_value raw) 0 with
            | None => ConfExit LoadInvalidMPC
            | Some mpc => ConfEntry icode mpc bad
            end
        end
    end.
Proof.
  unfold is_conf_entry_line, load_line, conf_pattern, conf_mnemonic,
    conf_instr, conf_value. cbv zeta.
  destruct (String.eqb (trim raw) ""); [discriminate |].
  destruct (starts_with "#" (trim raw)); [discriminate |].
  destruct (regex_upto ":" (trim raw)) as [m |]; [| discriminate].
  intros _. destruct (read_mnemonic _) as [mn rest]. reflexivity.
Qed.

Lemma load_operands_rejects s n ty bad r :
  load_operands s n ty bad = Some r -> r.2 = bad ++ pattern_rejects s.
Proof.
  revert n ty bad. induction s as [| c s IH]; intros n ty bad; simpl.
  - intros [= <-]. simpl. rewrite app_nil_r. reflexivity.
  - destruct (Ascii.eqb (toupper c) " "); simpl; [apply IH |].
    destruct (Ascii.eqb (toupper c) ","); simpl.
    { destruct (Nat.eqb n 0); [apply IH | discriminate]. }
    destruct (Ascii.eqb (toupper c) "A"); simpl; [apply IH |].
    destruct (Ascii.eqb (toupper c) "B"); simpl; [apply IH |].
    destruct (Ascii.eqb (toupper c) "X"); simpl; [apply IH |].
    intros H. rewrite (IH _ _ _ H), <- app_assoc. reflexivity.
Qed.

Lemma load_operands_pattern os :
  (length os <= 2)%nat ->
  load_operands (operands_pattern os) 0 [0; 0] []
  = Some ((length os - 1)%nat, [type_at os 0; type_at os 1], []).
Proof.
  intros Hlen.
  destruct os as [| [a | a] [| [b | b] [| c os]]]; simpl in Hlen; try lia;
    reflexivity.
Qed.

Lemma accumulated_0 s : accumulated s 0 = hex_value s mod 256.
Proof. destruct s; reflexivity. Qed.

(** X4. [load] and [parse] agree on the key. A line of the mapping
    configuration [M pattern : hh], where the pattern has [A] for a direct
    address and [X] for an immediate, adds an entry under which the second
    pass finds every ordinary instruction with the same mnemonic (in any
    letter case) and operands of those types: the instruction is assembled
    to the byte [hh] (its last two hex digits) followed by the operand
    bytes. *)
Theorem loaded_entry_assembles im st rawc raw os :
  is_conf_entry_line rawc = true ->
  conf_pattern rawc = operands_pattern os ->
  all_chars is_hex_char (conf_value rawc) = true ->
  is_instruction_line raw = true ->
  mnemonic_of raw = conf_mnemonic rawc ->
  (strlen (mnemonic_of raw) <= 3)%nat ->
  is_jmp (mnemonic_of raw) = false ->
  operand_text raw = operands_src os ->
  forallb operand_ok os = true ->
  (length os <= 2)%nat ->
  exists im' st',
    load im [rawc] = Loaded im' []
    /\ parse_line im' true st raw = Ok st'
    /\ out st' = out st ++ (hex_value (conf_value rawc) mod 256)
                          :: (operand_byte <$> os).
Proof.
  intros Hc Hp Hv Hi Hm Hlen Hj Ht Hok Hn.
  unfold load. cbn [load_lines]. rewrite (load_line_entry rawc Hc).
  rewrite Hp, (load_operands_pattern os Hn).
  change (rd [type_at os 0; type_at os 1] 0) with (type_at os 0).
  change (rd [type_at os 0; type_at os 1] 1) with (type_at os 1).
  rewrite <- Hm.
  destruct (mnemonic_short_icode (mnemonic_of raw) (type_at os 0) (type_at os 1) Hlen)
    as [k Hk].
  rewrite Hk, (load_mpc_hex _ 0 Hv), accumulated_0.
  eexists. simpl.
  destruct (parse_line_operands
              (<[k := hex_value (conf_value rawc) mod 256]> im) st raw os
              (hex_value (conf_value rawc) mod 256) Hi Hj Ht Hok Hn)
    as (st' & H1 & H2 & _).
  { unfold key_target. rewrite Hk. apply lookup_insert_eq. }
  exists st'. repeat split; assumption.
Qed.

Lemma loaded_entry_assembles_witness :
  exists im' st',
    load imap ["ADD A, X : 4C"] = Loaded im' []
    /\ parse_line im' true start "add $04, 5" = Ok st'
    /\ out st' = out start ++ (hex_value (conf_value "ADD A, X : 4C") mod 256)
                             :: (operand_byte <$> [Dir "04"; Imm "5"]).
Proof.
  apply (loaded_entry_assembles imap start "ADD A, X : 4C" "add $04, 5"
           [Dir "04"; Imm "5"]); first [reflexivity | (simpl; lia)].
Defined.

(* [load] goes on after lines that raise no message *)
Lemma load_lines_app im n pre post im' :
  load_lines im n [] pre = Loaded im' [] ->
  load_lines im n [] (pre ++ post)
  = load_lines im' (n + Z.of_nat (length pre)) [] post.
Proof.
  revert im n. induction pre as [| l pre IH]; intros im n; simpl.
  - intros [= <-]. f_equal. lia.
  - destruct (load_line l) as [| k v bad | e]; [| | discriminate].
    + intros H. rewrite (IH _ _ H). f_equal. lia.
    + destruct bad as [| b bad]; [| discriminate].
      simpl. intros H. rewrite (IH _ _ H). f_equal. lia.
Qed.

(** X5. When the operand pattern of a line of mapping.conf has a character
    other than space, comma, [A], [B] and [X], and the line has no other
    fault, [load] does not exit: it reports each such character, still adds
    the entry of the line, and returns without reading any line after it,
    because it has closed the file. *)
Theorem load_invalid_operand_type im n raw k v bad :
  load_line raw = ConfEntry k v bad ->
  is_conf_entry_line raw = true ->
  pattern_rejects (conf_pattern raw) <> [] ->
  bad = pattern_rejects (conf_pattern raw)
  /\ forall rest,
       load_lines im n [] (raw :: rest)
       = Loaded (<[k := v]> im) ((fun c => (c, n + 1)) <$> bad).
Proof.
  intros Hl Hc Hr.
  assert (bad = pattern_rejects (conf_pattern raw)) as Hb.
  { rewrite (load_line_entry raw Hc) in Hl.
    destruct (load_operands (conf_pattern raw) 0 [0; 0] []) as [[[n' ty] bad'] |] eqn:Ho;
      [| discriminate].
    apply load_operands_rejects in Ho. simpl in Ho.
    destruct (make_icode _ _ _); [| discriminate].
    destruct (load_mpc _ 0); [| discriminate].
    injection Hl as _ _ <-. exact Ho. }
  split; [exact Hb |]. intros rest. cbn [load_lines]. rewrite Hl.
  destruct bad as [| b bad']; [congruence |]. reflexivity.
Qed.

Lemma load_invalid_operand_type_witness :
  ["$"%char; "Q"%char] = pattern_rejects (conf_pattern "MOV $A, Q : 10")
  /\ forall rest,
       load_lines imap 0 [] ("MOV $A, Q : 10" :: rest)
       = Loaded (<[0x4D4F5620 := 0x10]> imap)
                ((fun c => (c, 0 + 1)) <$> ["$"%char; "Q"%char]).
Proof.
  apply (load_invalid_operand_type imap 0 "MOV $A, Q : 10");
    first [reflexivity | (intros H; discriminate H)].
Defined.

(** X6. [load] only adds or replaces: in the map it returns, each key
    either has the value it had before, or has the value given by a line
    of the configuration that defines that key. In particular a built-in
    entry stays unless a line has its key. *)
Theorem load_entries_origin im conf im' msgs :
  load im conf = Loaded im' msgs ->
  forall k,
    im' !! k = im !! k
    \/ exists raw v bad,
         raw ∈ conf /\ load_line raw = ConfEntry k v bad /\ im' !! k = Some v.
Proof.
  unfold load. generalize 0 at 1. generalize (@nil (ascii * Z)).
  revert im. induction conf as [| l conf IH]; intros im ms n; simpl.
  - intros [= <- _] k. left. reflexivity.
  - destruct (load_line l) as [| k0 v0 bad | e] eqn:Hl; [| | discriminate].
    + intros H k. destruct (IH _ _ _ H k) as [Hk | (raw & v & b & Hin & Hr & Hk)].
      * left. exact Hk.
      * right. exists raw, v, b. split; [apply list_elem_of_further; exact Hin |].
        split; assumption.
    + assert (forall k,
                <[k0 := v0]> im !! k = im !! k
                \/ exists raw v b,
                     raw ∈ l :: conf /\ load_line raw = ConfEntry k v b
                     /\ <[k0 := v0]> im !! k = Some v) as Hhere.
      { intros k. destruct (decide (k0 = k)) as [<- | Hne].
        - right. exists l, v0, bad. split; [apply list_elem_of_here |].
          split; [exact Hl | apply lookup_insert_eq].
        - left. apply lookup_insert_ne. exact Hne. }
      destruct bad as [| b bad'].
      * intros H k.
        destruct (IH _ _ _ H k) as [Hk | (raw & v & b & Hin & Hr & Hk)].
        -- rewrite Hk. apply Hhere.
        -- right. exists raw, v, b.
           split; [apply list_elem_of_further; exact Hin |]. split; assumption.
      * intros [= <- _] k. apply Hhere.
Qed.

Lemma load_entries_origin_witness :
  load imap ["# halt"; "HLT : 07"] = Loaded (<[0x484C5400 := 0x07]> imap) []
  /\ (<[0x484C5400 := 0x07]> imap !! 0x484C5400 = imap !! 0x484C5400
      \/ exists raw v bad,
           raw ∈ ["# halt"; "HLT : 07"]
           /\ load_line raw = ConfEntry 0x484C5400 v bad
           /\ <[0x484C5400 := 0x07]> imap !! 0x484C5400 = Some v).
Proof.
  split; [reflexivity |].
  apply (load_entries_origin imap ["# halt"; "HLT : 07"]
           (<[0x484C5400 := 0x07]> imap) []).
  reflexivity.
Defined.

(** ** The whole run *)

Lemma main_shape im mpc1 mpc2 lines :
  let r := main im mpc1 mpc2 lines in
  (exit_failure r = true /\ out_file r = None)
  \/ (exit_failure r = false /\ exists bytes, out_file r = Some bytes).
Proof.
  unfold main. destruct (parse im false mpc1 start lines) as [s1 | d]; simpl.
  - destruct (parse im true mpc2 s1 lines) as [s2 | d]; simpl; eauto.
  - auto.
Qed.

Lemma run_files_shape env mpc1 mpc2 fin fout :
  let e := run_files env mpc1 mpc2 fin fout in
  help_shown e = false
  /\ ((status e = -1 /\ left_file e = None)
      \/ (status e = EXIT_FAILURE
          /\ (left_file e = None \/ left_file e = Some (fout, [])))
      \/ (status e = 0 /\ exists bytes, left_file e = Some (fout, bytes))).
Proof.
  unfold run_files.
  destruct (open_in env fin) as [lines |]; [| simpl; auto].
  destruct (create_out env fout); [| simpl; auto].
  assert (forall im,
            let r := main im mpc1 mpc2 lines in
            let e := mkExec (if exit_failure r then EXIT_FAILURE else 0) false
                            ((fun bytes => (fout, bytes)) <$> out_file r) in
            help_shown e = false
            /\ ((status e = -1 /\ left_file e = None)
                \/ (status e = EXIT_FAILURE
                    /\ (left_file e = None \/ left_file e = Some (fout, [])))
                \/ (status e = 0 /\ exists bytes, left_file e = Some (fout, bytes))))
    as Hasm.
  { intros im. cbv zeta.
    destruct (main_shape im mpc1 mpc2 lines) as [[-> ->] | [-> [bytes ->]]];
      simpl; split; eauto 10. }
  destruct (open_conf env) as [conf |]; [| apply Hasm].
  destruct (load imap conf) as [im msgs | e n]; [apply Hasm |].
  simpl. auto 10.
Qed.

(** X7. A run ends with status 0, -1 or [EXIT_FAILURE]. With status -1 it
    leaves no output file. With [EXIT_FAILURE] it leaves either none (an
    error found by [parse], which removes the file) or an empty one (an
    exit of [load], which does not): never a partial binary. It leaves a
    file only under the name given as second argument, or [ram.b] when
    there is none; and it prints the help text exactly when its only
    argument is [help], without touching any file. *)
Theorem run_outcomes env mpc1 mpc2 argv :
  let e := main_argv env mpc1 mpc2 argv in
  (status e = 0 \/ status e = -1 \/ status e = EXIT_FAILURE)
  /\ (status e = -1 -> left_file e = None)
  /\ (forall name bytes,
        left_file e = Some (name, bytes) ->
        name = default "ram.b" (argv !! 2%nat)
        /\ (status e = 0 \/ (status e = EXIT_FAILURE /\ bytes = [])))
  /\ (help_shown e = true
      <-> (length argv = 2%nat /\ argv !! 1%nat = Some "help"))
  /\ (help_shown e = true -> status e = 0 /\ left_file e = None).
Proof.
  unfold main_argv.
  destruct argv as [| p [| a1 [| a2 [| a3 rest]]]]; cbv zeta.
  1, 2, 5: simpl; repeat split; auto; try discriminate;
    intros; try discriminate; simpl in *; try lia; intuition discriminate.
  - destruct (String.eqb a1 "help") eqn:Hh.
    + apply String.eqb_eq in Hh. subst a1. simpl. repeat split; auto;
        intros; discriminate.
    + pose proof (run_files_shape env mpc1 mpc2 a1 "ram.b") as H.
      cbv zeta in H. destruct H as [Hhelp H]. rewrite Hhelp.
      assert (a1 <> "help") as Hne by (intros ->; discriminate Hh).
      simpl. repeat split; try discriminate.
      * destruct H as [[-> _] | [[-> _] | [-> _]]]; auto.
      * intros Hs. destruct H as [[_ H] | [[Hs' _] | [Hs' _]]];
          [exact H | rewrite Hs' in Hs; discriminate | rewrite Hs' in Hs; discriminate].
      * destruct H as [[_ H'] | [[_ [H' | H']] | [_ [b H']]]];
          rewrite H' in H0; congruence.
      * destruct H as [[_ H'] | [[Hs [H' | H']] | [Hs [b H']]]];
          rewrite H' in H0; try discriminate; injection H0 as <- <-; auto.
      * intros [_ [= ->]]. congruence.
    
  - pose proof (run_files_shape env mpc1 mpc2 a1 a2) as H.
    cbv zeta in H. destruct H as [Hhelp H]. rewrite Hhelp.
    simpl. repeat split; try discriminate.
    * destruct H as [[-> _] | [[-> _] | [-> _]]]; auto.
    * intros Hs. destruct H as [[_ H] | [[Hs' _] | [Hs' _]]];
        [exact H | rewrite Hs' in Hs; discriminate | rewrite Hs' in Hs; discriminate].
    * destruct H as [[_ H'] | [[_ [H' | H']] | [_ [b H']]]];
        rewrite H' in H0; congruence.
    * destruct H as [[_ H'] | [[Hs [H' | H']] | [Hs [b H']]]];
        rewrite H' in H0; try discriminate; injection H0 as <- <-; auto.
    * intros [H' _]. discriminate H'.
Qed.

Lemma run_outcomes_witness :
  let e := main_argv env_example 0 0 ["asm92"; "code.txt"] in
  e = mkExec 0 false (Some ("ram.b", [0x07; 0x07]))
  /\ (status e = 0 \/ status e = -1 \/ status e = EXIT_FAILURE)
  /\ (status e = -1 -> left_file e = None)
  /\ (forall name bytes,
        left_file e = Some (name, bytes) ->
        name = default "ram.b" (["asm92"; "code.txt"] !! 2%nat)
        /\ (status e = 0 \/ (status e = EXIT_FAILURE /\ bytes = [])))
  /\ (help_shown e = true
      <-> (length ["asm92"; "code.txt"] = 2%nat
           /\ ["asm92"; "code.txt"] !! 1%nat = Some "help"))
  /\ (help_shown e = true -> status e = 0 /\ left_file e = None).
Proof.
  split; [reflexivity |].
  apply (run_outcomes env_example 0 0 ["asm92"; "code.txt"]).
Defined.

(* the operand loop of [load] exits exactly on a second comma *)
Lemma load_operands_commas s n ty bad :
  (n <= 1)%nat ->
  load_operands s n ty bad = None <-> (2 <= n + count_char "," s)%nat.
Proof.
  revert n ty bad. induction s as [| c s IH]; intros n ty bad Hn; simpl.
  - split; [discriminate | lia].
  - rewrite toupper_eqb_space, toupper_eqb_comma.
    destruct (Ascii.eqb c ",") eqn:Hc.
    { apply Ascii.eqb_eq in Hc. subst c. simpl.
      destruct n as [| n]; simpl.
      - rewrite (IH 1%nat) by lia. lia.
      - split; [lia | reflexivity]. }
    simpl. destruct (Ascii.eqb c " "); [apply IH; exact Hn |].
    destruct (Ascii.eqb (toupper c) "A" || Ascii.eqb (toupper c) "B");
      [apply IH; exact Hn |].
    destruct (Ascii.eqb (toupper c) "X"); apply IH; exact Hn.
Qed.

(** X8. The exits of [load] on one line, in the order the code tests them.
    A line that is not blank and not a comment makes [load] exit when:
    it has no colon ("Invalid format"); its operand pattern has a second
    comma ("Leading comma"); else its mnemonic has more than three
    characters ("Invalid Mnemonic"); else the text after the last colon,
    trimmed, has any character that is not a hex digit, such as a space or
    a trailing comment ("Invalid MPC address"). Otherwise the line adds an
    entry whose value is given by the last two hex digits (0 when there is
    none). *)
Theorem load_line_faults raw :
  String.eqb (trim raw) "" = false ->
  starts_with "#" (trim raw) = false ->
  (is_conf_entry_line raw = false -> load_line raw = ConfExit LoadInvalidFormat)
  /\ (is_conf_entry_line raw = true ->
      ((2 <= count_char "," (conf_pattern raw))%nat ->
       load_line raw = ConfExit LoadLeadingComma)
      /\ ((count_char "," (conf_pattern raw) <= 1)%nat ->
          ((3 < strlen (conf_mnemonic raw))%nat ->
           load_line raw = ConfExit LoadInvalidMnemonic)
          /\ ((strlen (conf_mnemonic raw) <= 3)%nat ->
              (all_chars is_hex_char (conf_value raw) = false ->
               load_line raw = ConfExit LoadInvalidMPC)
              /\ (all_chars is_hex_char (conf_value raw) = true ->
                  exists k bad,
                    load_line raw
                    = ConfEntry k (hex_value (conf_value raw) mod 256) bad)))).
Proof.
  intros Hb Hc. split.
  - unfold is_conf_entry_line, load_line. cbv zeta. rewrite Hb, Hc. simpl.
    destruct (regex_upto ":" (trim raw)); [discriminate | reflexivity].
  - intros He. rewrite (load_line_entry raw He).
    pose proof (load_operands_commas (conf_pattern raw) 0 [0; 0] []) as Hcm.
    simpl in Hcm. split.
    + intros H2. apply Hcm in H2; [| lia]. rewrite H2. reflexivity.
    + intros H1.
      destruct (load_operands (conf_pattern raw) 0 [0; 0] []) as [[[n ty] bad] |].
      2: { exfalso. assert ((2 <= count_char "," (conf_pattern raw))%nat);
             [apply Hcm; [lia | reflexivity] | lia]. }
      split.
      * intros H3. rewrite mnemonic_3_icode by assumption. reflexivity.
      * intros H3.
        destruct (mnemonic_short_icode (conf_mnemonic raw) (rd ty 0) (rd ty 1) H3)
          as [k ->].
        split.
        -- intros Hv. rewrite (load_mpc_not_hex _ 0 Hv). reflexivity.
        -- intros Hv. rewrite (load_mpc_hex _ 0 Hv), accumulated_0. eauto.
Qed.

Lemma load_line_faults_witness :
  load_line "HLT 03" = ConfExit LoadInvalidFormat
  /\ load_line "MOV A,,X : 04" = ConfExit LoadLeadingComma
  /\ load_line "HALT : 03" = ConfExit LoadInvalidMnemonic
  /\ load_line "HLT : 03 # halt" = ConfExit LoadInvalidMPC
  /\ exists k bad,
       load_line "HLT : 1203"
       = ConfEntry k (hex_value (conf_value "HLT : 1203") mod 256) bad.
Proof.
  split; [| split; [| split; [| split]]].
  - refine (proj1 (load_line_faults "HLT 03" _ _) _); reflexivity.
  - refine (proj1 (proj2 (load_line_faults "MOV A,,X : 04" _ _) _) _);
      first [reflexivity | (vm_compute; lia)].
  - refine (proj1 (proj2 (proj2 (load_line_faults "HALT : 03" _ _) _) _) _);
      first [reflexivity | (vm_compute; lia)].
  - refine (proj1 (proj2 (proj2 (proj2 (load_line_faults "HLT : 03 # halt" _ _) _) _) _) _);
      first [reflexivity | (vm_compute; lia)].
  - refine (proj2 (proj2 (proj2 (proj2 (load_line_faults "HLT : 1203" _ _) _) _) _) _);
      first [reflexivity | (vm_compute; lia)].
Defined.

(** X9. When a line of mapping.conf makes [load] exit (all lines before it
    having been read without message), the process ends with
    [EXIT_FAILURE] before any line of the program is read, and the output
    file, which [main] created before calling [load], is left behind,
    empty. *)
Theorem conf_exit_leaves_empty_file
    env mpc1 mpc2 p fin fout lines pre raw post im' e :
  open_in env fin = Some lines ->
  create_out env fout = true ->
  open_conf env = Some (pre ++ raw :: post) ->
  load imap pre = Loaded im' [] ->
  load_line raw = ConfExit e ->
  load imap (pre ++ raw :: post) = LoadExit e (1 + Z.of_nat (length pre))
  /\ main_argv env mpc1 mpc2 [p; fin; fout]
     = mkExec EXIT_FAILURE false (Some (fout, [])).
Proof.
  intros Hin Hout Hconf Hpre Hraw.
  assert (load imap (pre ++ raw :: post)
          = LoadExit e (1 + Z.of_nat (length pre))) as Hl.
  { unfold load in *. rewrite (load_lines_app _ _ _ _ _ Hpre).
    cbn [load_lines]. rewrite Hraw. f_equal. lia. }
  split; [exact Hl |].
  unfold main_argv, run_files. rewrite Hin, Hout, Hconf, Hl. reflexivity.
Qed.

Lemma conf_exit_leaves_empty_file_witness :
  let env :=
    mkEnv (fun _ => Some ["HLT"]) (fun _ => true)
          (Some (["# map"; "ADD A, X : 4C"] ++ "HLT : 03 # halt" :: ["MOV A, X : 04"])) in
  load imap (["# map"; "ADD A, X : 4C"] ++ "HLT : 03 # halt" :: ["MOV A, X : 04"])
  = LoadExit LoadInvalidMPC (1 + Z.of_nat (length ["# map"; "ADD A, X : 4C"]))
  /\ main_argv env 0 0 ["asm92"; "code.txt"; "out.b"]
     = mkExec EXIT_FAILURE false (Some ("out.b", [])).
Proof.
  apply (conf_exit_leaves_empty_file
           (mkEnv (fun _ => Some ["HLT"]) (fun _ => true)
                  (Some (["# map"; "ADD A, X : 4C"] ++ "HLT : 03 # halt"
                           :: ["MOV A, X : 04"])))
           0 0 "asm92" "code.txt" "out.b" ["HLT"]
           ["# map"; "ADD A, X : 4C"] "HLT : 03 # halt" ["MOV A, X : 04"]
           (<[0x41444421 := 0x4C]> imap) LoadInvalidMPC);
    reflexivity.
Defined.

(** ** Lines with a colon *)

Lemma substr_init p d :
  substr (p +:+ String d EmptyString) 0 (strlen (p +:+ String d EmptyString) - 1) = p.
Proof.
  unfold substr, strlen. induction p as [| c p IH]; [reflexivity |].
  rewrite append_cons. cbn [String.length].
  replace (S (String.length (p +:+ String d "")) - 1)%nat
    with (S (String.length (p +:+ String d "") - 1))%nat.
  - cbn [substring]. rewrite IH. reflexivity.
  - destruct p; simpl; lia.
Qed.

(* the match of [^.*d] on a line without line terminator: everything up
   to the last [d] *)
Lemma regex_upto_last d s :
  no_line_terminator s = true ->
  (0 < count_char d s)%nat ->
  exists p r,
    regex_upto d s = Some (p +:+ String d EmptyString)
    /\ s = p +:+ String d r /\ count_char d r = 0%nat.
Proof.
  unfold no_line_terminator.
  induction s as [| c s IH]; simpl; [lia |]. intros Ht Hc.
  apply andb_prop in Ht as [Hct Ht]. apply negb_true_iff in Hct. rewrite Hct.
  destruct (count_char d s) as [| n] eqn:Hn.
  - destruct (Ascii.eqb c d) eqn:Hcd; [| simpl in Hc; lia].
    apply Ascii.eqb_eq in Hcd. subst c.
    assert (regex_upto d s = None) as ->.
    { clear -Hn. induction s as [| c s IH]; [reflexivity |]. simpl in *.
      destruct (Ascii.eqb c d); [discriminate |]. simpl in Hn.
      rewrite (IH Hn). destruct (is_line_terminator c); reflexivity. }
    exists EmptyString, s. repeat split. exact Hn.
  - destruct (IH Ht) as (p & r & -> & Hs & Hr); [lia |].
    exists (String c p), r. rewrite !append_cons. repeat split; congruence.
Qed.

(** X10. A line that is not blank, not a comment and not a directive, and
    that has a colon anywhere (also inside a trailing comment), is a label
    line whatever else it holds: the label name is all the text before the
    last colon, the first pass records the current address under that
    name, and the second pass skips the line, so an instruction written on
    it is never assembled. *)
Theorem colon_line_is_label im st raw :
  String.eqb (trim raw) "" = false ->
  starts_with "#" (trim raw) = false ->
  starts_with "@" (trim raw) = false ->
  no_line_terminator (trim raw) = true ->
  (0 < count_char ":" (trim raw))%nat ->
  exists name r,
    trim raw = name +:+ String ":" r
    /\ count_char ":" r = 0%nat
    /\ label_of raw = Some name
    /\ parse_line im true st raw = Ok (next_line st)
    /\ parse_line im false st raw =
         Ok (next_line
               (mkState (caddr st) (linenum st) (mpc st)
                        (<[name := caddr st mod 256]> (lblmap st))
                        (directives st) (adjustBase st) (out st) (listing st))).
Proof.
  intros Hb Hc Hd Ht Hn.
  destruct (regex_upto_last ":" (trim raw) Ht Hn) as (p & r & Hm & Hs & Hr).
  exists p, r. split; [exact Hs |]. split; [exact Hr |].
  unfold label_of, parse_line. cbv zeta. rewrite Hb, Hc, Hd, Hm, substr_init.
  repeat split.
Qed.

Lemma colon_line_is_label_witness :
  exists name r,
    trim "  MOV $04, 3   # note: set up" = name +:+ String ":" r
    /\ count_char ":" r = 0%nat
    /\ label_of "  MOV $04, 3   # note: set up" = Some name
    /\ parse_line imap true start "  MOV $04, 3   # note: set up"
       = Ok (next_line start)
    /\ parse_line imap false start "  MOV $04, 3   # note: set up" =
         Ok (next_line
               (mkState (caddr start) (linenum start) (mpc start)
                        (<[name := caddr start mod 256]> (lblmap start))
                        (directives start) (adjustBase start) (out start)
                        (listing start))).
Proof.
  apply (colon_line_is_label imap start "  MOV $04, 3   # note: set up");
    first [reflexivity | (vm_compute; lia)].
Defined.

(** ** Absolute jumps *)

(** X11. For [JMP] and [JSR] (the jump mnemonics that do not start with
    [B]) with an operand that is a known label, the second pass writes the
    label's recorded address itself as operand byte, wherever the
    instruction stands and whatever the base address is; the label is used
    even when its name also reads as a hex numeral. *)
Theorem absolute_jump_label im st raw a k t :
  is_instruction_line raw = true ->
  is_jmp (mnemonic_of raw) = true ->
  starts_with "B" (mnemonic_of raw) = false ->
  lblmap st !! jump_label raw = Some a ->
  make_icode (mnemonic_of raw) 1 0 = Some k ->
  im !! k = Some t ->
  parse_line im true st raw = Ok (emitted2 st t a).
Proof.
  intros Hi Hj Hb Hl Hk Ht.
  rewrite (parse_line_jump_label im st raw a k t) by assumption.
  rewrite Hb. reflexivity.
Qed.

Lemma absolute_jump_label_witness :
  let st := mkState 0x40 7 0 {[ "1F" := 0x02 ]} (<["base_addr" := 0x30]> directives_init)
                    false [] [] in
  parse_line imap true st "jmp 1F" = Ok (emitted2 st 0x50 0x02).
Proof.
  apply (absolute_jump_label imap
           (mkState 0x40 7 0 {[ "1F" := 0x02 ]}
                    (<["base_addr" := 0x30]> directives_init) false [] [])
           "jmp 1F" 0x02 0x4A4D5010 0x50); reflexivity.
Defined.

(** ** The reported byte count *)

Lemma pass1_line_base im st raw st' :
  parse_line im false st raw = Ok st' ->
  adjustBase st = true \/ base_addr (directives st) = 0 ->
  adjustBase st' = true \/ base_addr (directives st') = 0.
Proof.
  intros H Hinv. destruct (is_directive_line raw) eqn:Hd.
  - rewrite parse_line_directive in H by assumption.
    unfold parse_directive in H. cbv zeta in H.
    destruct (regex_upto "=" (trim raw)) as [m |]; [| discriminate].
    set (lbl := trim (substr m 1 (strlen m - 2))) in *.
    destruct (directives st !! lbl); [| discriminate].
    destruct (scan_value _ (mpc st)) as [v |]; [| discriminate].
    destruct (String.eqb lbl "base_addr") eqn:Hl; injection H as <-; simpl.
    + left. reflexivity.
    + destruct Hinv as [Ha | Hb]; [left; exact Ha | right].
      unfold base_addr in *. rewrite lookup_insert_ne; [exact Hb |].
      intros ->. rewrite String.eqb_refl in Hl. discriminate.
  - apply parse_line_pass1_frame in H. destruct H as (_ & _ & H).
    destruct (H Hd) as [-> ->]. exact Hinv.
Qed.

Lemma pass1_lines_base im lines st st' :
  parse_lines im false st lines = Ok st' ->
  adjustBase st = true \/ base_addr (directives st) = 0 ->
  adjustBase st' = true \/ base_addr (directives st') = 0.
Proof.
  revert st. induction lines as [| l lines IH]; intros st; simpl.
  - intros [= <-]. auto.
  - destruct (parse_line im false st l) as [st1 |] eqn:H1; [| discriminate].
    intros H Hinv. apply (IH st1 H). apply (pass1_line_base im st l st1 H1 Hinv).
Qed.

Lemma pass2_start im mpc1 mpc2 lines s1 :
  parse im false mpc1 start lines = Ok s1 ->
  out s1 = [] /\ listing s1 = []
  /\ caddr (enter true mpc2 s1) = base_addr (directives s1).
Proof.
  intros H. unfold parse in H.
  pose proof (parse_lines_pass1_frame im lines _ _ H) as (Ho & Hl & _).
  pose proof (pass1_lines_base im lines _ _ H) as Hb.
  split; [exact Ho |]. split; [exact Hl |].
  unfold enter. destruct (adjustBase s1); simpl; [reflexivity |].
  destruct Hb as [Hb | Hb]; [right; reflexivity | discriminate | congruence].
Qed.

(** X12. For every program that is assembled, with any number of directive
    lines anywhere, the byte count reported at the end is the number of
    bytes in the output file, and the address printed beside the [i]-th
    byte is [b + i], where [b] is the value of the last [base_addr]
    directive (0 when there is none). *)
Theorem byte_count_is_length im mpc1 mpc2 lines s1 s2 :
  parse im false mpc1 start lines = Ok s1 ->
  parse im true mpc2 s1 lines = Ok s2 ->
  main im mpc1 mpc2 lines
  = mkOutcome false (Some (out s2)) None (listing s2)
              (Some (Z.of_nat (length (out s2))))
  /\ forall i : nat,
       listing s2 !! i
       = (fun x => (base_addr (directives s1) + Z.of_nat i, x)) <$> (out s2 !! i).
Proof.
  intros H1 H2. destruct (pass2_start im mpc1 mpc2 lines s1 H1) as (Ho & Hl & Hb).
  destruct (pass2_addressed im mpc2 s1 lines s2 _ Ho Hl Hb H2) as [[Hc Hi] Hd].
  split; [| exact Hi].
  unfold main. rewrite H1, H2. unfold reported_bytes. rewrite Hd, Hc.
  do 2 f_equal. lia.
Qed.

Lemma byte_count_is_length_witness :
  let s1 := state_of (parse imap false 0 start two_bases) in
  let s2 := state_of (parse imap true 0 s1 two_bases) in
  main imap 0 0 two_bases
  = mkOutcome false (Some (out s2)) None (listing s2)
              (Some (Z.of_nat (length (out s2))))
  /\ forall i : nat,
       listing s2 !! i
       = (fun x => (base_addr (directives s1) + Z.of_nat i, x)) <$> (out s2 !! i).
Proof.
  apply (byte_count_is_length imap 0 0 two_bases); vm_compute; reflexivity.
Defined.

Example two_bases_run :
  main imap 0 0 two_bases
  = mkOutcome false (Some [0x03; 0x50; 0x11; 0x03]) None
              [(0x20, 0x03); (0x21, 0x50); (0x22, 0x11); (0x23, 0x03)] (Some 4).
Proof. vm_compute. reflexivity. Qed.

(** ** The two passes count the same bytes *)

Lemma jump_keys_ok_spec im m t0 t1 t :
  jump_keys_ok im = true -> is_jmp m = true ->
  is_type t0 -> is_type t1 ->
  key_target im m t0 t1 = Some t ->
  t0 <> 0 /\ t1 = 0.
Proof.
  unfold jump_keys_ok. intros Hok Hj H0 H1 Hk.
  rewrite forallb_forall in Hok.
  assert (In m ["JMP"; "JSR"; "BR"; "BRZ"; "BRN"]) as Hin.
  { unfold is_jmp, jmpcodes in Hj. apply bool_decide_eq_true_1 in Hj.
    set_unfold in Hj.
    destruct Hj as [[[[-> | ->] | ->] | ->] | ->]; simpl; auto 10. }
  specialize (Hok m Hin). rewrite forallb_forall in Hok.
  assert (In (t0, t1)
             [(0, 0); (0, 1); (0, 2); (1, 0); (1, 1); (1, 2); (2, 0); (2, 1); (2, 2)])
    as Hin2.
  { destruct H0 as [-> | [-> | ->]], H1 as [-> | [-> | ->]]; simpl; auto 12. }
  specialize (Hok (t0, t1) Hin2). simpl in Hok. rewrite Hk in Hok.
  apply andb_prop in Hok as [Ha Hb].
  apply negb_true_iff, Z.eqb_neq in Ha. apply Z.eqb_eq in Hb. auto.
Qed.

Lemma scan_operands_shape s o o' :
  scan_operands s o = Some o' -> operands_shape o -> operands_shape o'.
Proof.
  revert o. induction s as [| c s IH]; intros o; simpl.
  - intros [= <-]. auto.
  - intros H (Hn & a & b & t0 & t1 & Ho & Ht & H0 & H1).
    destruct (Ascii.eqb (toupper c) " "); [apply (IH o H); repeat eexists; eauto |].
    destruct (Ascii.eqb (toupper c) "#").
    { injection H as <-. repeat eexists; eauto. }
    assert (numops o = 0%nat \/ numops o = 1%nat) as Hcase by lia.
    destruct (Ascii.eqb (toupper c) "$").
    { apply (IH _ H). split; [exact Hn |]. simpl. rewrite Ht.
      destruct Hcase as [-> | ->]; simpl; unfold is_type; eauto 12. }
    destruct (Ascii.eqb (toupper c) ",").
    { destruct (Nat.eqb (numops o) 0) eqn:He; [| discriminate].
      apply Nat.eqb_eq in He. apply (IH _ H). split; [simpl; lia |].
      simpl. eauto 10. }
    destruct (is_hex (toupper c)).
    + apply (IH _ H). split; [exact Hn |]. simpl. rewrite Ho, Ht.
      destruct Hcase as [-> | ->]; simpl.
      * destruct (rd [t0; t1] 0 =? 0); simpl; unfold is_type; eauto 12.
      * destruct (rd [t0; t1] 1 =? 0); simpl; unfold is_type; eauto 12.
    + apply (IH o H). repeat eexists; eauto.
Qed.

Lemma emit_count write st t bs :
  caddr (next_line (foldl (emit_byte write) (emit_byte write (set_mpc st t) t) bs))
  = caddr st + 1 + Z.of_nat (length bs).
Proof.
  destruct (foldl_emit_frame write bs (emit_byte write (set_mpc st t) t))
    as (_ & _ & _ & _ & _ & H & _).
  simpl in *. rewrite H. reflexivity.
Qed.

(* a jump or branch line takes two bytes in the second pass *)
Lemma jump_width_pass2 im st line m rest st' :
  read_mnemonic line = (m, rest) -> is_jmp m = true ->
  parse_instruction im true st line = Ok st' ->
  caddr st' = caddr st + 2.
Proof.
  intros Hm Hj. unfold parse_instruction. rewrite Hm, Hj. simpl andb. cbv iota.
  unfold resolve_jump.
  pose proof (scan_jump_done rest 0) as Hd.
  destruct (scan_jump rest 0) as [[[l op] cm] r]. simpl in Hd.
  assert (forall o, (if cm then Some o else scan_operands r o) = Some o) as Hs.
  { intros o. destruct Hd as [-> | ->]; [reflexivity |]. destruct cm; reflexivity. }
  destruct (lblmap st !! trim l) as [a |].
  - rewrite Hs. cbv zeta. cbn [optype numops ops].
    change (rd [1; 0] 0) with 1. change (rd [1; 0] 1) with 0.
    destruct (make_icode m 1 0) as [k |]; [| discriminate].
    destruct (im !! k) as [t |]; [| discriminate].
    intros [= <-]. simpl. lia.
  - destruct (Nat.ltb 2 (strlen (trim l))); [discriminate |].
    rewrite Hs. cbv zeta. cbn [optype numops ops].
    change (rd [1; 0] 0) with 1. change (rd [1; 0] 1) with 0.
    destruct (make_icode m 1 0) as [k |]; [| discriminate].
    destruct (im !! k) as [t |]; [| discriminate].
    intros [= <-]. simpl. lia.
Qed.

(* an instruction line of the first pass: its width by the operand loop *)
Lemma plain_width im write st line m rest st' :
  read_mnemonic line = (m, rest) ->
  write && is_jmp m = false ->
  parse_instruction im write st line = Ok st' ->
  exists o t,
    scan_operands rest (mkOps 0 [0; 0] [0; 0]) = Some o
    /\ key_target im m (rd (optype o) 0) (rd (optype o) 1) = Some t
    /\ caddr st' = caddr st + 1
         + Z.of_nat (length (take (if negb (rd (optype o) 1 =? 0) then 2%nat
                                   else if negb (rd (optype o) 0 =? 0) then 1%nat
                                   else numops o) (ops o))).
Proof.
  intros Hm Hw. rewrite (parse_instruction_plain im write st line m rest Hm Hw).
  destruct (scan_operands rest _) as [o |]; [| discriminate]. cbv zeta.
  unfold key_target.
  destruct (make_icode m (rd (optype o) 0) (rd (optype o) 1)) as [k |] eqn:Hmk;
    [| discriminate].
  destruct (im !! k) as [t |] eqn:Hk; [| discriminate].
  intros [= <-]. exists o, t. split; [reflexivity |].
  split; [rewrite Hmk; exact Hk |]. apply emit_count.
Qed.

Lemma line_widths_agree im raw s s' t t' :
  jump_keys_ok im = true ->
  is_directive_line raw = false ->
  parse_line im false s raw = Ok t ->
  parse_line im true s' raw = Ok t' ->
  caddr t - caddr s = caddr t' - caddr s'.
Proof.
  intros Hok Hd. revert Hd. unfold parse_line, is_directive_line. cbv zeta.
  destruct (String.eqb (trim raw) "").
  { intros _ [= <-] [= <-]. simpl. lia. }
  destruct (starts_with "#" (trim raw)).
  { intros _ [= <-] [= <-]. simpl. lia. }
  destruct (starts_with "@" (trim raw)); [simpl; intros H; discriminate H |].
  intros _.
  destruct (regex_upto ":" (trim raw)).
  { intros [= <-] [= <-]. simpl. lia. }
  destruct (read_mnemonic (trim raw)) as [m rest] eqn:Hm.
  intros H1 H2.
  destruct (plain_width im false s _ m rest t Hm eq_refl H1)
    as (o & k & Ho & Hk & Hc).
  destruct (is_jmp m) eqn:Hj.
  - rewrite (jump_width_pass2 im s' _ m rest t' Hm Hj H2).
    pose proof (scan_operands_shape rest _ o Ho) as Hsh.
    destruct Hsh as (Hn & a & b & t0 & t1 & Hops & Hty & H0 & H1').
    { split; [simpl; lia |]. exists 0, 0, 0, 0. unfold is_type. simpl. auto 10. }
    rewrite Hty in Hk, Hc. rewrite Hops in Hc.
    change (rd [t0; t1] 0) with t0 in *. change (rd [t0; t1] 1) with t1 in *.
    destruct (jump_keys_ok_spec im m t0 t1 k Hok Hj H0 H1' Hk) as [Hne ->].
    apply Z.eqb_neq in Hne. rewrite Hne in Hc. simpl in Hc. lia.
  - destruct (plain_width im true s' _ m rest t' Hm) as (o' & k' & Ho' & _ & Hc');
      [rewrite Hj; reflexivity | exact H2 |].
    rewrite Ho in Ho'. injection Ho' as <-. lia.
Qed.

Lemma directive_lines_app pre post :
  directive_lines (pre ++ post) = (directive_lines pre + directive_lines post)%nat.
Proof. induction pre as [| l pre IH]; simpl; [reflexivity | rewrite IH; lia]. Qed.

Lemma lines_widths_agree im lines :
  jump_keys_ok im = true ->
  directive_lines lines = 0%nat ->
  forall s s' t t',
    parse_lines im false s lines = Ok t ->
    parse_lines im true s' lines = Ok t' ->
    caddr t - caddr s = caddr t' - caddr s'.
Proof.
  intros Hok. induction lines as [| l lines IH]; intros Hn s s' t t'; simpl.
  - intros [= <-] [= <-]. lia.
  - simpl in Hn. destruct (is_directive_line l) eqn:Hl; [discriminate |].
    destruct (parse_line im false s l) as [u |] eqn:H1; [| discriminate].
    destruct (parse_line im true s' l) as [u' |] eqn:H2; [| discriminate].
    intros Ht Ht'.
    pose proof (line_widths_agree im l s s' u u' Hok Hl H1 H2).
    pose proof (IH Hn u u' t t' Ht Ht'). lia.
Qed.

(** X13. Let the map give the jump and branch mnemonics entries with
    exactly one operand only (as the built-in map does), and let the
    program have no directive line. Then wherever both passes get, they
    have counted the same number of bytes; so the address the first pass
    records for a label is, modulo 256, the number of bytes the second
    pass has written when it reaches the label line, which is the position
    in the output of the first byte after the label. *)
Theorem label_address_is_position im mpc1 mpc2 pre raw post name s1 u u' :
  jump_keys_ok im = true ->
  directive_lines (pre ++ raw :: post) = 0%nat ->
  label_of raw = Some name ->
  parse im false mpc1 start (pre ++ raw :: post) = Ok s1 ->
  parse im false mpc1 start pre = Ok u ->
  parse im true mpc2 s1 pre = Ok u' ->
  caddr u = caddr u'
  /\ caddr u' = Z.of_nat (length (out u'))
  /\ exists v,
       parse_line im false u raw = Ok v
       /\ lblmap v !! name = Some (Z.of_nat (length (out u')) mod 256).
Proof.
  intros Hok Hn Hl H1 Hu Hu'.
  rewrite directive_lines_app in Hn.
  assert (directive_lines pre = 0%nat) as Hpre by lia.
  pose proof H1 as H1'. unfold parse in H1'.
  apply parse_lines_pass1_frame in H1'. destruct H1' as (Ho & Hli & Hd).
  destruct Hd as [_ Ha]; [rewrite directive_lines_app; lia |].
  assert (caddr (enter true mpc2 s1) = 0) as Hb.
  { unfold enter. rewrite Ha. reflexivity. }
  destruct (pass2_addressed im mpc2 s1 pre u' 0 Ho Hli Hb Hu') as [[Hc _] _].
  unfold parse in Hu, Hu'.
  pose proof (lines_widths_agree im pre Hok Hpre _ _ _ _ Hu Hu') as Hw.
  rewrite Hb in Hw. change (caddr (enter false mpc1 start)) with 0 in Hw.
  assert (caddr u = caddr u') as He by lia.
  split; [exact He |]. split; [lia |].
  destruct (label_of_line raw name Hl) as (m & E1 & E2 & E3 & E4 & ->).
  unfold parse_line. cbv zeta. rewrite E1, E2, E3, E4.
  eexists. split; [reflexivity |]. simpl. rewrite lookup_insert_eq.
  unfold to_uchar. do 2 f_equal. lia.
Qed.

Lemma label_address_is_position_witness :
  let s1 := state_of (parse imap false 0 start
                        (loop_program_head ++ "a1:" :: ["BR a1"])) in
  let u := state_of (parse imap false 0 start loop_program_head) in
  let u' := state_of (parse imap true 0 s1 loop_program_head) in
  caddr u = caddr u'
  /\ caddr u' = Z.of_nat (length (out u'))
  /\ exists v,
       parse_line imap false u "a1:" = Ok v
       /\ lblmap v !! "a1" = Some (Z.of_nat (length (out u')) mod 256).
Proof.
  apply (label_address_is_position imap 0 0 loop_program_head "a1:" ["BR a1"] "a1"
           (state_of (parse imap false 0 start
                        (loop_program_head ++ "a1:" :: ["BR a1"]))));
    vm_compute; reflexivity.
Defined.

(** ** Errors of the second pass *)

Lemma pass2_error_line im s s' raw u d :
  parse_line im false s raw = Ok u ->
  parse_line im true s' raw = Err d ->
  jump_fault im (lblmap s') raw d /\ dline d = linenum s'.
Proof.
  unfold jump_fault, parse_line, is_instruction_line, mnemonic_of,
    jump_label, operand_text, key_target. cbv zeta.
  destruct (String.eqb (trim raw) ""); [discriminate |].
  destruct (starts_with "#" (trim raw)); [discriminate |].
  destruct (starts_with "@" (trim raw)); [discriminate |].
  destruct (regex_upto ":" (trim raw)); [discriminate |].
  destruct (read_mnemonic (trim raw)) as [m rest] eqn:Hm. simpl fst. simpl snd.
  destruct (is_jmp m) eqn:Hj.
  - intros _. unfold parse_instruction. rewrite Hm, Hj. simpl andb. cbv iota.
    unfold resolve_jump.
    pose proof (scan_jump_label rest 0) as Hl.
    pose proof (scan_jump_done rest 0) as Hd.
    destruct (scan_jump rest 0) as [[[l op] cm] r]. simpl in Hl, Hd. subst l.
    assert (forall o, (if cm then Some o else scan_operands r o) = Some o) as Hs.
    { intros o. destruct Hd as [-> | ->]; [reflexivity |]. destruct cm; reflexivity. }
    destruct (mnemonic_short_icode m 1 0 (is_jmp_length m Hj)) as [k Hk].
    destruct (lblmap s' !! trim (before_hash rest)) as [a |] eqn:Hlbl.
    + rewrite Hs. cbv zeta. cbn [optype numops ops].
      change (rd [1; 0] 0) with 1. change (rd [1; 0] 1) with 0. rewrite Hk.
      destruct (im !! k) as [t |] eqn:Ht; [discriminate |].
      intros [= <-]. simpl. repeat split. right. auto.
    + destruct (Nat.ltb 2 (strlen (trim (before_hash rest)))) eqn:Hlen.
      * intros [= <-]. simpl. repeat split. left.
        apply Nat.ltb_lt in Hlen. auto.
      * rewrite Hs. cbv zeta. cbn [optype numops ops].
        change (rd [1; 0] 0) with 1. change (rd [1; 0] 1) with 0. rewrite Hk.
        destruct (im !! k) as [t |] eqn:Ht; [discriminate |].
        intros [= <-]. simpl. repeat split. right. auto.
  - rewrite (parse_instruction_plain im false s _ m rest Hm eq_refl).
    rewrite (parse_instruction_plain im true s' _ m rest Hm)
      by (rewrite Hj; reflexivity).
    destruct (scan_operands rest _) as [o |]; [| discriminate]. cbv zeta.
    destruct (make_icode m _ _) as [k |]; [| discriminate].
    destruct (im !! k); discriminate.
Qed.

Lemma pass2_error_lines im lines :
  forall s s' u d,
    parse_lines im false s lines = Ok u ->
    parse_lines im true s' lines = Err d ->
    exists raw, raw ∈ lines /\ jump_fault im (lblmap s') raw d.
Proof.
  induction lines as [| l lines IH]; intros s s' u d; simpl; [discriminate |].
  destruct (parse_line im false s l) as [t |] eqn:H1; [| discriminate].
  destruct (parse_line im true s' l) as [t' |] eqn:H2.
  - intros Hu Hd. destruct (IH t t' u d Hu Hd) as (raw & Hin & Hf).
    exists raw. split; [apply list_elem_of_further; exact Hin |].
    apply parse_line_write_frame in H2. destruct H2 as (<- & _). exact Hf.
  - intros _ [= Hd]. subst. exists l. split; [apply list_elem_of_here |].
    apply (pass2_error_line im s s' l t _ H1 H2).
Qed.

(** X14. Once the first pass has gone through a program, the second pass
    can fail at a jump or branch line only, and for one of two reasons:
    the operand text is longer than two characters and is not a label
    defined anywhere in the program; or the map has no entry for the
    mnemonic with one immediate operand. Every other line that passes the
    first pass passes the second. The run then ends in failure and the
    output file is removed. *)
Theorem second_pass_errors im mpc1 mpc2 lines s1 d :
  parse im false mpc1 start lines = Ok s1 ->
  parse im true mpc2 s1 lines = Err d ->
  main im mpc1 mpc2 lines = mkOutcome true None (Some d) [] None
  /\ exists raw, raw ∈ lines /\ jump_fault im (lblmap s1) raw d.
Proof.
  intros H1 H2. split; [apply (main_pass2_err im mpc1 mpc2 lines s1 d H1 H2) |].
  unfold parse in *.
  destruct (pass2_error_lines im lines _ _ _ _ H1 H2) as (raw & Hin & Hf).
  exists raw. split; [exact Hin |]. rewrite enter_lblmap in Hf. exact Hf.
Qed.

Lemma second_pass_errors_witness :
  let s1 := state_of (parse imap false 0 start far_program) in
  let d := mkDiag InvalidJumpOperand "BR lab2" 4 in
  main imap 0 0 far_program = mkOutcome true None (Some d) [] None
  /\ exists raw, raw ∈ far_program /\ jump_fault imap (lblmap s1) raw d.
Proof.
  apply (second_pass_errors imap 0 0 far_program
           (state_of (parse imap false 0 start far_program)));
    vm_compute; reflexivity.
Defined.

(** ** Letter case *)

Lemma toupper_idem c : toupper (toupper c) = toupper c.
Proof. ascii_cases c. Qed.

Lemma is_space_upper c : is_space (toupper c) = is_space c.
Proof. ascii_cases c. Qed.

Lemma toupper_eqb_at c : Ascii.eqb (toupper c) "@" = Ascii.eqb c "@".
Proof. ascii_cases c. Qed.

Lemma toupper_eqb_colon c : Ascii.eqb (toupper c) ":" = Ascii.eqb c ":".
Proof. ascii_cases c. Qed.

Lemma is_line_terminator_upper c :
  is_line_terminator (toupper c) = is_line_terminator c.
Proof. ascii_cases c. Qed.

Lemma ltrim_upper s : ltrim (upper s) = upper (ltrim s).
Proof.
  induction s as [| c s IH]; [reflexivity |]. simpl.
  rewrite is_space_upper. destruct (is_space c); [exact IH | reflexivity].
Qed.

Lemma rtrim_upper s : rtrim (upper s) = upper (rtrim s).
Proof.
  induction s as [| c s IH]; [reflexivity |]. simpl.
  rewrite IH, is_space_upper.
  destruct (rtrim s); simpl; [destruct (is_space c) |]; reflexivity.
Qed.

Lemma trim_upper s : trim (upper s) = upper (trim s).
Proof. unfold trim. rewrite rtrim_upper, ltrim_upper. reflexivity. Qed.

Lemma upper_empty s : String.eqb (upper s) "" = String.eqb s "".
Proof. destruct s; reflexivity. Qed.

Lemma regex_colon_upper s :
  regex_upto ":" (upper s) = upper <$> regex_upto ":" s.
Proof.
  induction s as [| c s IH]; [reflexivity |]. simpl.
  rewrite is_line_terminator_upper, toupper_eqb_colon, IH.
  destruct (is_line_terminator c).
  - destruct (Ascii.eqb c ":"); reflexivity.
  - destruct (regex_upto ":" s); simpl; [reflexivity |].
    destruct (Ascii.eqb c ":"); reflexivity.
Qed.

Lemma read_mnemonic_upper s :
  read_mnemonic (upper s)
  = ((read_mnemonic s).1, upper (read_mnemonic s).2).
Proof.
  induction s as [| c s IH]; [reflexivity |]. simpl.
  rewrite toupper_eqb_space. destruct (Ascii.eqb c " "); [reflexivity |].
  rewrite IH. destruct (read_mnemonic s) as [m r]. simpl.
  rewrite toupper_idem. reflexivity.
Qed.

Lemma upper_mnemonic s : upper (read_mnemonic s).1 = (read_mnemonic s).1.
Proof.
  induction s as [| c s IH]; [reflexivity |]. simpl.
  destruct (Ascii.eqb c " "); [reflexivity |].
  destruct (read_mnemonic s) as [m r]. simpl in *.
  rewrite toupper_idem, IH. reflexivity.
Qed.

Lemma scan_operands_upper s o : scan_operands (upper s) o = scan_operands s o.
Proof.
  revert o. induction s as [| c s IH]; intros o; [reflexivity |]. simpl.
  rewrite toupper_idem.
  destruct (Ascii.eqb (toupper c) " "); [apply IH |].
  destruct (Ascii.eqb (toupper c) "#"); [reflexivity |].
  destruct (Ascii.eqb (toupper c) "$"); [apply IH |].
  destruct (Ascii.eqb (toupper c) ",").
  { destruct (Nat.eqb (numops o) 0); [apply IH | reflexivity]. }
  destruct (is_hex (toupper c)); apply IH.
Qed.

Lemma is_instruction_line_upper raw :
  is_instruction_line (upper raw) = is_instruction_line raw.
Proof.
  unfold is_instruction_line. cbv zeta.
  rewrite trim_upper, upper_empty, regex_colon_upper.
  destruct (trim raw) as [| c s]; [reflexivity |]. simpl starts_with.
  rewrite toupper_eqb_hash, toupper_eqb_at.
  destruct (regex_upto ":" (String c s)); reflexivity.
Qed.

Lemma mnemonic_of_upper raw : mnemonic_of (upper raw) = mnemonic_of raw.
Proof. unfold mnemonic_of. rewrite trim_upper, read_mnemonic_upper. reflexivity. Qed.

(* an instruction line and its upper-cased copy *)
Lemma parse_line_upper im write st raw :
  is_instruction_line raw = true ->
  write && is_jmp (mnemonic_of raw) = false ->
  parse_line im write st (upper raw) =
    match parse_line im write st raw with
    | Ok t => Ok t
    | Err d => Err (mkDiag (dkind d) (upper (dtext d)) (dline d))
    end.
Proof.
  intros Hi Hw.
  rewrite (parse_line_instruction im write st (upper raw))
    by (rewrite is_instruction_line_upper; exact Hi).
  rewrite (parse_line_instruction im write st raw Hi).
  rewrite trim_upper. unfold mnemonic_of in Hw.
  pose proof (read_mnemonic_upper (trim raw)) as Hu.
  pose proof (upper_mnemonic (trim raw)) as Hm.
  destruct (read_mnemonic (trim raw)) as [m rest] eqn:Hr. simpl in *.
  rewrite (parse_instruction_plain im write st _ m (upper rest) Hu Hw).
  rewrite (parse_instruction_plain im write st _ m rest Hr Hw).
  rewrite scan_operands_upper.
  destruct (scan_operands rest _) as [o |]; [| reflexivity]. cbv zeta.
  destruct (make_icode m _ _) as [k |]; [| simpl; rewrite Hm; reflexivity].
  destruct (im !! k); reflexivity.
Qed.

(** X15. Letter case does not matter on ordinary instruction lines: two
    lines that become equal when every letter is upper-cased, read in the
    first pass or as ordinary (not jump or branch) instructions in the
    second, give the same state, or fail with the same kind of error at
    the same line number. (Label names are not covered: they are compared
    as written.) *)
Theorem letter_case_irrelevant im write st raw1 raw2 :
  upper raw1 = upper raw2 ->
  is_instruction_line raw1 = true ->
  write && is_jmp (mnemonic_of raw1) = false ->
  match parse_line im write st raw1, parse_line im write st raw2 with
  | Ok t1, Ok t2 => t1 = t2
  | Err d1, Err d2 =>
      dkind d1 = dkind d2 /\ dline d1 = dline d2
      /\ upper (dtext d1) = upper (dtext d2)
  | _, _ => False
  end.
Proof.
  intros He Hi Hw.
  assert (is_instruction_line raw2 = true) as Hi2.
  { rewrite <- is_instruction_line_upper, <- He, is_instruction_line_upper.
    exact Hi. }
  assert (write && is_jmp (mnemonic_of raw2) = false) as Hw2.
  { rewrite <- mnemonic_of_upper, <- He, mnemonic_of_upper. exact Hw. }
  pose proof (parse_line_upper im write st raw1 Hi Hw) as H1.
  pose proof (parse_line_upper im write st raw2 Hi2 Hw2) as H2.
  rewrite He in H1. rewrite H2 in H1. clear H2.
  destruct (parse_line im write st raw1) as [t1 | d1],
           (parse_line im write st raw2) as [t2 | d2]; try discriminate.
  - injection H1 as ->. reflexivity.
  - injection H1 as -> -> ->. auto.
Qed.

Lemma letter_case_irrelevant_witness :
  match parse_line imap true start "Mov $0a, fF", parse_line imap true start "mOV $0A, Ff" with
  | Ok t1, Ok t2 => t1 = t2
  | Err d1, Err d2 =>
      dkind d1 = dkind d2 /\ dline d1 = dline d2
      /\ upper (dtext d1) = upper (dtext d2)
  | _, _ => False
  end.
Proof.
  apply (letter_case_irrelevant imap true start "Mov $0a, fF" "mOV $0A, Ff");
    reflexivity.
Defined.

(** ** Where the label table comes from *)

Lemma pass1_line_labels im u raw v :
  parse_line im false u raw = Ok v ->
  lblmap v = lblmap u
  \/ exists name,
       label_of raw = Some name
       /\ lblmap v = <[name := caddr u mod 256]> (lblmap u).
Proof.
  destruct (label_of raw) as [name |] eqn:Hl.
  - destruct (label_of_line raw name Hl) as (m & E1 & E2 & E3 & E4 & ->).
    unfold parse_line. cbv zeta. rewrite E1, E2, E3, E4.
    intros [= <-]. right. eexists. split; reflexivity.
  - intros H. left. revert Hl H. unfold label_of, parse_line. cbv zeta.
    destruct (String.eqb (trim raw) ""); [intros _ [= <-]; reflexivity |].
    destruct (starts_with "#" (trim raw)); [intros _ [= <-]; reflexivity |].
    destruct (starts_with "@" (trim raw)).
    { intros _. unfold parse_directive. cbv zeta.
      destruct (regex_upto "=" (trim raw)) as [m |]; [| discriminate].
      destruct (directives u !! _); [| discriminate].
      destruct (scan_value _ (mpc u)); [| discriminate].
      destruct (String.eqb _ "base_addr"); intros [= <-]; reflexivity. }
    destruct (regex_upto ":" (trim raw)); [discriminate |].
    intros _ H. apply parse_instruction_frame in H. tauto.
Qed.

Lemma parse_lines_snoc im write s ls l t :
  parse_lines im write s (ls ++ [l]) = Ok t ->
  exists u, parse_lines im write s ls = Ok u /\ parse_line im write u l = Ok t.
Proof.
  rewrite parse_lines_app.
  destruct (parse_lines im write s ls) as [u |]; [| discriminate].
  simpl. destruct (parse_line im write u l) as [t' |] eqn:H; [| discriminate].
  intros [= <-]. eauto.
Qed.

(** X16. Every entry of the label table at the end of the first pass comes
    from a label line of the program: its name is the text before the last
    colon of that line, and its address is the program address the first
    pass had at that line, reduced modulo 256; so the address is a byte,
    and a label more than 255 bytes into the program gets an address that
    wraps around. *)
Theorem label_table_origin im mpc1 lines s1 name a :
  parse im false mpc1 start lines = Ok s1 ->
  lblmap s1 !! name = Some a ->
  0 <= a < 256
  /\ exists pre raw post u,
       lines = pre ++ raw :: post
       /\ label_of raw = Some name
       /\ parse im false mpc1 start pre = Ok u
       /\ a = caddr u mod 256.
Proof.
  unfold parse. revert s1. induction lines as [| l ls IH] using rev_ind;
    intros s1 H Ha.
  - injection H as <-. simpl in Ha. rewrite lookup_empty in Ha. discriminate.
  - destruct (parse_lines_snoc im false _ ls l s1 H) as (u & Hu & Hl).
    destruct (pass1_line_labels im u l s1 Hl) as [Hsame | (n & Hn & Hins)].
    + rewrite Hsame in Ha.
      destruct (IH u Hu Ha) as (Hr & pre & raw & post & w & -> & Hlab & Hw & Hq).
      split; [exact Hr |].
      exists pre, raw, (post ++ [l]), w. rewrite <- app_assoc. auto.
    + rewrite Hins in Ha. destruct (decide (n = name)) as [-> | Hne].
      * rewrite lookup_insert_eq in Ha. injection Ha as <-.
        split; [apply Z.mod_pos_bound; lia |].
        exists ls, l, [], u. auto.
      * rewrite lookup_insert_ne in Ha by assumption.
        destruct (IH u Hu Ha) as (Hr & pre & raw & post & w & -> & Hlab & Hw & Hq).
        split; [exact Hr |].
        exists pre, raw, (post ++ [l]), w. rewrite <- app_assoc. auto.
Qed.

Lemma label_table_origin_witness :
  0 <= 1 < 256
  /\ exists pre raw post u,
       ["HLT"; "lb: # here"; "HLT"] = pre ++ raw :: post
       /\ label_of raw = Some "lb"
       /\ parse imap false 0 start pre = Ok u
       /\ 1 = caddr u mod 256.
Proof.
  apply (label_table_origin imap 0 ["HLT"; "lb: # here"; "HLT"]
           (state_of (parse imap false 0 start ["HLT"; "lb: # here"; "HLT"]))
           "lb" 1); vm_compute; reflexivity.
Defined.

(** ** Trailing comments *)


Lemma scan_jump_before_hash s op :
  (scan_jump (before_hash s) op).1.1.2 = (scan_jump s op).1.1.2.
Proof.
  revert op. induction s as [| c s IH]; intros op; [reflexivity |]. simpl.
  destruct (Ascii.eqb c "#") eqn:Hh; [reflexivity |]. simpl. rewrite Hh.
  specialize (IH (shift_in op (toupper c))).
  destruct (scan_jump (before_hash s) (shift_in op (toupper c))) as [[[l1 o1] c1] r1].
  destruct (scan_jump s (shift_in op (toupper c))) as [[[l2 o2] c2] r2].
  exact IH.
Qed.

Lemma before_hash_idem s : before_hash (before_hash s) = before_hash s.
Proof.
  induction s as [| c s IH]; [reflexivity |]. simpl.
  destruct (Ascii.eqb c "#") eqn:Hh; [reflexivity |]. simpl.
  rewrite Hh, IH. reflexivity.
Qed.



(** ** A space after a literal jump operand *)

Lemma scan_jump_app s t op :
  all_chars (fun c => negb (Ascii.eqb c "#")) s = true ->
  (scan_jump (s +:+ t) op).1.1.2 = (scan_jump t (scan_jump s op).1.1.2).1.1.2.
Proof.
  revert op. induction s as [| c s IH]; intros op H; [reflexivity |].
  simpl in H. apply andb_prop in H as [Hc Hs]. apply negb_true_iff in Hc.
  rewrite append_cons. simpl. rewrite Hc.
  specialize (IH (shift_in op (toupper c)) Hs).
  destruct (scan_jump (s +:+ t) (shift_in op (toupper c))) as [[[l1 o1] c1] r1].
  destruct (scan_jump s (shift_in op (toupper c))) as [[[l2 o2] c2] r2].
  exact IH.
Qed.

Lemma rtrim_trailing_space h :
  all_chars (fun c => negb (is_space c)) h = true ->
  rtrim (h +:+ " ") = h.
Proof.
  induction h as [| c h IH]; [reflexivity |]. simpl. intros H.
  apply andb_prop in H as [Hc Hh]. apply negb_true_iff in Hc.
  rewrite (IH Hh). destruct h; [rewrite Hc |]; reflexivity.
Qed.

Lemma hex_text_plain s :
  all_chars is_hex_char s = true ->
  all_chars (fun c => negb (is_space c)) s = true
  /\ all_chars (fun c => negb (Ascii.eqb c "#")) s = true.
Proof.
  intros H. split; revert H; apply all_chars_impl; intros c Hc.
  - destruct (hex_char_plain c Hc) as (-> & _). reflexivity.
  - destruct (hex_char_plain c Hc) as (_ & -> & _). reflexivity.
Qed.

(** X18. In the second pass a jump or branch operand is read character by
    character up to the first [#], spaces included. When the operand is
    one or two hex digits followed by one space (as in [JMP 1F # go]) and
    is not a label, the space is shifted in as a zero digit: the operand
    byte is 16 times the literal plus the base address, modulo 256, not
    the literal plus the base address. *)
Theorem jump_literal_then_space im st raw h k t :
  is_instruction_line raw = true ->
  is_jmp (mnemonic_of raw) = true ->
  before_hash (operand_text raw) = h +:+ " " ->
  all_chars is_hex_char h = true ->
  (1 <= strlen h <= 2)%nat ->
  lblmap st !! h = None ->
  make_icode (mnemonic_of raw) 1 0 = Some k ->
  im !! k = Some t ->
  parse_line im true st raw =
    Ok (emitted2 st t ((16 * hex_value h + base_addr (directives st)) mod 256)).
Proof.
  intros Hi Hj Hb Hh Hlen Hl Hk Ht.
  rewrite parse_line_instruction by assumption.
  unfold mnemonic_of, operand_text in *.
  destruct (read_mnemonic (trim raw)) as [m rest] eqn:Hm. simpl in *.
  rewrite (parse_instruction_jump im st _ m rest k t) by assumption.
  destruct (hex_text_plain h Hh) as [Hns Hnh].
  assert (trim (before_hash rest) = h) as Htr.
  { rewrite Hb. unfold trim. rewrite (rtrim_trailing_space h Hns).
    apply (trim_no_space h) in Hns. unfold trim in Hns.
    assert (rtrim h = h) as Hr.
    { clear -Hh. induction h as [| c h IH]; [reflexivity |]. simpl in *.
      apply andb_prop in Hh as [Hc Hh]. rewrite (IH Hh).
      destruct (hex_char_plain c Hc) as (-> & _). destruct h; reflexivity. }
    rewrite Hr in Hns. exact Hns. }
  rewrite Htr, Hl.
  assert (Nat.ltb 2 (strlen h) = false) as -> by (apply Nat.ltb_ge; lia).
  do 2 f_equal. unfold jump_literal.
  rewrite <- scan_jump_before_hash, Hb, (scan_jump_app h " " 0 Hnh).
  fold (jump_literal h). rewrite (hex_text_literal h Hh) by lia.
  simpl. rewrite shift_in_mod. change (nibble (toupper " ")) with 0.
  unfold to_uchar. rewrite Z.add_0_r, Z.add_mod_idemp_l by lia. reflexivity.
Qed.

Lemma jump_literal_then_space_witness :
  parse_line imap true start "JMP 1F # go" = Ok (emitted2 start 0x50 0xF0).
Proof.
  apply (jump_literal_then_space imap start "JMP 1F # go" "1F" 0x4A4D5010 0x50);
    first [reflexivity | (vm_compute; lia)].
Defined.
